(** * TSPSolver3D: tour planning over inspection viewpoints

    A shallow embedding of [solvers/tsp_solvers.py] (class [TSPSolver3D]):
    the pairwise distance/path matrix of [plan_tour], [compute_path],
    the adapter around the sequencing solver ([compute_tsp_sequence]),
    the tour assembly of [compute_tsp_tour], the clustering of
    [clusterViewpoints] with its greedy assignment, and the bounds that
    [setup] computes.

    Numbers are IEEE binary64 floats, as Python's [float] and numpy's
    [float64] are; the dictionaries [self.paths] and
    [self.tooFarAwayDistances] are finite maps keyed by index pairs; the
    numpy matrix [self.distances] is a list of rows. *)

From Stdlib Require Import Floats ZArith Lia.
From stdpp Require Import gmap strings list.


(** ** Geometry: [Point], [Pose], [Viewpoint] (from [utils]) *)

Record Point := mkPoint { x : float; y : float; z : float }.

Record Pose := mkPose { point : Point; heading : float }.

Record Viewpoint := mkViewpoint { idx : nat; pose : Pose }.

(** [Pose(x, y, z, heading)] *)
Definition Pose4 (px py pz h : float) : Pose := mkPose (mkPoint px py pz) h.

(** [p.heading = h] *)
Definition set_heading (p : Pose) (h : float) : Pose := mkPose (point p) h.

(** Modelled from the spec: [distEuclidean] lives in [utils], which is not
    part of the sources at hand; the spec calls it the "Euclidean distance
    between the two poses", that is the norm of the difference of the two
    positions (the heading takes no part). *)
Definition distEuclidean (p q : Pose) : float :=
  let dx := (x (point p) - x (point q))%float in
  let dy := (y (point p) - y (point q))%float in
  let dz := (z (point p) - z (point q))%float in
  sqrt (dx * dx + dy * dy + dz * dz)%float.

(** ** Failures

    [compute_path] ends the process with [exit(-2)] when no path is found;
    the other constructors are the Python exceptions an ill-formed session
    runs into. *)

Inductive error :=
| NoPathFound      (* rospy.signal_shutdown; exit(-2) *)
| TypeError        (* subscripting None *)
| KeyError         (* missing dictionary key *)
| IndexError       (* list or array index out of range *)
| AssertionError   (* failed assert *)
| ValueError.      (* randint on an empty range *)

Inductive result (A : Type) :=
| Ok (a : A)
| Err (e : error).

Arguments Ok {A} a.
Arguments Err {A} e.

#[global] Instance result_ret : MRet result := fun A a => Ok a.

#[global] Instance result_bind : MBind result := fun A B k r =>
  match r with
  | Ok a => k a
  | Err e => Err e
  end.

(** [d[k]] on an optional lookup: the given exception when the key is absent. *)
Definition or_raise {A} (e : error) (o : option A) : result A :=
  match o with
  | Some a => Ok a
  | None => Err e
  end.

(** A [for] loop over a list whose body may fail. *)
Fixpoint foldM {A S} (body : A -> S -> result S) (l : list A) (s : S) : result S :=
  match l with
  | [] => Ok s
  | a :: l' => s' ← body a s; foldM body l' s'
  end.

(** [for i in range(lo, lo + len)] *)
Definition for_range {S} (lo len : nat) (body : nat -> S -> result S) (s : S) : result S :=
  foldM body (seq lo len) s.

(** ** Planner configuration: the [path_planner] dictionary

    The dictionary as the code finds it when it reads it: the two method
    names, and the further keys it holds at that time, those the caller has
    put there (['safety_distance'], ['timeout'], ['straighten'], ...) and
    those [setup] has added (['obstacles_kdtree'], ['bounds'], ['grid']).
    The values under the further keys are read by the external planners
    alone; for the solver a key is there or it is not. *)

Record PathPlanner := mkPathPlanner {
  path_planning_method : string;
  distance_estimation_method : string;
  further_keys : list string
}.

(** The dictionary holds every key of [read]. *)
Definition has_keys (cfg : PathPlanner) (read : list string) : bool :=
  forallb (fun key => bool_decide (key ∈ further_keys cfg)) read.

Arguments has_keys : simpl never.

(** [path_planner[key]] for each key of [read] in turn, the values being
    handed on to a planner: [TypeError] on [None], [KeyError] at the first
    key the dictionary lacks. *)
Definition subscript (path_planner : option PathPlanner) (read : list string) : result unit :=
  match path_planner with
  | None => Err TypeError
  | Some cfg => if has_keys cfg read then Ok tt else Err KeyError
  end.

Definition ALLOWED_PATH_PLANNERS : list string :=
  ["euclidean"; "astar"; "rrt"; "rrtstar"]%string.

Definition ALLOWED_DISTANCE_ESTIMATION_METHODS : list string :=
  ["euclidean"; "astar"; "rrt"; "rrtstar"]%string.

(** ** Session state

    The fields [plan_tour] creates on [self], and a log of the calls made
    to the external planners (the only effect of [compute_path] besides its
    result). *)

Record call := mkCall {
  call_method : string;
  call_from : Pose;
  call_to : Pose
}.

Record session := mkSession {
  tooFarAwayPairs : list (nat * nat);
  tooFarAwayDistances : gmap (nat * nat) float;
  distances : list (list float);
  paths : gmap (nat * nat) (list Pose);
  planner_calls : list call
}.

(** The sentinel of a cell not computed yet, and the deferral threshold. *)
Definition UNSET : float := (-1)%float.
Definition DIST_THRESHOLD : float := 5%float.

(** [np.full((n, n), v)] *)
Definition full (n : nat) (v : float) : list (list float) :=
  replicate n (replicate n v).

(** [m[a][b]] *)
Definition cell (m : list (list float)) (a b : nat) : option float :=
  row ← m !! a; row !! b.

(** [m[a][b] = d]; every write of the session follows a read of the same
    row and column range, so the out-of-range case (numpy raises) is not
    reached and is left as no change. *)
Definition set_cell (a b : nat) (d : float) (m : list (list float)) : list (list float) :=
  match m !! a with
  | Some row => <[a := <[b := d]> row]> m
  | None => m
  end.

(** [np.fill_diagonal(m, v)] *)
Definition fill_diagonal (v : float) (m : list (list float)) : list (list float) :=
  fold_left (fun acc i => set_cell i i v acc) (seq 0 (length m)) m.

(** [path[-1].heading = h] *)
Fixpoint set_last_heading (path : list Pose) (h : float) : list Pose :=
  match path with
  | [] => []
  | [p] => [set_heading p h]
  | p :: rest => p :: set_last_heading rest h
  end.

(** Truth value of a Python list ([if path:]): [None] and [[]] are false. *)
Definition nonempty_path (o : option (list Pose)) : option (list Pose) :=
  match o with
  | Some (p :: l) => Some (p :: l)
  | _ => None
  end.

(** ** The solver *)

Section TSPSolver3D.

(** External collaborators. [check_line_of_sight] (from
    [path_planners.sampling_based.rrt]) tests the straight segment against
    the obstacle field. The planners [AStar(...).generatePath] and
    [RRT().generatePath] return a path or nothing, and a length; the
    sampling planner draws at random, so both take the number of earlier
    planner calls of the session as the source of their variation.
    The wrappers [p.asList()] and [Pose(p[0], p[1], p[2], p[3])] around
    them are inverse to each other and are folded into these parameters.
    [lkh] stands for writing the TSPLIB file, running the LKH solver and
    reading its result back: from the matrix to a visiting order, whose
    entries are indices or [None]. The collaborators are taken to return:
    an exception raised inside one of them is outside this model. *)
Variable check_line_of_sight : option PathPlanner -> Pose -> Pose -> bool.
Variable astar_generatePath : nat -> Pose -> Pose -> option (list Pose) * float.
Variable rrt_generatePath : nat -> bool -> Pose -> Pose -> option (list Pose) * float.
Variable lkh : list (list float) -> list (option nat).

(** *** [setup], lines 34-38: the validation of the two method names.
    What follows in the source (lines 41-76) builds the KD-tree, the bounds
    and the grid from the problem and stores them in the dictionary; that
    part is not modelled here, and it can raise (an empty safety area at
    line 50, say). [setup], and [plan_tour] with it, therefore describe the
    runs in which the environment has been built, with [path_planner] the
    dictionary as [setup] leaves it. The bounds of lines 48-52 are modelled
    on their own, as [environment_bounds]. *)
Definition setup (path_planner : option PathPlanner) : result unit :=
  match path_planner with
  | None => Ok tt
  | Some cfg =>
      if bool_decide (path_planning_method cfg ∈ ALLOWED_PATH_PLANNERS) then
        if bool_decide (distance_estimation_method cfg ∈ ALLOWED_DISTANCE_ESTIMATION_METHODS)
        then Ok tt
        else Err AssertionError
      else Err AssertionError
  end.

(** *** [compute_path]: the planners are built from entries of the
    dictionary (lines 200 and 209), which must be there. *)
Definition compute_path (calls : list call) (p_from p_to : Pose)
    (path_planner : option PathPlanner) (path_planner_method : string)
    : result (list Pose * float * list call) :=
  '(path, distance, calls') ←
    (if bool_decide (path_planner = None) || String.eqb path_planner_method "euclidean" then
       Ok (Some [p_from; p_to], distEuclidean p_from p_to, calls)
     else if String.eqb path_planner_method "astar" then
       _ ← subscript path_planner ["grid"; "safety_distance"; "timeout"; "straighten"]%string;
       let '(p, d) := astar_generatePath (length calls) p_from p_to in
       Ok (nonempty_path p, d, calls ++ [mkCall path_planner_method p_from p_to])
     else if String.prefix "rrt" path_planner_method then
       _ ← subscript path_planner ["straighten"]%string;
       let '(p, d) :=
         rrt_generatePath (length calls) (String.eqb path_planner_method "rrtstar") p_from p_to in
       Ok (nonempty_path p, d, calls ++ [mkCall path_planner_method p_from p_to])
     else Ok (None, infinity, calls));
  match path with
  | Some p => Ok (p, distance, calls')
  | None => Err NoPathFound
  end.

(** [path_planner['path_planning_method']] *)
Definition configured_method (path_planner : option PathPlanner) : result string :=
  or_raise TypeError (path_planning_method <$> path_planner).

(** [viewpoints[i].pose] *)
Definition pose_at (viewpoints : list Viewpoint) (i : nat) : result Pose :=
  or_raise IndexError (pose <$> viewpoints !! i).

(** *** [plan_tour], lines 158-164: store a path and its distance in both
    directions. The heading is written into the last pose of [path]
    itself. On the straight segment [[g1, g2]] that pose is the
    viewpoint's own [g2] and the write changes nothing; on a planner's
    path it is a pose built for that path alone. No pose is written to
    anywhere else, so poses are modelled as values. *)
Definition store_pair (a b : nat) (g2 : Pose) (path : list Pose) (distance : float)
    (st : session) : session :=
  let path' := set_last_heading path (heading g2) in
  mkSession (tooFarAwayPairs st) (tooFarAwayDistances st)
    (set_cell b a distance (set_cell a b distance (distances st)))
    (<[(b, a) := rev path']> (<[(a, b) := path']> (paths st)))
    (planner_calls st).

(** Lines 146-149: register a pair as deferred, in both orders. *)
Definition defer_pair (a b : nat) (distance : float) (st : session) : session :=
  mkSession (tooFarAwayPairs st ++ [(a, b); (b, a)])
    (<[(b, a) := distance]> (<[(a, b) := distance]> (tooFarAwayDistances st)))
    (distances st) (paths st) (planner_calls st).

Definition with_calls (calls : list call) (st : session) : session :=
  mkSession (tooFarAwayPairs st) (tooFarAwayDistances st) (distances st) (paths st) calls.

(** The body of the double loop of [plan_tour] (lines 111-164). *)
Definition plan_pair (viewpoints : list Viewpoint) (path_planner : option PathPlanner)
    (a b : nat) (st : session) : result session :=
  if a =? b then Ok st
  else
  d_ab ← or_raise IndexError (cell (distances st) a b);
  if negb (d_ab =? UNSET)%float then Ok st
  else
    g1 ← pose_at viewpoints a;
    g2 ← pose_at viewpoints b;
    '(path, distance, calls) ← compute_path (planner_calls st) g1 g2 path_planner "euclidean";
    let st := with_calls calls st in
    if check_line_of_sight path_planner g1 g2 then
      Ok (store_pair a b g2 path distance st)
    else if (DIST_THRESHOLD <? distance)%float then
      Ok (store_pair a b g2 path (distance * 3)%float (defer_pair a b distance st))
    else
      method ← configured_method path_planner;
      '(path, distance, calls) ← compute_path (planner_calls st) g1 g2 path_planner method;
      Ok (store_pair a b g2 path distance (with_calls calls st)).

(** Lines 98-104. *)
Definition init_session (n : nat) : session :=
  mkSession [] ∅ (fill_diagonal 0%float (full n UNSET)) ∅ [].

(** Lines 109-164. *)
Definition build_matrix (viewpoints : list Viewpoint) (path_planner : option PathPlanner)
    (st : session) : result session :=
  let n := length viewpoints in
  for_range 0 n (fun a => for_range 0 n (fun b => plan_pair viewpoints path_planner a b)) st.

(** *** [compute_tsp_sequence] *)

(** Index of the first [None] of a sequence, counted from [i]. *)
Fixpoint first_None (sequence : list (option nat)) (i : nat) : option nat :=
  match sequence with
  | [] => None
  | None :: _ => Some i
  | Some _ :: rest => first_None rest (S i)
  end.

(** Lines 310-317, on the solver's answer. *)
Definition anchor_sequence (sequence : list (option nat)) : list (option nat) :=
  match sequence with
  | Some _ :: _ =>
      match first_None sequence 0 with
      | Some i => drop i sequence ++ take i sequence
      | None => sequence
      end
  | _ => sequence
  end.

Definition compute_tsp_sequence (st : session) : list (option nat) :=
  anchor_sequence (lkh (distances st)).

(** *** [compute_tsp_tour] *)

(** [(a, b) in self.tooFarAwayPairs], for entries of the sequence. *)
Definition deferred (st : session) (a b : option nat) : option (nat * nat) :=
  match a, b with
  | Some a, Some b => if bool_decide ((a, b) ∈ tooFarAwayPairs st) then Some (a, b) else None
  | _, _ => None
  end.

(** Lines 244-253: the body of the loop that plans the deferred pairs of
    the sequence. The length returned by [compute_path] is dropped. *)
Definition resolve_pair (viewpoints : list Viewpoint) (path_planner : option PathPlanner)
    (sequence : list (option nat)) (i : nat) (st : session) : result session :=
  a ← or_raise IndexError (sequence !! (i - 1));
  b ← or_raise IndexError (sequence !! i);
  match deferred st a b with
  | None => Ok st
  | Some (a, b) =>
      g1 ← pose_at viewpoints a;
      g2 ← pose_at viewpoints b;
      method ← configured_method path_planner;
      '(path, _, calls) ← compute_path (planner_calls st) g1 g2 path_planner method;
      Ok (mkSession (tooFarAwayPairs st) (tooFarAwayDistances st) (distances st)
            (<[(a, b) := path]> (paths st)) calls)
  end.

(** [self.paths[(a_idx, b_idx)]]: a key with [None] in it was never stored. *)
Definition path_between (st : session) (a_idx b_idx : option nat) : result (list Pose) :=
  match a_idx, b_idx with
  | Some a, Some b => or_raise KeyError (paths st !! (a, b))
  | _, _ => Err KeyError
  end.

(** [viewpoints[b_idx].pose]: [None] is not an index. *)
Definition pose_of_entry (viewpoints : list Viewpoint) (b_idx : option nat) : result Pose :=
  match b_idx with
  | Some b => pose_at viewpoints b
  | None => Err TypeError
  end.

(** Lines 260-281: the body of the assembling loop. *)
Definition join_edge (viewpoints : list Viewpoint) (st : session)
    (sequence : list (option nat)) (n a : nat) (path : list Pose) : result (list Pose) :=
  let b := (a + 1) mod n in
  a_idx ← or_raise IndexError (sequence !! a);
  b_idx ← or_raise IndexError (sequence !! b);
  actual_path ← path_between st a_idx b_idx;
  let path := path ++ removelast actual_path in
  if a =? n - 1 then
    g ← pose_of_entry viewpoints b_idx;
    Ok (path ++ [g])
  else Ok path.

Definition resolve_deferred (viewpoints : list Viewpoint) (path_planner : option PathPlanner)
    (sequence : list (option nat)) (st : session) : result session :=
  for_range 1 (length sequence - 1) (resolve_pair viewpoints path_planner sequence) st.

Definition assemble (viewpoints : list Viewpoint) (st : session)
    (sequence : list (option nat)) : result (list Pose) :=
  let n := length (distances st) in
  for_range 0 n (join_edge viewpoints st sequence n) [].

(** Lines 243-283: [compute_tsp_tour] once the sequence is known. *)
Definition tour_of_sequence (viewpoints : list Viewpoint) (path_planner : option PathPlanner)
    (sequence : list (option nat)) (st : session) : result (list Pose * session) :=
  st ← resolve_deferred viewpoints path_planner sequence st;
  path ← assemble viewpoints st sequence;
  Ok (path, st).

Definition compute_tsp_tour (viewpoints : list Viewpoint) (path_planner : option PathPlanner)
    (st : session) : result (list Pose * session) :=
  tour_of_sequence viewpoints path_planner (compute_tsp_sequence st) st.

(** *** [plan_tour]: the tour, and the session as it is left behind. *)
Definition plan_tour (viewpoints : list Viewpoint) (path_planner : option PathPlanner)
    : result (list Pose * session) :=
  _ ← setup path_planner;
  st ← build_matrix viewpoints path_planner (init_session (length viewpoints));
  compute_tsp_tour viewpoints path_planner st.

(** A cell that still reads as uncomputed: [self.distances[a][b] != -1.0]
    is false. *)
Definition unset_cell (m : list (list float)) (a b : nat) : Prop :=
  ∃ d, cell m a b = Some d ∧ (d =? UNSET)%float = true.

(** What one iteration of the double loop of [plan_tour] can do to the
    session, case by case: the pair is skipped; the straight segment is
    kept (line of sight); the pair is deferred; the configured planner is
    called. *)
Inductive pair_outcome (viewpoints : list Viewpoint) (path_planner : option PathPlanner)
    (a b : nat) (st : session) : session -> Prop :=
| outcome_skip :
    a = b ∨ (∃ d, cell (distances st) a b = Some d ∧ (d =? UNSET)%float = false) ->
    pair_outcome viewpoints path_planner a b st st
| outcome_line va vb :
    a ≠ b -> viewpoints !! a = Some va -> viewpoints !! b = Some vb ->
    unset_cell (distances st) a b ->
    check_line_of_sight path_planner (pose va) (pose vb) = true ->
    pair_outcome viewpoints path_planner a b st
      (store_pair a b (pose vb) [pose va; pose vb] (distEuclidean (pose va) (pose vb)) st)
| outcome_deferred va vb :
    a ≠ b -> viewpoints !! a = Some va -> viewpoints !! b = Some vb ->
    unset_cell (distances st) a b ->
    check_line_of_sight path_planner (pose va) (pose vb) = false ->
    (DIST_THRESHOLD <? distEuclidean (pose va) (pose vb))%float = true ->
    pair_outcome viewpoints path_planner a b st
      (store_pair a b (pose vb) [pose va; pose vb]
         (distEuclidean (pose va) (pose vb) * 3)%float
         (defer_pair a b (distEuclidean (pose va) (pose vb)) st))
| outcome_planned va vb cfg path distance calls :
    a ≠ b -> viewpoints !! a = Some va -> viewpoints !! b = Some vb ->
    unset_cell (distances st) a b ->
    check_line_of_sight path_planner (pose va) (pose vb) = false ->
    (DIST_THRESHOLD <? distEuclidean (pose va) (pose vb))%float = false ->
    path_planner = Some cfg ->
    compute_path (planner_calls st) (pose va) (pose vb) path_planner
      (path_planning_method cfg) = Ok (path, distance, calls) ->
    pair_outcome viewpoints path_planner a b st
      (store_pair a b (pose vb) path distance (with_calls calls st)).

(** *** What the statements ask of the external planners *)

(** A planner that returns a path never returns the sentinel [-1.0] as
    its length. *)
Definition planner_lengths_set : Prop :=
  (∀ i p q path d, astar_generatePath i p q = (Some path, d) ->
     (d =? UNSET)%float = false) ∧
  (∀ i star p q path d, rrt_generatePath i star p q = (Some path, d) ->
     (d =? UNSET)%float = false).

(** A path from [p] to [q]: its first pose stands for [p] (is [p], or is
    at the position of [p]: the relation [R]) and it ends, after at least
    one more pose, at the position of [q]. *)
Definition joins (R : relation Pose) (p q : Pose) (path : list Pose) : Prop :=
  ∃ first mid last, path = first :: mid ++ [last] ∧ R first p ∧ point last = point q.

(** The planners return paths from their start to their goal. *)
Definition planners_join (R : relation Pose) : Prop :=
  (∀ i p q path d, astar_generatePath i p q = (Some path, d) ->
     path ≠ [] -> joins R p q path) ∧
  (∀ i star p q path d, rrt_generatePath i star p q = (Some path, d) ->
     path ≠ [] -> joins R p q path).

(** *** The steps of a session

    One iteration of the double loop of [plan_tour], or one iteration of
    the resolving loop of [compute_tsp_tour]: the only places where the
    session is written to. *)
Inductive session_step (viewpoints : list Viewpoint) (path_planner : option PathPlanner)
    : session -> session -> Prop :=
| step_plan_pair a b st st' :
    a < length viewpoints -> b < length viewpoints ->
    plan_pair viewpoints path_planner a b st = Ok st' ->
    session_step viewpoints path_planner st st'
| step_resolve_pair sequence i st st' :
    resolve_pair viewpoints path_planner sequence i st = Ok st' ->
    session_step viewpoints path_planner st st'.

(** The sessions met from the initialisation of [plan_tour] on. *)
Definition reachable (viewpoints : list Viewpoint) (path_planner : option PathPlanner)
    (st : session) : Prop :=
  rtc (session_step viewpoints path_planner) (init_session (length viewpoints)) st.

End TSPSolver3D.

(** ** [clusterViewpoints] *)

Record InspectionProblem := mkProblem {
  number_of_robots : nat;
  start_poses : list Point
}.

Section Clustering.

(** External collaborators: scikit-learn's [KMeans(n_clusters=k).fit],
    giving [cluster_centers_] and [labels_], its [pairwise_distances],
    and [random.randint(0, k - 1)] at the i-th draw, which raises a
    [ValueError] when the range is empty ([k = 0]). *)
Variable KMeans_fit : nat -> list Point -> list Point * list nat.
Variable pairwise_distances : list Point -> list Point -> list (list float).
Variable randint : nat -> nat -> nat.

(** Lines 368-372: one robot tried for one cluster centre. The dictionary
    [assigned_clusters] has the keys [0 .. k-1] from [dict.fromkeys] on and
    never gains or loses one: it is the list of its values in key order. *)
Definition try_uav (d_mat : list (list float)) (ctr_it uav_it : nat)
    (acc : float * list Z) : result (float * list Z) :=
  d ← or_raise IndexError (cell d_mat ctr_it uav_it);
  if (d <? acc.1)%float then
    if bool_decide (Z.of_nat uav_it ∉ acc.2)
    then Ok (d, <[ctr_it := Z.of_nat uav_it]> acc.2)
    else Ok acc
  else Ok acc.

(** Lines 364-372: one cluster centre. *)
Definition assign_centre (d_mat : list (list float)) (k ctr_it : nat)
    (assigned_clusters : list Z) : result (list Z) :=
  acc ← for_range 0 k (try_uav d_mat ctr_it) (infinity, assigned_clusters);
  Ok acc.2.

(** Lines 360-380: the assignment and its assertion,
    [len(assigned_clusters) == len(set(assigned_clusters.values()))]. *)
Definition assign_clusters (d_mat : list (list float)) (k : nat) : result (list Z) :=
  assigned_clusters ← for_range 0 k (assign_centre d_mat k) (replicate k (-1)%Z);
  if bool_decide (length assigned_clusters = length (remove_dups assigned_clusters))
  then Ok assigned_clusters
  else Err AssertionError.

(** Lines 383-385: [labels[i] = assigned_clusters[labels[i]]]. *)
Definition relabel (assigned_clusters : list Z) (labels : list nat) : result (list Z) :=
  mapM (fun l => or_raise KeyError (assigned_clusters !! l)) labels.

(** Lines 393-399. *)
Definition members (viewpoints : list Viewpoint) (labels : list Z) (r : nat)
    : result (list Viewpoint) :=
  foldM (fun i acc =>
           l ← or_raise IndexError (labels !! i);
           if bool_decide (l = Z.of_nat r) then
             vp ← or_raise IndexError (viewpoints !! i);
             Ok (acc ++ [vp])
           else Ok acc)
        (seq 0 (length labels)) [].

Definition clusterViewpoints (problem : InspectionProblem) (viewpoints : list Viewpoint)
    (method : string) : result (list (list Viewpoint)) :=
  let k := number_of_robots problem in
  labels ←
    (if String.eqb method "kmeans" then
       let positions := (fun vp => point (pose vp)) <$> viewpoints in
       let '(cluster_ctrs, labels) := KMeans_fit k positions in
       starts ← mapM (fun i => or_raise IndexError (start_poses problem !! i)) (seq 0 k);
       let d_mat := pairwise_distances cluster_ctrs starts in
       assigned_clusters ← assign_clusters d_mat k;
       relabel assigned_clusters labels
     else
       mapM (fun i => if bool_decide (k = 0) then Err ValueError
                      else Ok (Z.of_nat (randint i (k - 1))))
         (seq 0 (length viewpoints)));
  mapM (members viewpoints labels) (seq 0 k).

End Clustering.

(** ** Vocabulary of the statements: matrices, stored paths, invariants *)

Definition is_square (n : nat) (m : list (list float)) : Prop :=
  length m = n ∧ Forall (fun row => length row = n) m.

Definition symmetric (m : list (list float)) : Prop :=
  ∀ a b, cell m a b = cell m b a.

Definition zero_diagonal (m : list (list float)) : Prop :=
  ∀ a, a < length m -> cell m a a = Some 0%float.

Definition matrix_ok (n : nat) (m : list (list float)) : Prop :=
  is_square n m ∧ symmetric m ∧ zero_diagonal m.

(** What holds of a session all along the double loop of [plan_tour]:
    the matrix is well formed; a cell that no longer reads as unset has its
    path stored, and the other way round; the two directions of a pair hold
    each other's reverse; a deferred pair is registered in both orders and
    holds the straight segment between its two viewpoints, for which the
    line-of-sight test has failed. *)
Record build_inv (check_line_of_sight : option PathPlanner -> Pose -> Pose -> bool)
    (viewpoints : list Viewpoint) (path_planner : option PathPlanner) (st : session) : Prop := {
  inv_matrix : matrix_ok (length viewpoints) (distances st);
  inv_stored : ∀ a b d, a ≠ b -> cell (distances st) a b = Some d ->
      (d =? UNSET)%float = false -> is_Some (paths st !! (a, b));
  inv_set : ∀ a b, is_Some (paths st !! (a, b)) ->
      a ≠ b ∧ ∃ d, cell (distances st) a b = Some d ∧ (d =? UNSET)%float = false;
  inv_reverse : ∀ a b path, paths st !! (a, b) = Some path ->
      paths st !! (b, a) = Some (rev path);
  inv_deferred : ∀ a b, (a, b) ∈ tooFarAwayPairs st ->
      (b, a) ∈ tooFarAwayPairs st ∧
      ∃ va vb, viewpoints !! a = Some va ∧ viewpoints !! b = Some vb ∧
        paths st !! (a, b) = Some [pose va; pose vb] ∧
        (check_line_of_sight path_planner (pose va) (pose vb) = false ∨
         check_line_of_sight path_planner (pose vb) (pose va) = false)
}.

(** Two poses at the same position. *)
Definition same_point (p q : Pose) : Prop := point p = point q.

(** Every stored path begins at the viewpoint it leaves from and has at
    least one more pose. *)
Definition paths_start (R : relation Pose) (viewpoints : list Viewpoint) (st : session)
    : Prop :=
  ∀ a b path, paths st !! (a, b) = Some path ->
    ∃ va first mid last, viewpoints !! a = Some va ∧ path = first :: mid ++ [last] ∧
      R first (pose va).

(** The path stored for the [a]-th edge of a closed visiting order. *)
Definition tour_edge (st : session) (sequence : list (option nat)) (n a : nat)
    (path : list Pose) : Prop :=
  ∃ i j, sequence !! a = Some (Some i) ∧ sequence !! ((a + 1) mod n) = Some (Some j) ∧
    paths st !! (i, j) = Some path.

(** The [a]-th leg of a tour: the stored path of the [a]-th edge without its
    last pose, beginning at the viewpoint the edge leaves from. *)
Definition tour_leg (R : relation Pose) (viewpoints : list Viewpoint) (st : session)
    (sequence : list (option nat)) (n a : nat) (leg : list Pose) : Prop :=
  ∃ i v first last, sequence !! a = Some (Some i) ∧ viewpoints !! i = Some v ∧
    head leg = Some first ∧ R first (pose v) ∧ tour_edge st sequence n a (leg ++ [last]).

(** The [a]-th leg ends where the next one begins: the pose that is cut off
    the end of the stored path of the [a]-th edge is at the position of the
    viewpoint the edge leads to, the one the next leg (after the last leg,
    the closing start pose) begins from. *)
Definition leg_joins (viewpoints : list Viewpoint) (st : session)
    (sequence : list (option nat)) (n a : nat) (leg : list Pose) : Prop :=
  ∃ j v last, sequence !! ((a + 1) mod n) = Some (Some j) ∧ viewpoints !! j = Some v ∧
    tour_edge st sequence n a (leg ++ [last]) ∧ same_point last (pose v).

(** A matrix of finite distances: every entry is below [np.inf]. *)
Definition finite_matrix (m : list (list float)) : Prop :=
  ∀ a b d, cell m a b = Some d -> (d <? infinity)%float = true.

(** Robot [u] is still free when centre [c] has its turn: no earlier centre
    holds it. *)
Definition unclaimed (assigned_clusters : list Z) (c u : nat) : Prop :=
  ∀ c', c' < c -> assigned_clusters !! c' ≠ Some (Z.of_nat u).

(** The dictionary while centre [c] has its turn: the robots [us] of the
    earlier centres, the entry [v] of centre [c], and the entries of the
    later centres. *)
Definition entries (us : list nat) (rest : list Z) (v : Z) : list Z :=
  (Z.of_nat <$> us) ++ v :: rest.

(** Where the inner loop of centre [c] stands before robot [j] is tried:
    the centre holds nothing and [min_dist] is still [np.inf], or it holds a
    free robot below [j] at distance [min_dist]; no free robot below [j] is
    nearer than [min_dist]. *)
Definition inner_inv (d_mat : list (list float)) (c : nat) (us : list nat)
    (j : nat) (least : float) (v : Z) : Prop :=
  ((v = (-1)%Z ∧ least = infinity) ∨
   ∃ u, v = Z.of_nat u ∧ u < j ∧ (u ∉ us) ∧ cell d_mat c u = Some least) ∧
  ∀ u' d', u' < j -> u' ∉ us -> cell d_mat c u' = Some d' -> (d' <? least)%float = false.

(** Where the outer loop stands before centre [c] has its turn: the earlier
    centres hold distinct robots [us], each the nearest of those that were
    free at its turn. *)
Definition outer_inv (d_mat : list (list float)) (k c : nat) (assigned : list Z) : Prop :=
  ∃ us, assigned = (Z.of_nat <$> us) ++ replicate (k - c) (-1)%Z ∧
    length us = c ∧ NoDup us ∧ (∀ u, u ∈ us -> u < k) ∧
    ∀ i u u' d d', us !! i = Some u -> u' < k -> u' ∉ take i us ->
      cell d_mat i u = Some d -> cell d_mat i u' = Some d' -> (d' <? d)%float = false.

(** A float in the kernel's specification format that is finite and below
    zero, as the sentinel [-1.0] is. *)
Definition negative_finite (f : spec_float) : bool :=
  match f with
  | S754_finite true _ _ => true
  | _ => false
  end.

(** ** Scenarios

    Concrete sessions used to run the model: viewpoints in the plane
    [z = 0] with heading 0, and stand-ins for the external collaborators. *)

Definition viewpoint_at (i : nat) (px py : float) : Viewpoint :=
  mkViewpoint i (Pose4 px py 0 0).

(** The sequencing solver answering with the viewpoints in index order,
    without any anchor entry. *)
Definition lkh_in_order (m : list (list float)) : list (option nat) :=
  Some <$> seq 0 (length m).

(** No grid planner at hand. *)
Definition no_astar (_ : nat) (_ _ : Pose) : option (list Pose) * float :=
  (None, infinity).

(** A sampling planner that goes around the obstacle through [(4, 3)]:
    two legs of length 5. *)
Definition detour (_ : nat) (_ : bool) (p q : Pose) : option (list Pose) * float :=
  (Some [p; Pose4 4 3 0 0; q], 10%float).

Definition rrtstar_config : option PathPlanner :=
  Some (mkPathPlanner "rrtstar" "rrtstar"
          ["safety_distance"; "timeout"; "straighten"; "obstacles_kdtree"; "bounds"]).

(** What a run leaves behind, for the runs below that are known to succeed. *)
Definition tour_of (r : result (list Pose * session)) : list Pose :=
  match r with
  | Ok (tour, _) => tour
  | Err _ => []
  end.

Definition session_of (r : result (list Pose * session)) : session :=
  match r with
  | Ok (_, st) => st
  | Err _ => init_session 0
  end.

Definition built (r : result session) : session :=
  match r with
  | Ok st => st
  | Err _ => init_session 0
  end.

(** Scenario A: the corners of a 10 x 10 square, nothing in the way, no
    planner configured. *)
Definition square_corners : list Viewpoint :=
  [viewpoint_at 0 0 0; viewpoint_at 1 10 0; viewpoint_at 2 10 10; viewpoint_at 3 0 10].

Definition clear_sight (_ : option PathPlanner) (_ _ : Pose) : bool := true.

Definition square_matrix : list (list float) :=
  [[0; 10; sqrt 200; 10];
   [10; 0; 10; sqrt 200];
   [sqrt 200; 10; 0; 10];
   [10; sqrt 200; 10; 0]]%float.

(** Scenario B: two viewpoints 8 apart with an obstacle between them. *)
Definition two_apart : list Viewpoint :=
  [viewpoint_at 0 0 0; viewpoint_at 1 8 0].

Definition blocked (_ : option PathPlanner) (_ _ : Pose) : bool := false.

(** Scenario B, run to its end, and as the double loop leaves it. *)
Definition detour_run : result (list Pose * session) :=
  plan_tour blocked no_astar detour lkh_in_order two_apart rrtstar_config.

Definition detour_built : session :=
  built (build_matrix blocked no_astar detour two_apart rrtstar_config (init_session 2)).

(** Three viewpoints, a wall along the x axis between the first and the
    last: only segments with both ends on the axis are blocked. *)
Definition triangle : list Viewpoint :=
  [viewpoint_at 0 0 0; viewpoint_at 1 4 3; viewpoint_at 2 8 0].

Definition wall_on_axis (_ : option PathPlanner) (p q : Pose) : bool :=
  negb ((y (point p) =? 0)%float && (y (point q) =? 0)%float).

(** Cost of a closed visiting order in a matrix, and length of a path: what
    "the length of the tour" means in scenario A. *)
Definition order_cost (m : list (list float)) (sequence : list (option nat)) : float :=
  let n := length sequence in
  fold_left
    (fun acc a =>
       match sequence !! a, sequence !! ((a + 1) mod n) with
       | Some (Some i), Some (Some j) => (acc + default infinity (cell m i j))%float
       | _, _ => infinity
       end)
    (seq 0 n) 0%float.

Fixpoint path_length (path : list Pose) : float :=
  match path with
  | p :: (q :: _) as rest => (distEuclidean p q + path_length rest)%float
  | _ => 0%float
  end.

(** A visiting order of all [n] viewpoints that no other one beats. *)
Definition optimal_order (m : list (list float)) (sequence : list (option nat)) : Prop :=
  sequence ≡ₚ (Some <$> seq 0 (length m)) ∧
  ∀ other, other ≡ₚ (Some <$> seq 0 (length m)) ->
    (order_cost m sequence <=? order_cost m other)%float = true.

(** Every step of a path has the given length. *)
Fixpoint steps_of_length (d : float) (path : list Pose) : bool :=
  match path with
  | p :: (q :: _) as rest => (distEuclidean p q =? d)%float && steps_of_length d rest
  | _ => true
  end.

(** Scenario C: every cluster centre is nearest to robot 0. *)
Definition crowded_matrix : list (list float) :=
  [[1; 2; 3]; [1; 5; 6]; [1; 2; 9]]%float.

(** [np.argmin(row)]: the first index of the least entry. *)
Definition argmin (row : list float) : nat :=
  (fold_left
     (fun acc d =>
        let '(i, best, best_d) := acc in
        if (d <? best_d)%float then (S i, i, d) else (S i, best, best_d))
     row (0, 0, infinity)).1.2.

(** ** [setup], lines 47-52: the bounds of the environment *)

(** [Bounds(point_min, point_max)] (from [utils]), as [setup] builds it:
    a pair of corner points. *)
Record Bounds := mkBounds { point_min : Point; point_max : Point }.

(** Python's [min(xs)] on floats: the first item, replaced by each later
    item that compares below the one kept so far; [None] stands for the
    [ValueError] raised on an empty list. *)
Definition py_min (xs : list float) : option float :=
  match xs with
  | [] => None
  | v :: rest => Some (fold_left (fun m v => if (v <? m)%float then v else m) rest v)
  end.

(** Python's [max(xs)]: a later item replaces the one kept when it
    compares above it. *)
Definition py_max (xs : list float) : option float :=
  match xs with
  | [] => None
  | v :: rest => Some (fold_left (fun m v => if (m <? v)%float then v else m) rest v)
  end.

(** Lines 48-52: [path_planner['bounds']], from the corner points of the
    safety area and the height limits of the problem. *)
Definition environment_bounds (safety_area : list Point) (min_height max_height : float)
    : option Bounds :=
  x_min ← py_min (x <$> safety_area);
  x_max ← py_max (x <$> safety_area);
  y_min ← py_min (y <$> safety_area);
  y_max ← py_max (y <$> safety_area);
  Some (mkBounds (mkPoint x_min y_min min_height) (mkPoint x_max y_max max_height)).

(** A point lies within bounds in the plane. *)
Definition within_bounds (b : Bounds) (p : Point) : Prop :=
  (x (point_min b) <=? x p)%float = true ∧ (x p <=? x (point_max b))%float = true ∧
  (y (point_min b) <=? y p)%float = true ∧ (y p <=? y (point_max b))%float = true.

(** ** Vocabulary of the statements: planner calls and the registry of
    deferred pairs *)

(** A call of the configured planner from viewpoint [ab.1] to viewpoint
    [ab.2]. *)
Definition call_between (viewpoints : list Viewpoint) (path_planner : option PathPlanner)
    (ab : nat * nat) (c : call) : Prop :=
  ∃ va vb cfg, viewpoints !! ab.1 = Some va ∧ viewpoints !! ab.2 = Some vb ∧
    path_planner = Some cfg ∧ path_planning_method cfg ≠ "euclidean"%string ∧
    c = mkCall (path_planning_method cfg) (pose va) (pose vb).

(** A pair the double loop of [plan_tour] hands to the planner: no line of
    sight, and a straight distance that is not above the threshold. *)
Definition near_blocked (check_line_of_sight : option PathPlanner -> Pose -> Pose -> bool)
    (viewpoints : list Viewpoint) (path_planner : option PathPlanner) (ab : nat * nat) : Prop :=
  ∃ va vb, ab.1 ≠ ab.2 ∧ viewpoints !! ab.1 = Some va ∧ viewpoints !! ab.2 = Some vb ∧
    check_line_of_sight path_planner (pose va) (pose vb) = false ∧
    (DIST_THRESHOLD <? distEuclidean (pose va) (pose vb))%float = false.

(** The registry of deferred pairs: [tooFarAwayPairs] lists the keys of
    [tooFarAwayDistances]; an entry holds the straight distance [d] of a
    pair without line of sight, above the threshold, the same in both
    orders, and the matrix holds [3 * d] for it. *)
Record registry_inv (check_line_of_sight : option PathPlanner -> Pose -> Pose -> bool)
    (viewpoints : list Viewpoint) (path_planner : option PathPlanner) (st : session) : Prop := {
  reg_keys : ∀ a b, (a, b) ∈ tooFarAwayPairs st <-> is_Some (tooFarAwayDistances st !! (a, b));
  reg_entry : ∀ a b d, tooFarAwayDistances st !! (a, b) = Some d ->
    a ≠ b ∧ tooFarAwayDistances st !! (b, a) = Some d ∧
    (DIST_THRESHOLD <? d)%float = true ∧
    cell (distances st) a b = Some (d * 3)%float ∧
    ∃ va vb, viewpoints !! a = Some va ∧ viewpoints !! b = Some vb ∧
      ((d = distEuclidean (pose va) (pose vb) ∧
        check_line_of_sight path_planner (pose va) (pose vb) = false) ∨
       (d = distEuclidean (pose vb) (pose va) ∧
        check_line_of_sight path_planner (pose vb) (pose va) = false))
}.

(** The pairs [(a, b)] with [a < b < n]: one for each unordered pair of
    viewpoints. *)
Fixpoint upper_pairs (n : nat) : list (nat * nat) :=
  match n with
  | 0 => []
  | S m => upper_pairs m ++ ((fun a => (a, m)) <$> seq 0 m)
  end.

(** The edges [(sequence[i-1], sequence[i])] of a visiting order, the
    wrap-around edge apart, that are registered as deferred: the pairs the
    resolving loop of [compute_tsp_tour] hands to the planner. *)
Definition deferred_edge (st : session) (sequence : list (option nat)) (i : nat)
    : option (nat * nat) :=
  a ← sequence !! (i - 1); b ← sequence !! i; deferred st a b.

Definition deferred_edges (st : session) (sequence : list (option nat)) : list (nat * nat) :=
  omap (deferred_edge st sequence) (seq 1 (length sequence - 1)).

(** A path one of the planners has returned for the way from [p] to [q]. *)
Definition planner_path (astar_generatePath : nat -> Pose -> Pose -> option (list Pose) * float)
    (rrt_generatePath : nat -> bool -> Pose -> Pose -> option (list Pose) * float)
    (p q : Pose) (path : list Pose) : Prop :=
  ∃ i d, astar_generatePath i p q = (Some path, d) ∨
    ∃ star, rrt_generatePath i star p q = (Some path, d).

(** The pair [ab] holds a path a planner has returned for it. *)
Definition holds_planner_path
    (astar_generatePath : nat -> Pose -> Pose -> option (list Pose) * float)
    (rrt_generatePath : nat -> bool -> Pose -> Pose -> option (list Pose) * float)
    (viewpoints : list Viewpoint) (st : session) (ab : nat * nat) : Prop :=
  ∃ va vb path, viewpoints !! ab.1 = Some va ∧ viewpoints !! ab.2 = Some vb ∧
    paths st !! ab = Some path ∧ path ≠ [] ∧
    planner_path astar_generatePath rrt_generatePath (pose va) (pose vb) path.

(** Every stored path runs from the viewpoint it leaves to the viewpoint
    it leads to, with at least two poses; [R] says how a pose of the path
    stands for the pose of a viewpoint (it is that pose, or a pose at the
    same position). *)
Definition paths_join (R : relation Pose) (viewpoints : list Viewpoint) (st : session)
    : Prop :=
  ∀ a b path, paths st !! (a, b) = Some path ->
    ∃ va vb first mid last, viewpoints !! a = Some va ∧ viewpoints !! b = Some vb ∧
      path = first :: mid ++ [last] ∧ R first (pose va) ∧ R last (pose vb).

(** The planners always find a path. *)
Definition planners_find
    (astar_generatePath : nat -> Pose -> Pose -> option (list Pose) * float)
    (rrt_generatePath : nat -> bool -> Pose -> Pose -> option (list Pose) * float) : Prop :=
  (∀ i p q, ∃ path d, astar_generatePath i p q = (Some path, d) ∧ path ≠ []) ∧
  (∀ i star p q, ∃ path d, rrt_generatePath i star p q = (Some path, d) ∧ path ≠ []).

(** The keys [compute_path] reads from the dictionary to build the planner
    of a method (lines 200 and 209). *)
Definition keys_read (method : string) : list string :=
  if String.eqb method "astar" then ["grid"; "safety_distance"; "timeout"; "straighten"]%string
  else if String.prefix "rrt" method then ["straighten"]%string
  else [].

(** What holds of the stored paths all along the double loop of
    [plan_tour], whatever lengths the planners return: a cell that no longer
    reads as unset has its path. *)
Definition stored_inv (n : nat) (st : session) : Prop :=
  is_square n (distances st) ∧
  ∀ a b d, a ≠ b -> cell (distances st) a b = Some d -> (d =? UNSET)%float = false ->
    is_Some (paths st !! (a, b)).

(** ** Vocabulary of the statements: clusters *)

(** The viewpoints whose label is [r], in the order of the list. *)
Definition labelled (viewpoints : list Viewpoint) (labels : list Z) (r : nat)
    : list Viewpoint :=
  snd <$> filter (fun lv => lv.1 = Z.of_nat r) (zip labels viewpoints).

(** An entry of [assigned_clusters] is the initial [-1] or a robot of
    [0 .. k-1] that is at a finite distance from the centre. *)
Definition within_reach (d_mat : list (list float)) (k c : nat) (v : Z) : Prop :=
  v = (-1)%Z ∨
  ∃ u d, v = Z.of_nat u ∧ u < k ∧ cell d_mat c u = Some d ∧ (d <? infinity)%float = true.

(** ** More scenarios *)

(** Scenario D: two viewpoints 4 apart with an obstacle between them, near
    enough to be planned at once. *)
Definition two_near : list Viewpoint :=
  [viewpoint_at 0 0 0; viewpoint_at 1 4 0].

Definition near_built : session :=
  built (build_matrix blocked no_astar detour two_near rrtstar_config (init_session 2)).

(** Scenario B as its double loop leaves it, and as [compute_tsp_tour]
    takes it up. *)
Definition detour_resolved : result (list Pose * session) :=
  compute_tsp_tour no_astar detour lkh_in_order two_apart rrtstar_config detour_built.

(** The sequencing solver answering, for the three viewpoints of the
    triangle, with the tour that begins at the last one. *)
Definition lkh_from_last (_ : list (list float)) : list (option nat) :=
  [Some 2; Some 0; Some 1].

(** A sampling planner that does not keep the contract of a planner: its
    path begins away from its start. *)
Definition stray (_ : nat) (_ : bool) (_ q : Pose) : option (list Pose) * float :=
  (Some [Pose4 1 1 0 0; q], 5%float).

(** A grid planner that answers with the straight segment. *)
Definition straight_astar (_ : nat) (p q : Pose) : option (list Pose) * float :=
  (Some [p; q], distEuclidean p q).

(** Scenario E: two robots for the corners of the square of scenario A.
    Draws that go round the robots; a K-means stand-in that puts the two
    lower corners with the first centre and the two upper ones with the
    second; distances between points. *)
Definition round_robin (i hi : nat) : nat := i mod (S hi).

Definition two_robots : InspectionProblem :=
  mkProblem 2 [mkPoint 0 10 0; mkPoint 0 0 0].

Definition lower_upper (_ : nat) (_ : list Point) : list Point * list nat :=
  ([mkPoint 5 0 0; mkPoint 5 10 0], [0; 0; 1; 1]).

Definition point_distances (ps qs : list Point) : list (list float) :=
  (fun p => (fun q => distEuclidean (mkPose p 0) (mkPose q 0)) <$> qs) <$> ps.

(** The safety area of scenario A: the square itself. *)
Definition square_area : list Point :=
  [mkPoint 0 0 0; mkPoint 10 0 0; mkPoint 10 10 0; mkPoint 0 10 0].


(** ** Tactics *)

(** Case analysis on the comparisons of exponents and mantissas a float
    comparison is made of. *)
Ltac compare_cases :=
  repeat match goal with
    | H : context [Z.compare ?a ?b] |- _ => destruct (Z.compare_spec a b); simpl in H
    | H : context [Pos.compare_cont Eq ?a ?b] |- _ =>
        change (Pos.compare_cont Eq a b) with (Pos.compare a b) in H;
        destruct (Pos.compare_spec a b); simpl in H
    | |- context [Z.compare ?a ?b] => destruct (Z.compare_spec a b); simpl
    | |- context [Pos.compare_cont Eq ?a ?b] =>
        change (Pos.compare_cont Eq a b) with (Pos.compare a b);
        destruct (Pos.compare_spec a b); simpl
    end.

(** One visiting order of scenario A: it is beaten by the order
    [[0, 1, 2, 3]], or the tour it gives is computed. *)
Ltac square_order Hopt Heq :=
  first
    [ exfalso;
      specialize (Hopt (Some <$> seq 0 4) (reflexivity _));
      rewrite Heq in Hopt; vm_compute in Hopt; discriminate Hopt
    | rewrite Heq; eexists _, _; split; [vm_compute; reflexivity|];
      vm_compute; repeat split; reflexivity ].

(** Two float literals are told apart by comparing them. *)
Ltac float_neq H :=
  match type of H with
  | Some ?a = Some ?b =>
      apply (f_equal (fun o => match o with Some v => PrimFloat.eqb v b | None => false end)) in H;
      vm_compute in H; discriminate H
  | ?a = ?b => apply (f_equal (fun v => PrimFloat.eqb v b)) in H; vm_compute in H; discriminate H
  end.

(** * Properties *)

(** ** Matrices *)

Lemma cell_Some_lt n m a b d :
  is_square n m -> cell m a b = Some d -> a < n ∧ b < n.
Proof.
  intros [Hlen Hrows] Hc. unfold cell in Hc.
  destruct (m !! a) as [row|] eqn:Hrow; simpl in Hc; [|done].
  split.
  - apply lookup_lt_Some in Hrow. lia.
  - apply lookup_lt_Some in Hc.
    rewrite Forall_lookup in Hrows. specialize (Hrows _ _ Hrow). simpl in Hrows. lia.
Qed.

Lemma cell_lt_Some n m a b :
  is_square n m -> a < n -> b < n -> is_Some (cell m a b).
Proof.
  intros [Hlen Hrows] Ha Hb. unfold cell.
  destruct (lookup_lt_is_Some_2 m a) as [row Hrow]; [lia|].
  rewrite Hrow. simpl. apply lookup_lt_is_Some_2.
  rewrite Forall_lookup in Hrows. specialize (Hrows _ _ Hrow). simpl in Hrows. lia.
Qed.

Lemma set_cell_square n m a b d :
  is_square n m -> is_square n (set_cell a b d m).
Proof.
  intros [Hlen Hrows]. unfold set_cell.
  destruct (m !! a) as [row|] eqn:Hrow; [|done].
  split; [by rewrite length_insert|].
  apply Forall_insert; [done|].
  rewrite length_insert.
  rewrite Forall_lookup in Hrows. exact (Hrows _ _ Hrow).
Qed.

Lemma cell_set_cell_eq n m a b d :
  is_square n m -> a < n -> b < n -> cell (set_cell a b d m) a b = Some d.
Proof.
  intros [Hlen Hrows] Ha Hb. unfold set_cell, cell.
  destruct (lookup_lt_is_Some_2 m a) as [row Hrow]; [lia|].
  rewrite Hrow. rewrite list_lookup_insert_eq by lia. simpl.
  apply list_lookup_insert_eq.
  rewrite Forall_lookup in Hrows. specialize (Hrows _ _ Hrow). simpl in Hrows. lia.
Qed.

Lemma cell_set_cell_ne m a b a' b' d :
  (a, b) ≠ (a', b') -> cell (set_cell a b d m) a' b' = cell m a' b'.
Proof.
  intros Hne. unfold set_cell, cell.
  destruct (m !! a) as [row|] eqn:Hrow; [|done].
  destruct (decide (a = a')) as [->|Ha].
  - rewrite Hrow. rewrite list_lookup_insert_eq by (by eapply lookup_lt_Some).
    simpl. apply list_lookup_insert_ne. congruence.
  - by rewrite list_lookup_insert_ne.
Qed.

Lemma full_square n v : is_square n (full n v).
Proof.
  split; [apply length_replicate|].
  apply Forall_replicate. apply length_replicate.
Qed.

Lemma cell_full n v a b : a < n -> b < n -> cell (full n v) a b = Some v.
Proof.
  intros Ha Hb. unfold cell, full.
  rewrite lookup_replicate_2 by done. simpl. by apply lookup_replicate_2.
Qed.

Lemma fold_set_diag_square n v l m :
  is_square n m -> is_square n (fold_left (fun acc i => set_cell i i v acc) l m).
Proof.
  revert m. induction l as [|i l IH]; intros m Hm; simpl; [done|].
  apply IH. by apply set_cell_square.
Qed.

Lemma cell_fold_set_diag n v l m a b :
  is_square n m -> a < n -> b < n ->
  cell (fold_left (fun acc i => set_cell i i v acc) l m) a b =
    if bool_decide (a = b ∧ a ∈ l) then Some v else cell m a b.
Proof.
  revert m. induction l as [|i l IH]; intros m Hm Ha Hb; simpl.
  - rewrite bool_decide_eq_false_2; [done|]. intros [_ H]. by apply elem_of_nil in H.
  - rewrite IH by (by try apply set_cell_square).
    destruct (decide (a = b ∧ a ∈ l)) as [[-> Hin]|Hn].
    + rewrite !bool_decide_eq_true_2; [done| |done]. split; [done|]. by right.
    + rewrite (bool_decide_eq_false_2 _ Hn).
      destruct (decide (a = b ∧ a = i)) as [[-> ->]|Hn'].
      * rewrite bool_decide_eq_true_2 by (split; [done|by left]).
        by eapply cell_set_cell_eq.
      * rewrite cell_set_cell_ne by (intros [= -> ->]; by apply Hn').
        rewrite bool_decide_eq_false_2; [done|].
        intros [-> [->|Hin]%elem_of_cons]; [by apply Hn'|by apply Hn].
Qed.

Lemma init_distances_square n : is_square n (fill_diagonal 0%float (full n UNSET)).
Proof. unfold fill_diagonal. apply fold_set_diag_square, full_square. Qed.

Lemma cell_init_distances n a b :
  a < n -> b < n ->
  cell (fill_diagonal 0%float (full n UNSET)) a b = Some (if decide (a = b) then 0%float else UNSET).
Proof.
  intros Ha Hb. unfold fill_diagonal.
  rewrite (cell_fold_set_diag n) by (done || apply full_square).
  rewrite cell_full by done.
  destruct (decide (a = b)) as [->|Hne].
  - rewrite bool_decide_eq_true_2; [done|]. split; [done|].
    unfold full. rewrite length_replicate. apply elem_of_seq. lia.
  - rewrite bool_decide_eq_false_2; [done|]. by intros [? _].
Qed.

Lemma cell_store n m a b d a' b' :
  is_square n m -> a < n -> b < n ->
  cell (set_cell b a d (set_cell a b d m)) a' b' =
    if bool_decide ((a', b') = (a, b) ∨ (a', b') = (b, a)) then Some d else cell m a' b'.
Proof.
  intros Hm Ha Hb.
  destruct (decide ((a', b') = (b, a))) as [[= -> ->]|Hba].
  - rewrite bool_decide_eq_true_2 by (by right).
    eapply cell_set_cell_eq; [by apply set_cell_square|done..].
  - rewrite cell_set_cell_ne by done.
    destruct (decide ((a', b') = (a, b))) as [[= -> ->]|Hab].
    + rewrite bool_decide_eq_true_2 by (by left). by eapply cell_set_cell_eq.
    + rewrite cell_set_cell_ne by done.
      rewrite bool_decide_eq_false_2; [done|]. by intros [?|?].
Qed.

Lemma store_square n m a b d :
  is_square n m -> is_square n (set_cell b a d (set_cell a b d m)).
Proof. intros. by do 2 apply set_cell_square. Qed.

Lemma store_symmetric n m a b d :
  is_square n m -> a < n -> b < n -> symmetric m ->
  symmetric (set_cell b a d (set_cell a b d m)).
Proof.
  intros Hm Ha Hb Hsym a' b'.
  rewrite !(cell_store n) by done.
  destruct (decide ((a', b') = (a, b) ∨ (a', b') = (b, a))) as [H|H].
  - rewrite !bool_decide_eq_true_2; [done| |done].
    destruct H as [[= -> ->]|[= -> ->]]; [by right|by left].
  - rewrite !bool_decide_eq_false_2; [apply Hsym| |done].
    intros [[= -> ->]|[= -> ->]]; apply H; [by right|by left].
Qed.

Lemma store_zero_diagonal n m a b d :
  is_square n m -> a < n -> b < n -> a ≠ b -> zero_diagonal m ->
  zero_diagonal (set_cell b a d (set_cell a b d m)).
Proof.
  intros Hm Ha Hb Hne Hz c Hc.
  rewrite (cell_store n) by done.
  rewrite bool_decide_eq_false_2.
  - apply Hz. destruct (store_square n m a b d Hm) as [Hl _]. destruct Hm. lia.
  - intros [[= -> ->]|[= -> ->]]; by apply Hne.
Qed.

Lemma with_calls_same st : with_calls (planner_calls st) st = st.
Proof. by destruct st. Qed.

Lemma init_matrix_ok n : matrix_ok n (fill_diagonal 0%float (full n UNSET)).
Proof.
  pose proof (init_distances_square n) as Hsq.
  split; [done|]. split.
  - intros a b.
    destruct (decide (a < n ∧ b < n)) as [[Ha Hb]|Hout].
    + rewrite !cell_init_distances by done.
      destruct (decide (a = b)), (decide (b = a)); congruence.
    + destruct (cell _ a b) as [d|] eqn:Hab.
      { apply (cell_Some_lt n) in Hab; [lia|done]. }
      destruct (cell _ b a) as [d|] eqn:Hba; [|done].
      apply (cell_Some_lt n) in Hba; [lia|done].
  - intros a Ha. destruct Hsq as [Hl ?]. rewrite Hl in Ha.
    rewrite cell_init_distances by done. by rewrite decide_True.
Qed.

Lemma store_matrix_ok n m a b d :
  a < n -> b < n -> a ≠ b -> matrix_ok n m ->
  matrix_ok n (set_cell b a d (set_cell a b d m)).
Proof.
  intros Ha Hb Hne (Hsq & Hsym & Hz). split; [by apply store_square|].
  split; [by eapply store_symmetric|by eapply store_zero_diagonal].
Qed.

(** ** Loops *)

Lemma bind_Ok {A B} (r : result A) (k : A -> result B) b :
  r ≫= k = Ok b -> ∃ a, r = Ok a ∧ k a = Ok b.
Proof. destruct r as [a|e]; simpl; [by exists a|done]. Qed.

Lemma foldM_cons_Ok {A S} (body : A -> S -> result S) x l s s' :
  foldM body (x :: l) s = Ok s' -> ∃ s1, body x s = Ok s1 ∧ foldM body l s1 = Ok s'.
Proof. simpl. apply bind_Ok. Qed.

Lemma foldM_app {A S} (body : A -> S -> result S) l1 l2 s :
  foldM body (l1 ++ l2) s = foldM body l1 s ≫= foldM body l2.
Proof.
  revert s. induction l1 as [|x l1 IH]; intros s; simpl; [done|].
  destruct (body x s) as [s1|e]; simpl; [apply IH|done].
Qed.

(** A loop whose iterations are all made of steps of [R] is made of steps
    of [R]. *)
Lemma foldM_rtc {A S} (R : relation S) (body : A -> S -> result S) l s s' :
  (∀ x s1 s2, x ∈ l -> body x s1 = Ok s2 -> rtc R s1 s2) ->
  foldM body l s = Ok s' -> rtc R s s'.
Proof.
  revert s. induction l as [|x l IH]; intros s Hbody.
  - intros [= <-]. apply rtc_refl.
  - intros (s1 & Hx & Hl)%foldM_cons_Ok.
    etrans; [eapply Hbody; [by left|done]|].
    apply IH; [|done]. intros y s2 s3 Hy. apply Hbody. by right.
Qed.

(** An invariant of the iterations is an invariant of the loop; what an
    iteration establishes for its own index, and no later iteration
    destroys, holds for every index once the loop is over. *)
Lemma foldM_establish {A S} (Inv : S -> Prop) (Q : A -> S -> Prop)
    (body : A -> S -> result S) l s s' :
  (∀ x s1 s2, x ∈ l -> Inv s1 -> body x s1 = Ok s2 -> Inv s2 ∧ Q x s2) ->
  (∀ x y s1 s2, y ∈ l -> Inv s1 -> Q x s1 -> body y s1 = Ok s2 -> Q x s2) ->
  Inv s -> foldM body l s = Ok s' ->
  Inv s' ∧ ∀ x, x ∈ l -> Q x s'.
Proof.
  intros Hest Hkeep. revert s.
  assert (∀ l' s, l' ⊆ l -> Inv s -> foldM body l' s = Ok s' ->
            Inv s' ∧ (∀ x, Q x s -> Q x s') ∧ ∀ x, x ∈ l' -> Q x s') as Hgen.
  { induction l' as [|y l' IH]; intros s Hsub Hinv.
    - intros [= <-]. split; [done|]. split; [done|]. intros x Hx. by apply elem_of_nil in Hx.
    - intros (s1 & Hy & Hl)%foldM_cons_Ok.
      assert (y ∈ l) as Hyl by (apply Hsub; by left).
      destruct (Hest y s s1 Hyl Hinv Hy) as [Hinv1 HQ1].
      destruct (IH s1) as (Hinv' & Hmono & Hall); [|done..|].
      { intros x Hx. apply Hsub. by right. }
      split; [done|]. split.
      + intros x Hx. apply Hmono. by apply (Hkeep x y s s1).
      + intros x [->|Hx]%elem_of_cons; [by apply Hmono|by apply Hall]. }
  intros s Hinv Hfold. destruct (Hgen l s) as (? & _ & ?); done.
Qed.

Lemma foldM_invariant {A S} (Inv : S -> Prop) (body : A -> S -> result S) l s s' :
  (∀ x s1 s2, x ∈ l -> Inv s1 -> body x s1 = Ok s2 -> Inv s2) ->
  Inv s -> foldM body l s = Ok s' -> Inv s'.
Proof.
  intros Hstep Hinv Hfold.
  destruct (foldM_establish Inv (fun _ _ => True) body l s s') as [? _]; try done.
  intros x s1 s2 Hx H1 H2. split; [by eapply Hstep|done].
Qed.

(** A loop over a range, with an invariant that knows how far the loop
    has come. *)
Lemma foldM_seq_inv {S} (P : nat -> S -> Prop) (body : nat -> S -> result S) len lo s s' :
  (∀ i s1 s2, lo <= i < lo + len -> P i s1 -> body i s1 = Ok s2 -> P (Datatypes.S i) s2) ->
  P lo s -> foldM body (seq lo len) s = Ok s' -> P (lo + len) s'.
Proof.
  revert lo s. induction len as [|len IH]; intros lo s Hstep Hinv.
  - intros [= <-]. by rewrite Nat.add_0_r.
  - intros (s1 & Hbody & Hrest)%foldM_cons_Ok.
    replace (lo + Datatypes.S len) with (Datatypes.S lo + len) by lia.
    apply (IH (Datatypes.S lo) s1); [|apply (Hstep lo s s1); [lia|done..]|done].
    intros i s2 s3 Hi. apply Hstep. lia.
Qed.

(** A loop over a range runs to its end when each iteration does, from
    any state the loop can be in. *)
Lemma foldM_seq_Ok {S} (P : nat -> S -> Prop) (body : nat -> S -> result S) len lo s :
  (∀ i s1, lo <= i < lo + len -> P i s1 -> ∃ s2, body i s1 = Ok s2 ∧ P (Datatypes.S i) s2) ->
  P lo s -> ∃ s', foldM body (seq lo len) s = Ok s' ∧ P (lo + len) s'.
Proof.
  revert lo s. induction len as [|len IH]; intros lo s Hstep Hinv.
  - exists s. split; [done|]. by rewrite Nat.add_0_r.
  - destruct (Hstep lo s) as (s1 & Hbody & Hinv1); [lia|done|].
    destruct (IH (Datatypes.S lo) s1) as (s' & Hrest & Hinv'); [|done|].
    { intros i s2 Hi. apply Hstep. lia. }
    exists s'. simpl. rewrite Hbody. simpl. split; [done|].
    by replace (lo + Datatypes.S len) with (Datatypes.S lo + len) by lia.
Qed.


(** ** Floats: what can never read as the sentinel *)

Lemma Prim2SF_UNSET : negative_finite (Prim2SF UNSET) = true.
Proof. reflexivity. Qed.

Lemma SFeqb_negative_finite f g :
  negative_finite g = true -> SFeqb f g = true -> negative_finite f = true.
Proof.
  destruct g as [| | |[] m e]; try done. intros _.
  destruct f as [[]|[]| |[] m' e']; done.
Qed.

Lemma binary_round_aux_sign prec emax s m e l :
  negative_finite (binary_round_aux prec emax s m e l) = true -> s = true.
Proof.
  unfold binary_round_aux.
  destruct (shr_fexp prec emax m e l) as [mrs e1].
  destruct (shr_fexp prec emax _ e1 loc_Exact) as [mrs' e2].
  destruct (shr_m mrs') as [|p|p]; try done.
  destruct (e2 <=? emax - prec)%Z; [|done].
  by destruct s.
Qed.

Lemma SFsqrt_not_negative prec emax f : negative_finite (SFsqrt prec emax f) = false.
Proof.
  destruct f as [[]|[]| |[] m e]; try done.
  unfold SFsqrt. destruct (SFsqrt_core_binary prec emax (Z.pos m) e) as [[mz ez] lz].
  destruct (negative_finite _) eqn:H; [|done].
  by apply binary_round_aux_sign in H.
Qed.

Lemma not_negative_not_UNSET (d : float) :
  negative_finite (Prim2SF d) = false -> (d =? UNSET)%float = false.
Proof.
  intros Hd. rewrite FloatAxioms.eqb_spec.
  destruct (SFeqb _ _) eqn:Heq; [|done].
  apply SFeqb_negative_finite in Heq; [congruence|apply Prim2SF_UNSET].
Qed.

Lemma sqrt_not_UNSET (v : float) : (sqrt v =? UNSET)%float = false.
Proof.
  apply not_negative_not_UNSET. rewrite FloatAxioms.sqrt_spec. apply SFsqrt_not_negative.
Qed.

Lemma distEuclidean_not_UNSET p q : (distEuclidean p q =? UNSET)%float = false.
Proof. apply sqrt_not_UNSET. Qed.

Lemma SFltb_positive m e g :
  SFltb (S754_finite false m e) g = true ->
  match g with
  | S754_infinity false | S754_finite false _ _ => True
  | _ => False
  end.
Proof. destruct g as [[]|[]| |[] m' e']; done. Qed.

Lemma penalty_not_UNSET (d : float) :
  (DIST_THRESHOLD <? d)%float = true -> (d * 3 =? UNSET)%float = false.
Proof.
  intros Hfar. apply not_negative_not_UNSET.
  rewrite FloatAxioms.ltb_spec in Hfar. rewrite FloatAxioms.mul_spec.
  change (Prim2SF DIST_THRESHOLD) with (S754_finite false 5629499534213120 (-50)) in Hfar.
  apply SFltb_positive in Hfar.
  change (Prim2SF 3) with (S754_finite false 6755399441055744 (-51)).
  destruct (Prim2SF d) as [[]|[]| |[] m e]; try done.
  unfold SF64mul, SFmul.
  destruct (negative_finite _) eqn:H; [|done].
  by apply binary_round_aux_sign in H.
Qed.

(** ** Floats: [<] is a strict order *)


Lemma SFltb_irrefl f : SFltb f f = false.
Proof.
  unfold SFltb. destruct f as [[]|[]| |[] m e]; simpl; try done;
    compare_cases; try done; lia.
Qed.

Lemma SFltb_trans f g h : SFltb f g = true -> SFltb g h = true -> SFltb f h = true.
Proof.
  unfold SFltb.
  destruct f as [[]|[]| |[] mf ef], g as [[]|[]| |[] mg eg], h as [[]|[]| |[] mh eh];
    simpl; try done; intros H1 H2; compare_cases; try done; try lia.
Qed.

Lemma ltb_irrefl (d : float) : (d <? d)%float = false.
Proof. rewrite FloatAxioms.ltb_spec. apply SFltb_irrefl. Qed.

Lemma ltb_trans (d1 d2 d3 : float) :
  (d1 <? d2)%float = true -> (d2 <? d3)%float = true -> (d1 <? d3)%float = true.
Proof. rewrite !FloatAxioms.ltb_spec. apply SFltb_trans. Qed.

(** Nothing below a new least value was at or above the old one. *)
Lemma not_below_new_least (d d' least : float) :
  (d <? least)%float = true -> (d' <? least)%float = false -> (d' <? d)%float = false.
Proof.
  intros Hd Hd'. destruct (d' <? d)%float eqn:H; [|done].
  by rewrite (ltb_trans _ _ _ H Hd) in Hd'.
Qed.

(** ** The invariant of the double loop *)

Lemma set_last_heading_segment g1 g2 :
  set_last_heading [g1; g2] (heading g2) = [g1; g2].
Proof. by destruct g2. Qed.

Lemma unset_not_set m a b d :
  unset_cell m a b -> cell m a b = Some d -> (d =? UNSET)%float = false -> False.
Proof. intros (d' & Hd' & Hu) Hd Hs. congruence. Qed.

Lemma init_build_inv los viewpoints pp :
  build_inv los viewpoints pp (init_session (length viewpoints)).
Proof.
  split; simpl.
  - apply init_matrix_ok.
  - intros a b d Hne Hcell Hset.
    pose proof (cell_Some_lt _ _ _ _ _ (init_distances_square _) Hcell) as [Ha Hb].
    rewrite cell_init_distances in Hcell by done.
    rewrite decide_False in Hcell by done. by injection Hcell as <-.
  - intros a b [p Hp]. by rewrite lookup_empty in Hp.
  - intros a b p Hp. by rewrite lookup_empty in Hp.
  - intros a b Hin. by apply elem_of_nil in Hin.
Qed.

(** Storing a freshly computed pair keeps the invariant of the loop. *)
Lemma build_inv_store los viewpoints pp st a b va vb path d pairs estimates calls :
  build_inv los viewpoints pp st ->
  a ≠ b -> viewpoints !! a = Some va -> viewpoints !! b = Some vb ->
  unset_cell (distances st) a b ->
  (d =? UNSET)%float = false ->
  pairs = tooFarAwayPairs st ∨
    (pairs = tooFarAwayPairs st ++ [(a, b); (b, a)] ∧ path = [pose va; pose vb] ∧
     los pp (pose va) (pose vb) = false) ->
  build_inv los viewpoints pp
    (store_pair a b (pose vb) path d
       (mkSession pairs estimates (distances st) (paths st) calls)).
Proof.
  intros [Hmat Hstored Hset Hrev Hdef] Hne Hva Hvb Hunset Hd Hpairs.
  pose proof (lookup_lt_Some _ _ _ Hva) as Ha.
  pose proof (lookup_lt_Some _ _ _ Hvb) as Hb.
  pose proof Hmat as (Hsq & _ & _).
  assert (paths st !! (a, b) = None) as Hab.
  { destruct (paths st !! (a, b)) as [p|] eqn:Hp; [|done].
    destruct (Hset a b) as (_ & d' & Hd' & Hs'); [done|].
    by destruct (unset_not_set _ _ _ _ Hunset Hd' Hs'). }
  assert (paths st !! (b, a) = None) as Hba.
  { destruct (paths st !! (b, a)) as [p|] eqn:Hp; [|done].
    apply Hrev in Hp. congruence. }
  set (path' := set_last_heading path (heading (pose vb))).
  assert (∀ k, k ≠ (a, b) -> k ≠ (b, a) ->
            (<[(b, a) := rev path']> (<[(a, b) := path']> (paths st))) !! k = paths st !! k)
    as Hother.
  { intros k H1 H2. by rewrite !lookup_insert_ne. }
  assert ((<[(b, a) := rev path']> (<[(a, b) := path']> (paths st))) !! (a, b) = Some path')
    as Hnew_ab.
  { rewrite lookup_insert_ne by congruence. apply lookup_insert_eq. }
  assert ((<[(b, a) := rev path']> (<[(a, b) := path']> (paths st))) !! (b, a)
            = Some (rev path')) as Hnew_ba by apply lookup_insert_eq.
  split; simpl; fold path'.
  - by apply store_matrix_ok.
  - intros a' b' d' Hne' Hcell Hs.
    rewrite (cell_store _ _ _ _ _ _ _ Hsq Ha Hb) in Hcell.
    case_bool_decide as Hk.
    + destruct Hk as [[= -> ->]|[= -> ->]]; [by rewrite Hnew_ab|by rewrite Hnew_ba].
    + rewrite Hother by tauto. by eapply Hstored.
  - intros a' b' Hsome.
    rewrite (cell_store _ _ _ _ _ _ _ Hsq Ha Hb).
    case_bool_decide as Hk.
    + split; [|by exists d]. destruct Hk as [[= -> ->]|[= -> ->]]; congruence.
    + rewrite Hother in Hsome by tauto. by apply Hset.
  - intros a' b' p Hp.
    destruct (decide ((a', b') = (a, b))) as [[= -> ->]|H1].
    { rewrite Hnew_ab in Hp. injection Hp as <-. done. }
    destruct (decide ((a', b') = (b, a))) as [[= -> ->]|H2].
    { rewrite Hnew_ba in Hp. injection Hp as <-. by rewrite rev_involutive. }
    rewrite Hother in Hp by done.
    rewrite Hother by congruence. by apply Hrev.
  - assert (∀ a' b', (a', b') ∈ tooFarAwayPairs st ->
              (b', a') ∈ tooFarAwayPairs st ∧
              ∃ va' vb', viewpoints !! a' = Some va' ∧ viewpoints !! b' = Some vb' ∧
                (<[(b, a) := rev path']> (<[(a, b) := path']> (paths st))) !! (a', b')
                  = Some [pose va'; pose vb'] ∧
                (los pp (pose va') (pose vb') = false ∨
                 los pp (pose vb') (pose va') = false)) as Hold.
    { intros a' b' Hin.
      destruct (Hdef a' b' Hin) as (Hin' & va' & vb' & Hva' & Hvb' & Hp & Hl).
      split; [done|]. exists va', vb'. split; [done|]. split; [done|]. split; [|done].
      rewrite Hother; [done|congruence..]. }
    destruct Hpairs as [->|(-> & -> & Hlos)]; [done|].
    intros a' b' [Hin|Hin]%elem_of_app.
    + destruct (Hold a' b' Hin) as [Hin' Hrest]. split; [|done].
      apply elem_of_app. by left.
    + subst path'. rewrite set_last_heading_segment in Hnew_ab, Hnew_ba.
      rewrite set_last_heading_segment.
      apply elem_of_cons in Hin as [Hin|Hin%list_elem_of_singleton];
        injection Hin as -> ->.
      * split; [|exists va, vb; auto].
        apply elem_of_app; right. apply elem_of_cons; right. by apply list_elem_of_singleton.
      * split; [|exists vb, va; auto].
        apply elem_of_app; right. apply elem_of_cons. by left.
Qed.

Lemma nonempty_path_Some o path : nonempty_path o = Some path -> o = Some path ∧ path ≠ [].
Proof. destruct o as [[|p l]|]; simpl; [done| |done]. by intros [= <-]. Qed.

(** ** The sequence adapter *)

Lemma first_None_absent (sequence : list (option nat)) i :
  None ∉ sequence -> first_None sequence i = None.
Proof.
  revert i. induction sequence as [|[a|] rest IH]; intros i Hno; simpl; [done| |].
  - apply IH. intros Hin. apply Hno. by right.
  - exfalso. apply Hno. by left.
Qed.

Lemma first_None_split (pre post : list (option nat)) i :
  None ∉ pre -> first_None (pre ++ None :: post) i = Some (i + length pre).
Proof.
  revert i. induction pre as [|[a|] pre IH]; intros i Hno; simpl.
  - f_equal. lia.
  - rewrite IH; [f_equal; lia|]. intros Hin. apply Hno. by right.
  - exfalso. apply Hno. by left.
Qed.

Lemma anchor_sequence_rotates (pre post : list (option nat)) :
  None ∉ pre -> anchor_sequence (pre ++ None :: post) = None :: post ++ pre.
Proof.
  intros Hno. destruct pre as [|[a|] pre].
  - simpl. by rewrite app_nil_r.
  - unfold anchor_sequence.
    change ((Some a :: pre) ++ None :: post) with (Some a :: (pre ++ None :: post)).
    change (Some a :: (pre ++ None :: post)) with ((Some a :: pre) ++ None :: post).
    rewrite (first_None_split (Some a :: pre) post 0 Hno).
    change (0 + length (Some a :: pre)) with (length (Some a :: pre)).
    by rewrite drop_app_length, take_app_length.
  - exfalso. apply Hno. by left.
Qed.

Lemma anchor_sequence_anchorless (sequence : list (option nat)) :
  None ∉ sequence -> anchor_sequence sequence = sequence.
Proof.
  intros Hno. unfold anchor_sequence.
  destruct sequence as [|[a|] rest]; [done| |done].
  by rewrite first_None_absent.
Qed.

(** ** Paths and their ends *)

Lemma set_last_heading_snoc (l : list Pose) p h :
  set_last_heading (l ++ [p]) h = l ++ [set_heading p h].
Proof.
  induction l as [|q l IH]; [done|].
  change ((q :: l) ++ [p]) with (q :: (l ++ [p])).
  change ((q :: l) ++ [set_heading p h]) with (q :: (l ++ [set_heading p h])).
  rewrite <- IH. simpl. by destruct (l ++ [p]) eqn:E; [destruct l|].
Qed.

Lemma set_heading_same_point p q : point p = point q -> set_heading p (heading q) = q.
Proof. destruct p, q. simpl. by intros ->. Qed.

Lemma joins_stored (R : relation Pose) p q path :
  joins R p q path ->
  ∃ first mid, set_last_heading path (heading q) = first :: mid ++ [q] ∧ R first p.
Proof.
  intros (first & mid & last & -> & Hfirst & Hpt). exists first, mid. split; [|done].
  change (first :: mid ++ [last]) with ((first :: mid) ++ [last]).
  rewrite set_last_heading_snoc. by rewrite set_heading_same_point.
Qed.

(** ** The solver *)

Section Solver.

Variable check_line_of_sight : option PathPlanner -> Pose -> Pose -> bool.
Variable astar_generatePath : nat -> Pose -> Pose -> option (list Pose) * float.
Variable rrt_generatePath : nat -> bool -> Pose -> Pose -> option (list Pose) * float.
Variable lkh : list (list float) -> list (option nat).

Local Abbreviation compute_path := (compute_path astar_generatePath rrt_generatePath).
Local Abbreviation plan_pair :=
  (plan_pair check_line_of_sight astar_generatePath rrt_generatePath).
Local Abbreviation pair_outcome :=
  (pair_outcome check_line_of_sight astar_generatePath rrt_generatePath).
Local Abbreviation build_matrix :=
  (build_matrix check_line_of_sight astar_generatePath rrt_generatePath).
Local Abbreviation resolve_pair := (resolve_pair astar_generatePath rrt_generatePath).
Local Abbreviation resolve_deferred := (resolve_deferred astar_generatePath rrt_generatePath).
Local Abbreviation tour_of_sequence := (tour_of_sequence astar_generatePath rrt_generatePath).
Local Abbreviation compute_tsp_tour :=
  (compute_tsp_tour astar_generatePath rrt_generatePath lkh).
Local Abbreviation plan_tour :=
  (plan_tour check_line_of_sight astar_generatePath rrt_generatePath lkh).
Local Abbreviation session_step :=
  (session_step check_line_of_sight astar_generatePath rrt_generatePath).
Local Abbreviation reachable :=
  (reachable check_line_of_sight astar_generatePath rrt_generatePath).

(** *** One iteration of the double loop, by cases *)

Lemma compute_path_euclidean calls p q pp :
  compute_path calls p q pp "euclidean" = Ok ([p; q], distEuclidean p q, calls).
Proof. unfold compute_path. by rewrite orb_true_r. Qed.


Lemma plan_pair_outcome viewpoints pp a b st st' :
  plan_pair viewpoints pp a b st = Ok st' -> pair_outcome viewpoints pp a b st st'.
Proof.
  unfold plan_pair.
  destruct (Nat.eqb_spec a b) as [->|Hne]; [intros [= <-]; constructor; by left|].
  destruct (cell (distances st) a b) as [d_ab|] eqn:Hcell; simpl; [|done].
  destruct (d_ab =? UNSET)%float eqn:Hunset; simpl;
    [|intros [= <-]; constructor; right; by exists d_ab].
  unfold pose_at.
  destruct (viewpoints !! a) as [va|] eqn:Hva; simpl; [|done].
  destruct (viewpoints !! b) as [vb|] eqn:Hvb; simpl; [|done].
  rewrite compute_path_euclidean. simpl. rewrite with_calls_same.
  assert (unset_cell (distances st) a b) as Hu by (by exists d_ab).
  destruct (check_line_of_sight pp (pose va) (pose vb)) eqn:Hlos.
  { intros [= <-]. by eapply outcome_line. }
  destruct (DIST_THRESHOLD <? _)%float eqn:Hfar.
  { intros [= <-]. by eapply outcome_deferred. }
  destruct pp as [cfg|]; simpl; [|done].
  destruct (compute_path _ _ _ _ _) as [[[path distance] calls]|] eqn:Hplan; simpl; [|done].
  intros [= <-]. by eapply outcome_planned.
Qed.

(** *** The matrix stays symmetric with a zero diagonal *)

Lemma pair_outcome_matrix_ok viewpoints pp a b st st' :
  pair_outcome viewpoints pp a b st st' ->
  matrix_ok (length viewpoints) (distances st) ->
  matrix_ok (length viewpoints) (distances st').
Proof.
  intros Hout Hok.
  destruct Hout as [_|va vb Hne Hva Hvb _ _|va vb Hne Hva Hvb _ _ _
                    |va vb cfg path distance calls Hne Hva Hvb _ _ _ _ _];
    [done|simpl..];
    apply lookup_lt_Some in Hva; apply lookup_lt_Some in Hvb;
    by apply store_matrix_ok.
Qed.

(** What one iteration of the resolving loop does. *)
Lemma resolve_pair_inv viewpoints pp sequence i st st' :
  resolve_pair viewpoints pp sequence i st = Ok st' ->
  st' = st ∨
  ∃ a b va vb cfg path distance calls,
    sequence !! (i - 1) = Some (Some a) ∧ sequence !! i = Some (Some b) ∧
    (a, b) ∈ tooFarAwayPairs st ∧
    viewpoints !! a = Some va ∧ viewpoints !! b = Some vb ∧ pp = Some cfg ∧
    compute_path (planner_calls st) (pose va) (pose vb) pp (path_planning_method cfg)
      = Ok (path, distance, calls) ∧
    st' = mkSession (tooFarAwayPairs st) (tooFarAwayDistances st) (distances st)
            (<[(a, b) := path]> (paths st)) calls.
Proof.
  unfold resolve_pair.
  destruct (sequence !! (i - 1)) as [oa|] eqn:Hoa; simpl; [|done].
  destruct (sequence !! i) as [ob|] eqn:Hob; simpl; [|done].
  unfold deferred.
  destruct oa as [a|]; [|intros [= <-]; by left].
  destruct ob as [b|]; [|intros [= <-]; by left].
  case_bool_decide as Hin; [|intros [= <-]; by left].
  unfold pose_at.
  destruct (viewpoints !! a) as [va|] eqn:Hva; simpl; [|done].
  destruct (viewpoints !! b) as [vb|] eqn:Hvb; simpl; [|done].
  destruct pp as [cfg|]; simpl; [|done].
  destruct (compute_path _ _ _ _ _) as [[[path distance] calls]|] eqn:Hplan; simpl; [|done].
  intros [= <-]. right. by exists a, b, va, vb, cfg, path, distance, calls.
Qed.

Lemma resolve_pair_distances viewpoints pp sequence i st st' :
  resolve_pair viewpoints pp sequence i st = Ok st' -> distances st' = distances st.
Proof.
  intros [->|(a & b & va & vb & cfg & path & d & calls & _ & _ & _ & _ & _ & _ & _ & ->)]%resolve_pair_inv;
    done.
Qed.

Lemma session_step_matrix_ok viewpoints pp st st' :
  session_step viewpoints pp st st' ->
  matrix_ok (length viewpoints) (distances st) ->
  matrix_ok (length viewpoints) (distances st').
Proof.
  intros [a b st1 st2 _ _ Hplan|sequence i st1 st2 Hres] Hok.
  - eapply pair_outcome_matrix_ok; [|done]. by apply plan_pair_outcome.
  - by rewrite (resolve_pair_distances _ _ _ _ _ _ Hres).
Qed.

Lemma reachable_matrix_ok viewpoints pp st :
  reachable viewpoints pp st -> matrix_ok (length viewpoints) (distances st).
Proof.
  intros Hreach. revert st Hreach. apply rtc_ind_r.
  - apply init_matrix_ok.
  - intros st1 st2 _ Hstep IH. by eapply session_step_matrix_ok.
Qed.

(** *** The sessions of [plan_tour] are reachable *)

Lemma build_matrix_steps viewpoints pp st st' :
  build_matrix viewpoints pp st = Ok st' -> rtc (session_step viewpoints pp) st st'.
Proof.
  unfold build_matrix, for_range. apply foldM_rtc.
  intros a s1 s2 Ha%elem_of_seq. apply foldM_rtc.
  intros b s3 s4 Hb%elem_of_seq Hplan. apply rtc_once.
  eapply step_plan_pair; [| |exact Hplan]; lia.
Qed.

Lemma resolve_deferred_steps viewpoints pp sequence st st' :
  resolve_deferred viewpoints pp sequence st = Ok st' ->
  rtc (session_step viewpoints pp) st st'.
Proof.
  unfold resolve_deferred, for_range. apply foldM_rtc.
  intros i s1 s2 _ Hres. apply rtc_once. by eapply step_resolve_pair.
Qed.

Lemma compute_tsp_tour_steps viewpoints pp st tour st' :
  compute_tsp_tour viewpoints pp st = Ok (tour, st') ->
  rtc (session_step viewpoints pp) st st'.
Proof.
  unfold compute_tsp_tour, tour_of_sequence.
  intros (st1 & Hres & (path & Hasm & [= <- <-])%bind_Ok)%bind_Ok.
  by eapply resolve_deferred_steps.
Qed.

Lemma build_matrix_reachable viewpoints pp st :
  build_matrix viewpoints pp (init_session (length viewpoints)) = Ok st ->
  reachable viewpoints pp st.
Proof. apply build_matrix_steps. Qed.

Lemma plan_tour_reachable viewpoints pp tour st :
  plan_tour viewpoints pp = Ok (tour, st) -> reachable viewpoints pp st.
Proof.
  unfold plan_tour.
  intros (_ & _ & (st1 & Hbuild & Htour)%bind_Ok)%bind_Ok.
  unfold reachable. etrans; [by apply build_matrix_steps|].
  by eapply compute_tsp_tour_steps.
Qed.

(** *** The double loop *)

(** The three ways [compute_path] returns. *)
Lemma compute_path_inv calls p q pp method path d calls' :
  compute_path calls p q pp method = Ok (path, d, calls') ->
  (path = [p; q] ∧ d = distEuclidean p q ∧ calls' = calls ∧
     (pp = None ∨ method = "euclidean"%string))
  ∨ (pp ≠ None ∧ method = "astar"%string ∧
     astar_generatePath (length calls) p q = (Some path, d) ∧ path ≠ [] ∧
     calls' = calls ++ [mkCall method p q])
  ∨ (pp ≠ None ∧ method ≠ "euclidean"%string ∧ method ≠ "astar"%string ∧
     String.prefix "rrt" method = true ∧
     rrt_generatePath (length calls) (String.eqb method "rrtstar") p q = (Some path, d) ∧
     path ≠ [] ∧ calls' = calls ++ [mkCall method p q]).
Proof.
  unfold compute_path.
  case_bool_decide as Hpp; simpl.
  { intros [= <- <- <-]. left. auto. }
  destruct (String.eqb_spec method "euclidean") as [->|Heu]; simpl.
  { intros [= <- <- <-]. left. auto. }
  destruct (String.eqb_spec method "astar") as [->|Has].
  { destruct (subscript pp _) as [[]|e]; simpl; [|done].
    destruct (astar_generatePath _ p q) as [o d0] eqn:Hplan. simpl.
    destruct (nonempty_path o) as [path0|] eqn:Hne; [|done].
    intros [= <- <- <-]. apply nonempty_path_Some in Hne as [-> Hne].
    right; left. auto. }
  destruct (String.prefix "rrt" method) eqn:Hrrt; [|done].
  destruct (subscript pp _) as [[]|e]; simpl; [|done].
  destruct (rrt_generatePath _ _ p q) as [o d0] eqn:Hplan. simpl.
  destruct (nonempty_path o) as [path0|] eqn:Hne; [|done].
  intros [= <- <- <-]. apply nonempty_path_Some in Hne as [-> Hne].
  right; right. auto 10.
Qed.

(** [compute_path] with a configuration and a method other than
    ["euclidean"], in terms of the planners. *)
Lemma compute_path_planner calls p q cfg method :
  method ≠ "euclidean"%string ->
  compute_path calls p q (Some cfg) method =
    if has_keys cfg (keys_read method) then
      if String.eqb method "astar" then
        match astar_generatePath (length calls) p q with
        | (Some (p0 :: path), d) => Ok (p0 :: path, d, calls ++ [mkCall method p q])
        | _ => Err NoPathFound
        end
      else if String.prefix "rrt" method then
        match rrt_generatePath (length calls) (String.eqb method "rrtstar") p q with
        | (Some (p0 :: path), d) => Ok (p0 :: path, d, calls ++ [mkCall method p q])
        | _ => Err NoPathFound
        end
      else Err NoPathFound
    else Err KeyError.
Proof.
  intros Heu. unfold compute_path, keys_read, subscript.
  rewrite bool_decide_eq_false_2 by done.
  destruct (String.eqb_spec method "euclidean") as [?|_]; [done|]. simpl.
  destruct (String.eqb method "astar").
  { destruct (has_keys cfg _); simpl; [|done].
    by destruct (astar_generatePath _ p q) as [[[|p0 path]|] d]. }
  destruct (String.prefix "rrt" method); [|done].
  destruct (has_keys cfg _); simpl; [|done].
  by destruct (rrt_generatePath _ _ p q) as [[[|p0 path]|] d].
Qed.

Lemma pair_outcome_paths_mono viewpoints pp a b st st' k :
  pair_outcome viewpoints pp a b st st' ->
  is_Some (paths st !! k) -> is_Some (paths st' !! k).
Proof.
  intros Hout Hk.
  destruct Hout; [done|simpl..]; rewrite !lookup_insert; repeat case_decide; eauto.
Qed.

Section LengthsSet.
Hypothesis Hlengths : planner_lengths_set astar_generatePath rrt_generatePath.

Lemma compute_path_length_set calls p q pp method path d calls' :
  compute_path calls p q pp method = Ok (path, d, calls') -> (d =? UNSET)%float = false.
Proof.
  destruct Hlengths as [Hastar Hrrt].
  intros [(_ & -> & _)|[(_ & _ & Hplan & _)|(_ & _ & _ & _ & Hplan & _)]]%compute_path_inv.
  - apply distEuclidean_not_UNSET.
  - by eapply Hastar.
  - by eapply Hrrt.
Qed.

Lemma pair_outcome_build_inv viewpoints pp a b st st' :
  pair_outcome viewpoints pp a b st st' ->
  build_inv check_line_of_sight viewpoints pp st -> build_inv check_line_of_sight viewpoints pp st'.
Proof.
  intros Hout Hinv.
  destruct Hout as [_|va vb Hne Hva Hvb Hu Hlos|va vb Hne Hva Hvb Hu Hlos Hfar
                    |va vb cfg path d calls Hne Hva Hvb Hu Hlos Hfar Hcfg Hplan].
  - done.
  - destruct st as [pairs est dist ps calls].
    eapply (build_inv_store _ _ _ (mkSession pairs est dist ps calls)); eauto.
    apply distEuclidean_not_UNSET.
  - eapply build_inv_store; eauto. by apply penalty_not_UNSET.
  - eapply build_inv_store; eauto. by eapply compute_path_length_set.
Qed.

Lemma plan_pair_build_inv viewpoints pp a b st st' :
  plan_pair viewpoints pp a b st = Ok st' ->
  build_inv check_line_of_sight viewpoints pp st -> build_inv check_line_of_sight viewpoints pp st'.
Proof. intros Hplan. eapply pair_outcome_build_inv, plan_pair_outcome, Hplan. Qed.

(** After the iteration for [(a, b)], the pair has its path. *)
Lemma plan_pair_stores viewpoints pp a b st st' :
  plan_pair viewpoints pp a b st = Ok st' ->
  build_inv check_line_of_sight viewpoints pp st -> a ≠ b -> is_Some (paths st' !! (a, b)).
Proof.
  intros Hout%plan_pair_outcome Hinv Hne.
  destruct Hout as [[->|(d & Hd & Hs)]|va vb _ Hva Hvb Hu Hlos|va vb _ Hva Hvb Hu Hlos Hfar
                    |va vb cfg path d calls _ Hva Hvb Hu Hlos Hfar Hcfg Hplan]; [done| |simpl..].
  - by eapply (inv_stored _ _ _ _ Hinv).
  - rewrite lookup_insert_ne by congruence. rewrite lookup_insert_eq. eauto.
  - rewrite lookup_insert_ne by congruence. rewrite lookup_insert_eq. eauto.
  - rewrite lookup_insert_ne by congruence. rewrite lookup_insert_eq. eauto.
Qed.

(** The double loop: the invariant holds at its end, and every pair
    has been given a path. *)
Lemma build_matrix_inv viewpoints pp st st' :
  build_matrix viewpoints pp st = Ok st' ->
  build_inv check_line_of_sight viewpoints pp st ->
  build_inv check_line_of_sight viewpoints pp st' ∧
  ∀ a b, a < length viewpoints -> b < length viewpoints -> a ≠ b ->
    is_Some (paths st' !! (a, b)).
Proof.
  unfold build_matrix, for_range. intros Hbuild Hinv.
  assert (build_inv check_line_of_sight viewpoints pp st' ∧
          ∀ a, a ∈ seq 0 (length viewpoints) ->
            ∀ b, b < length viewpoints -> a ≠ b -> is_Some (paths st' !! (a, b)))
    as [Hinv' Hall].
  { eapply (foldM_establish (build_inv check_line_of_sight viewpoints pp)
              (fun a s => ∀ b, b < length viewpoints -> a ≠ b ->
                            is_Some (paths s !! (a, b))));
      [| |exact Hinv|exact Hbuild].
    - intros a s1 s2 _ Hinv1 Hrow.
      assert (build_inv check_line_of_sight viewpoints pp s2 ∧
              ∀ b, b ∈ seq 0 (length viewpoints) -> a ≠ b -> is_Some (paths s2 !! (a, b)))
        as [Hinv2 Hrow2].
      { eapply (foldM_establish (build_inv check_line_of_sight viewpoints pp)
                  (fun b s => a ≠ b -> is_Some (paths s !! (a, b))));
          [| |exact Hinv1|exact Hrow].
        - intros b s3 s4 _ Hinv3 Hplan. split; [by eapply plan_pair_build_inv|].
          by eapply plan_pair_stores.
        - intros b b' s3 s4 _ _ Hb Hplan Hne.
          eapply pair_outcome_paths_mono; [by eapply plan_pair_outcome|by apply Hb]. }
      split; [done|]. intros b Hb. apply Hrow2, elem_of_seq. lia.
    - intros a a' s1 s2 _ _ Ha Hrow b Hb Hne.
      eapply (foldM_invariant (fun s => is_Some (paths s !! (a, b))));
        [|by apply Ha|exact Hrow].
      intros b' s3 s4 _ Hs Hplan.
      eapply pair_outcome_paths_mono; [by eapply plan_pair_outcome|done]. }
  split; [done|]. intros a b Ha Hb. apply Hall; [apply elem_of_seq; lia|done].
Qed.
End LengthsSet.

(** *** Pairs, one at a time *)

(** The iteration for a pair whose cell is unset, branch by branch. *)
Lemma plan_pair_unset viewpoints pp a b st va vb :
  a ≠ b -> viewpoints !! a = Some va -> viewpoints !! b = Some vb ->
  unset_cell (distances st) a b ->
  plan_pair viewpoints pp a b st =
    if check_line_of_sight pp (pose va) (pose vb) then
      Ok (store_pair a b (pose vb) [pose va; pose vb] (distEuclidean (pose va) (pose vb)) st)
    else if (DIST_THRESHOLD <? distEuclidean (pose va) (pose vb))%float then
      Ok (store_pair a b (pose vb) [pose va; pose vb]
            (distEuclidean (pose va) (pose vb) * 3)%float
            (defer_pair a b (distEuclidean (pose va) (pose vb)) st))
    else
      method ← configured_method pp;
      '(path, distance, calls) ←
        compute_path (planner_calls st) (pose va) (pose vb) pp method;
      Ok (store_pair a b (pose vb) path distance (with_calls calls st)).
Proof.
  intros Hne Hva Hvb (d & Hd & Hu). unfold plan_pair.
  destruct (Nat.eqb_spec a b) as [->|_]; [done|].
  rewrite Hd. simpl. rewrite Hu. simpl.
  unfold pose_at. rewrite Hva, Hvb. simpl.
  rewrite compute_path_euclidean. simpl. by rewrite with_calls_same.
Qed.

Lemma store_pair_cells n a b g2 path d st :
  is_square n (distances st) -> a < n -> b < n ->
  cell (distances (store_pair a b g2 path d st)) a b = Some d ∧
  cell (distances (store_pair a b g2 path d st)) b a = Some d.
Proof.
  intros Hsq Ha Hb. simpl. rewrite !(cell_store n) by done.
  rewrite !bool_decide_eq_true_2; auto.
Qed.

Lemma store_pair_paths a b g2 path d st :
  a ≠ b ->
  paths (store_pair a b g2 path d st) !! (a, b) = Some (set_last_heading path (heading g2)) ∧
  paths (store_pair a b g2 path d st) !! (b, a)
    = Some (rev (set_last_heading path (heading g2))).
Proof.
  intros Hne. simpl. rewrite lookup_insert_ne by congruence.
  by rewrite !lookup_insert_eq.
Qed.

Lemma unset_cell_lt n m a b : is_square n m -> unset_cell m a b -> a < n ∧ b < n.
Proof. intros Hsq (d & Hd & _). by eapply cell_Some_lt. Qed.

(** C4. A pair [(a, b)], [a ≠ b], whose cell is still unset and whose
    straight segment has no line of sight. When the Euclidean estimate
    exceeds the threshold 5.0, no planner is called, the pair is appended to
    [tooFarAwayPairs] in both orders, [tooFarAwayDistances] holds the
    estimate itself under both keys, and both cells of the matrix hold 3
    times the estimate. Otherwise the planner of the configured
    [path_planning_method] (the grid planner for ["astar"], the sampling
    planner for a name that begins with ["rrt"]) is called once, for the
    poses of exactly this pair: when it answers with a non-empty path, that
    path (the heading of its last pose set to that of the target viewpoint)
    and its reverse are stored under [(a, b)] and [(b, a)], the planner's
    length is written to both cells, and the pair is not registered as
    deferred; when it answers with no path or an empty one, the run ends
    with the shutdown of [compute_path]. The planner is not reached when the
    dictionary lacks a key it is built from ([KeyError]) or when there is
    no dictionary at all ([TypeError]); with ["euclidean"] configured there
    is no planner to call and the straight segment is stored with its
    length. *)
Theorem no_line_of_sight_pair viewpoints pp n a b st va vb :
  is_square n (distances st) ->
  a ≠ b -> viewpoints !! a = Some va -> viewpoints !! b = Some vb ->
  unset_cell (distances st) a b ->
  check_line_of_sight pp (pose va) (pose vb) = false ->
  let estimate := distEuclidean (pose va) (pose vb) in
  if (DIST_THRESHOLD <? estimate)%float then
    ∃ st', plan_pair viewpoints pp a b st = Ok st' ∧
      planner_calls st' = planner_calls st ∧
      tooFarAwayPairs st' = tooFarAwayPairs st ++ [(a, b); (b, a)] ∧
      tooFarAwayDistances st' !! (a, b) = Some estimate ∧
      tooFarAwayDistances st' !! (b, a) = Some estimate ∧
      cell (distances st') a b = Some (estimate * 3)%float ∧
      cell (distances st') b a = Some (estimate * 3)%float
  else
    (pp = None -> plan_pair viewpoints pp a b st = Err TypeError) ∧
    ∀ cfg, pp = Some cfg ->
      let method := path_planning_method cfg in
      let stored path distance calls :=
        ∃ st', plan_pair viewpoints pp a b st = Ok st' ∧
          planner_calls st' = calls ∧
          tooFarAwayPairs st' = tooFarAwayPairs st ∧
          tooFarAwayDistances st' = tooFarAwayDistances st ∧
          paths st' !! (a, b) = Some (set_last_heading path (heading (pose vb))) ∧
          paths st' !! (b, a) = Some (rev (set_last_heading path (heading (pose vb)))) ∧
          cell (distances st') a b = Some distance ∧
          cell (distances st') b a = Some distance in
      let called := planner_calls st ++ [mkCall method (pose va) (pose vb)] in
      (method = "euclidean"%string ->
         stored [pose va; pose vb] estimate (planner_calls st)) ∧
      (method = "astar"%string ->
         if has_keys cfg ["grid"; "safety_distance"; "timeout"; "straighten"]%string then
           match astar_generatePath (length (planner_calls st)) (pose va) (pose vb) with
           | (Some (p :: path), distance) => stored (p :: path) distance called
           | _ => plan_pair viewpoints pp a b st = Err NoPathFound
           end
         else plan_pair viewpoints pp a b st = Err KeyError) ∧
      (method ≠ "euclidean"%string -> method ≠ "astar"%string ->
       String.prefix "rrt" method = true ->
         if has_keys cfg ["straighten"]%string then
           match rrt_generatePath (length (planner_calls st))
                   (String.eqb method "rrtstar") (pose va) (pose vb) with
           | (Some (p :: path), distance) => stored (p :: path) distance called
           | _ => plan_pair viewpoints pp a b st = Err NoPathFound
           end
         else plan_pair viewpoints pp a b st = Err KeyError) ∧
      (method ≠ "euclidean"%string -> method ≠ "astar"%string ->
       String.prefix "rrt" method = false ->
         plan_pair viewpoints pp a b st = Err NoPathFound).
Proof.
  intros Hsq Hne Hva Hvb Hu Hlos estimate.
  destruct (unset_cell_lt _ _ _ _ Hsq Hu) as [Ha Hb].
  pose proof (plan_pair_unset _ pp _ _ _ _ _ Hne Hva Hvb Hu) as Hpair.
  rewrite Hlos in Hpair. fold estimate in Hpair.
  destruct (DIST_THRESHOLD <? estimate)%float.
  - rewrite Hpair. eexists. split; [done|].
    destruct (store_pair_cells n a b (pose vb) [pose va; pose vb] (estimate * 3)%float
                (defer_pair a b estimate st) Hsq Ha Hb) as [Hab Hba].
    rewrite Hab, Hba. simpl.
    rewrite lookup_insert_ne by congruence. by rewrite !lookup_insert_eq.
  - split; [intros ->; by rewrite Hpair|]. intros cfg -> method stored called.
    set (run := compute_path (planner_calls st) (pose va) (pose vb) (Some cfg) method).
    assert (plan_pair viewpoints (Some cfg) a b st =
              ('(path, distance, calls) ← run;
               Ok (store_pair a b (pose vb) path distance (with_calls calls st)))) as Heq
      by (by rewrite Hpair).
    clear Hpair.
    assert (∀ path distance calls, run = Ok (path, distance, calls) ->
              stored path distance calls) as Hstored.
    { intros path distance calls Hrun. unfold stored. rewrite Heq, Hrun. simpl.
      eexists. split; [done|].
      destruct (store_pair_cells n a b (pose vb) path distance (with_calls calls st) Hsq Ha Hb)
        as [Hab Hba].
      destruct (store_pair_paths a b (pose vb) path distance (with_calls calls st) Hne)
        as [Hpab Hpba].
      rewrite Hab, Hba, Hpab, Hpba. done. }
    assert (∀ e, run = Err e -> plan_pair viewpoints (Some cfg) a b st = Err e) as Hfails.
    { intros e Hrun. by rewrite Heq, Hrun. }
    clearbody stored. clear Heq.
    split; [|split; [|split]].
    + intros Hm. apply Hstored. unfold run. rewrite Hm. apply compute_path_euclidean.
    + intros Hm.
      assert (method ≠ "euclidean"%string) as Heu by (by rewrite Hm).
      pose proof (compute_path_planner (planner_calls st) (pose va) (pose vb) cfg method Heu)
        as Hrun.
      fold run called in Hrun. unfold keys_read in Hrun.
      rewrite (proj2 (String.eqb_eq method "astar") Hm) in Hrun.
      destruct (has_keys cfg _); [|by apply Hfails].
      destruct (astar_generatePath _ _ _) as [[[|p path]|] distance];
        [by apply Hfails|by apply Hstored|by apply Hfails].
    + intros Heu Has Hrrt.
      pose proof (compute_path_planner (planner_calls st) (pose va) (pose vb) cfg method Heu)
        as Hrun.
      fold run called in Hrun. unfold keys_read in Hrun.
      rewrite (proj2 (String.eqb_neq _ _) Has), Hrrt in Hrun.
      destruct (has_keys cfg _); [|by apply Hfails].
      destruct (rrt_generatePath _ _ _ _) as [[[|p path]|] distance];
        [by apply Hfails|by apply Hstored|by apply Hfails].
    + intros Heu Has Hrrt.
      pose proof (compute_path_planner (planner_calls st) (pose va) (pose vb) cfg method Heu)
        as Hrun.
      fold run in Hrun. unfold keys_read in Hrun.
      rewrite (proj2 (String.eqb_neq _ _) Has), Hrrt in Hrun.
      apply Hfails. by rewrite Hrun.
Qed.

(** A pair with line of sight keeps the straight segment and its Euclidean
    length. *)
Lemma line_of_sight_pair viewpoints pp n a b st va vb :
  is_square n (distances st) ->
  a ≠ b -> viewpoints !! a = Some va -> viewpoints !! b = Some vb ->
  unset_cell (distances st) a b ->
  check_line_of_sight pp (pose va) (pose vb) = true ->
  ∃ st', plan_pair viewpoints pp a b st = Ok st' ∧
    paths st' !! (a, b) = Some [pose va; pose vb] ∧
    paths st' !! (b, a) = Some [pose vb; pose va] ∧
    cell (distances st') a b = Some (distEuclidean (pose va) (pose vb)) ∧
    cell (distances st') b a = Some (distEuclidean (pose va) (pose vb)) ∧
    planner_calls st' = planner_calls st ∧
    tooFarAwayPairs st' = tooFarAwayPairs st.
Proof.
  intros Hsq Hne Hva Hvb Hu Hlos.
  destruct (unset_cell_lt _ _ _ _ Hsq Hu) as [Ha Hb].
  rewrite (plan_pair_unset _ _ _ _ _ _ _ Hne Hva Hvb Hu), Hlos.
  eexists. split; [done|].
  destruct (store_pair_cells n a b (pose vb) [pose va; pose vb]
              (distEuclidean (pose va) (pose vb)) st Hsq Ha Hb) as [Hab Hba].
  destruct (store_pair_paths a b (pose vb) [pose va; pose vb]
              (distEuclidean (pose va) (pose vb)) st Hne) as [Hpab Hpba].
  rewrite Hab, Hba, Hpab, Hpba, set_last_heading_segment. done.
Qed.

(** C7. In every session reachable from the initialisation of [plan_tour]
    by iterations of its double loop and of the resolving loop of
    [compute_tsp_tour], the matrix is symmetric (the two cells of a pair hold
    the same float) and its diagonal is exactly 0. *)
Theorem distances_symmetric_zero_diagonal viewpoints pp st :
  reachable viewpoints pp st ->
  (∀ a b, a < length viewpoints -> b < length viewpoints ->
     ∃ d, cell (distances st) a b = Some d ∧ cell (distances st) b a = Some d) ∧
  (∀ a, a < length viewpoints -> cell (distances st) a a = Some 0%float).
Proof.
  intros (Hsq & Hsym & Hz)%reachable_matrix_ok. split.
  - intros a b Ha Hb. destruct (cell_lt_Some _ _ _ _ Hsq Ha Hb) as [d Hd].
    exists d. split; [done|]. by rewrite <- Hsym.
  - intros a Ha. apply Hz. destruct Hsq as [-> _]. done.
Qed.

(** C10. When the double loop of [plan_tour] completes, with planners that
    never return the sentinel as a length: no off-diagonal cell reads as
    unset any more; every ordered pair of distinct viewpoints has a path
    stored, in both directions; and a deferred pair holds the straight
    two-pose segment between its viewpoints, in both directions, although
    the line-of-sight test failed for it. *)
Theorem build_matrix_complete viewpoints pp st :
  planner_lengths_set astar_generatePath rrt_generatePath ->
  build_matrix viewpoints pp (init_session (length viewpoints)) = Ok st ->
  (∀ a b, a < length viewpoints -> b < length viewpoints -> a ≠ b ->
     ∃ d, cell (distances st) a b = Some d ∧ (d =? UNSET)%float = false) ∧
  (∀ a b, a < length viewpoints -> b < length viewpoints -> a ≠ b ->
     is_Some (paths st !! (a, b)) ∧ is_Some (paths st !! (b, a))) ∧
  (∀ a b, (a, b) ∈ tooFarAwayPairs st ->
     ∃ va vb, viewpoints !! a = Some va ∧ viewpoints !! b = Some vb ∧
       paths st !! (a, b) = Some [pose va; pose vb] ∧
       paths st !! (b, a) = Some [pose vb; pose va] ∧
       (check_line_of_sight pp (pose va) (pose vb) = false ∨
        check_line_of_sight pp (pose vb) (pose va) = false)).
Proof.
  intros Hlengths Hbuild.
  destruct (build_matrix_inv Hlengths _ _ _ _ Hbuild (init_build_inv _ _ _))
    as [Hinv Hall].
  split; [|split].
  - intros a b Ha Hb Hne. by apply (inv_set _ _ _ _ Hinv), Hall.
  - intros a b Ha Hb Hne. split; apply Hall; done.
  - intros a b Hin.
    destruct (inv_deferred _ _ _ _ Hinv a b Hin) as (_ & va & vb & Hva & Hvb & Hp & Hl).
    exists va, vb. do 3 (split; [done|]). split; [|done].
    by apply (inv_reverse _ _ _ _ Hinv) in Hp.
Qed.

(** Storing a pair keeps the two directions of every pair each other's
    reverse. *)
Lemma store_pair_reversed a b g2 path d st :
  a ≠ b ->
  (∀ a' b' p, paths st !! (a', b') = Some p -> paths st !! (b', a') = Some (rev p)) ->
  ∀ a' b' p, paths (store_pair a b g2 path d st) !! (a', b') = Some p ->
    paths (store_pair a b g2 path d st) !! (b', a') = Some (rev p).
Proof.
  intros Hne Hst a' b' p. simpl.
  rewrite !lookup_insert. repeat case_decide; simplify_eq.
  - intros [= <-]. by rewrite rev_involutive.
  - by intros [= <-].
  - apply Hst.
Qed.

Lemma pair_outcome_reversed viewpoints pp a b st st' :
  pair_outcome viewpoints pp a b st st' ->
  (∀ a' b' p, paths st !! (a', b') = Some p -> paths st !! (b', a') = Some (rev p)) ->
  ∀ a' b' p, paths st' !! (a', b') = Some p -> paths st' !! (b', a') = Some (rev p).
Proof.
  intros Hout Hst.
  destruct Hout as [_|va vb Hne _ _ _ _|va vb Hne _ _ _ _ _
                    |va vb cfg path d calls Hne _ _ _ _ _ _ _]; [done|..].
  - by apply store_pair_reversed.
  - by apply (store_pair_reversed _ _ _ _ _ (defer_pair a b _ st)).
  - by apply (store_pair_reversed _ _ _ _ _ (with_calls calls st)).
Qed.

(** X1. When the double loop of [plan_tour] completes, whatever the
    planners have returned, the two directions of every stored pair hold
    each other's reverse. *)
Theorem build_paths_reversed viewpoints pp st :
  build_matrix viewpoints pp (init_session (length viewpoints)) = Ok st ->
  ∀ a b path, paths st !! (a, b) = Some path -> paths st !! (b, a) = Some (rev path).
Proof.
  unfold build_matrix, for_range.
  set (Inv := fun s : session =>
         ∀ a b path, paths s !! (a, b) = Some path -> paths s !! (b, a) = Some (rev path)).
  apply (foldM_invariant Inv).
  - intros a s1 s2 _. apply (foldM_invariant Inv).
    intros b s3 s4 _ Hs3 Hplan%plan_pair_outcome. unfold Inv.
    by eapply pair_outcome_reversed.
  - intros a b path. simpl. by rewrite lookup_empty.
Qed.

(** *** The resolving loop *)

Lemma resolve_deferred_distances viewpoints pp sequence st st' :
  resolve_deferred viewpoints pp sequence st = Ok st' -> distances st' = distances st.
Proof.
  unfold resolve_deferred, for_range.
  apply (foldM_invariant (fun s => distances s = distances st)); [|done].
  intros i s1 s2 _ Hs Hres. by rewrite (resolve_pair_distances _ _ _ _ _ _ Hres).
Qed.

Lemma tour_of_sequence_distances viewpoints pp sequence st tour st' :
  tour_of_sequence viewpoints pp sequence st = Ok (tour, st') ->
  distances st' = distances st.
Proof.
  unfold tour_of_sequence.
  intros (st1 & Hres & (path & Hasm & [= <- <-])%bind_Ok)%bind_Ok.
  by eapply resolve_deferred_distances.
Qed.

Lemma empty_sequence_fails viewpoints pp st :
  1 <= length (distances st) ->
  tour_of_sequence viewpoints pp [] st = Err IndexError.
Proof.
  intros Hn. unfold tour_of_sequence, resolve_deferred, assemble, for_range.
  simpl. destruct (length (distances st)) as [|n]; [lia|]. done.
Qed.

(** *** Stored paths begin at their viewpoint *)

Section Joining.
Variable R : relation Pose.
Context `{!Reflexive R}.
Hypothesis Hjoin : planners_join astar_generatePath rrt_generatePath R.

Lemma compute_path_joins calls p q pp method path d calls' :
  compute_path calls p q pp method = Ok (path, d, calls') -> joins R p q path.
Proof.
  destruct Hjoin as [Hastar Hrrt].
  intros [(-> & _)|[(_ & _ & Hplan & Hne & _)|(_ & _ & _ & _ & Hplan & Hne & _)]]%compute_path_inv.
  - by exists p, [], q.
  - by eapply Hastar.
  - by eapply Hrrt.
Qed.

Lemma paths_start_store viewpoints a b va vb path d st pairs estimates calls :
  a ≠ b -> viewpoints !! a = Some va -> viewpoints !! b = Some vb ->
  joins R (pose va) (pose vb) path ->
  paths_start R viewpoints st ->
  paths_start R viewpoints
    (store_pair a b (pose vb) path d
       (mkSession pairs estimates (distances st) (paths st) calls)).
Proof.
  intros Hne Hva Hvb (first & mid & Hmid & Hfirst)%joins_stored Hst a' b' path'.
  simpl. rewrite Hmid.
  rewrite !lookup_insert. repeat case_decide; simplify_eq.
  - intros [= <-]. exists vb, (pose vb), (rev mid), first. split; [done|].
    split; [|done].
    change (first :: mid ++ [pose vb]) with ((first :: mid) ++ [pose vb]).
    rewrite rev_app_distr. simpl. done.
  - intros [= <-]. by exists va, first, mid, (pose vb).
  - apply Hst.
Qed.

Lemma pair_outcome_paths_start viewpoints pp a b st st' :
  pair_outcome viewpoints pp a b st st' ->
  paths_start R viewpoints st -> paths_start R viewpoints st'.
Proof.
  intros Hout Hst.
  destruct Hout as [_|va vb Hne Hva Hvb _ _|va vb Hne Hva Hvb _ _ _
                    |va vb cfg path d calls Hne Hva Hvb _ _ _ _ Hplan]; [done|..].
  - destruct st as [pairs est dist ps calls].
    apply (paths_start_store _ _ _ va vb _ _ (mkSession pairs est dist ps calls)); try done.
    by exists (pose va), [], (pose vb).
  - apply (paths_start_store _ _ _ va vb _ _ st); try done.
    by exists (pose va), [], (pose vb).
  - apply (paths_start_store _ _ _ va vb _ _ st); try done. by eapply compute_path_joins.
Qed.

Lemma session_step_paths_start viewpoints pp st st' :
  session_step viewpoints pp st st' ->
  paths_start R viewpoints st -> paths_start R viewpoints st'.
Proof.
  intros [a b st1 st2 _ _ Hplan|sequence i st1 st2 Hres] Hst.
  - eapply pair_outcome_paths_start; [|done]. by apply plan_pair_outcome.
  - apply resolve_pair_inv in Hres
      as [->|(a & b & va & vb & cfg & path & d & calls & _ & _ & _ & Hva & Hvb & _ & Hplan & ->)];
      [done|].
    intros a' b' path'. simpl. rewrite lookup_insert. case_decide; simplify_eq; [|apply Hst].
    intros [= <-]. apply compute_path_joins in Hplan as (first & mid & last & -> & Hfirst & _).
    by exists va, first, mid, last.
Qed.

Lemma reachable_paths_start viewpoints pp st :
  reachable viewpoints pp st -> paths_start R viewpoints st.
Proof.
  intros Hreach. revert st Hreach. apply rtc_ind_r.
  - intros a b path. simpl. by rewrite lookup_empty.
  - intros st1 st2 _ Hstep IH. by eapply session_step_paths_start.
Qed.
End Joining.

(** *** Both ends of the stored paths *)

Section Ends.
Variable R : relation Pose.
Context `{!Reflexive R}.
Hypothesis Hjoin : planners_join astar_generatePath rrt_generatePath R.

Lemma paths_join_store viewpoints a b va vb path d st :
  a ≠ b -> viewpoints !! a = Some va -> viewpoints !! b = Some vb ->
  joins R (pose va) (pose vb) path ->
  paths_join R viewpoints st ->
  paths_join R viewpoints (store_pair a b (pose vb) path d st).
Proof.
  intros Hne Hva Hvb (first & mid & Hmid & Hfirst)%joins_stored Hst a' b' path'.
  simpl. rewrite Hmid.
  rewrite !lookup_insert. repeat case_decide; simplify_eq.
  - intros [= <-]. exists vb, va, (pose vb), (rev mid), first.
    do 2 (split; [done|]). split; [|done].
    change (first :: mid ++ [pose vb]) with ((first :: mid) ++ [pose vb]).
    rewrite rev_app_distr. simpl. done.
  - intros [= <-]. by exists va, vb, first, mid, (pose vb).
  - apply Hst.
Qed.

Lemma pair_outcome_paths_join viewpoints pp a b st st' :
  pair_outcome viewpoints pp a b st st' ->
  paths_join R viewpoints st -> paths_join R viewpoints st'.
Proof.
  intros Hout Hst.
  destruct Hout as [_|va vb Hne Hva Hvb _ _|va vb Hne Hva Hvb _ _ _
                    |va vb cfg path d calls Hne Hva Hvb _ _ _ _ Hplan]; [done|..].
  - apply (paths_join_store _ _ _ va vb); try done. by exists (pose va), [], (pose vb).
  - apply (paths_join_store _ _ _ va vb); try done. by exists (pose va), [], (pose vb).
  - apply (paths_join_store _ _ _ va vb); try done.
    by eapply (compute_path_joins R Hjoin).
Qed.

Lemma build_matrix_paths_join viewpoints pp st st' :
  build_matrix viewpoints pp st = Ok st' ->
  paths_join R viewpoints st -> paths_join R viewpoints st'.
Proof.
  intros Hbuild Hst. revert Hbuild. unfold build_matrix, for_range.
  apply (foldM_invariant (paths_join R viewpoints)); [|done].
  intros a s1 s2 _. apply (foldM_invariant (paths_join R viewpoints)).
  intros b s3 s4 _ Hs3 Hplan%plan_pair_outcome. by eapply pair_outcome_paths_join.
Qed.
End Ends.

#[local] Instance same_point_refl : Reflexive same_point.
Proof. by intros p. Qed.

(** In a session of [plan_tour] every stored path leads from the position
    of the viewpoint it leaves to the position of the viewpoint it leads
    to. *)
Lemma reachable_paths_join viewpoints pp st :
  planners_join astar_generatePath rrt_generatePath same_point ->
  reachable viewpoints pp st -> paths_join same_point viewpoints st.
Proof.
  intros Hjoin Hreach. revert st Hreach.
  apply (rtc_ind_r (paths_join same_point viewpoints)).
  - intros a b path. simpl. by rewrite lookup_empty.
  - intros st1 st2 _ Hstep IH.
    destruct Hstep as [a b s1 s2 _ _ Hplan|sequence i s1 s2 Hres].
    + eapply (pair_outcome_paths_join same_point Hjoin); [|done]. by apply plan_pair_outcome.
    + apply resolve_pair_inv in Hres
        as [->|(a & b & va & vb & cfg & path & d & calls & _ & _ & _ & Hva & Hvb & _ & Hplan & ->)];
        [done|].
      intros a' b' path'. simpl. rewrite lookup_insert. case_decide; simplify_eq; [|apply IH].
      intros [= <-].
      apply (compute_path_joins same_point Hjoin) in Hplan
        as (first & mid & last & -> & Hfirst & Hlast).
      by exists va, vb, first, mid, last.
Qed.

(** *** Assembling *)

Lemma join_edge_inv viewpoints st sequence n a acc acc' :
  join_edge viewpoints st sequence n a acc = Ok acc' ->
  ∃ path, tour_edge st sequence n a path ∧
    if decide (a = n - 1) then
      ∃ j vj, sequence !! ((a + 1) mod n) = Some (Some j) ∧ viewpoints !! j = Some vj ∧
        acc' = acc ++ removelast path ++ [pose vj]
    else acc' = acc ++ removelast path.
Proof.
  unfold join_edge.
  destruct (sequence !! a) as [a_idx|] eqn:Ha; simpl; [|done].
  destruct (sequence !! ((a + 1) mod n)) as [b_idx|] eqn:Hb; simpl; [|done].
  destruct a_idx as [i|]; simpl; [|done].
  destruct b_idx as [j|]; simpl; [|done].
  destruct (paths st !! (i, j)) as [path|] eqn:Hp; simpl; [|done].
  intros Hres. exists path. split; [by exists i, j|].
  destruct (Nat.eqb_spec a (n - 1)) as [Heq|Hne].
  - rewrite decide_True by done. unfold pose_at in Hres.
    destruct (viewpoints !! j) as [vj|] eqn:Hvj; simpl in Hres; [|done].
    injection Hres as <-. exists j, vj. by rewrite <- app_assoc.
  - rewrite decide_False by done. by injection Hres as <-.
Qed.

Lemma join_edges_open viewpoints st sequence n len lo acc tour :
  lo + len <= n - 1 ->
  foldM (join_edge viewpoints st sequence n) (seq lo len) acc = Ok tour ->
  ∃ edges, Forall2 (tour_edge st sequence n) (seq lo len) edges ∧
    tour = acc ++ concat (removelast (A:=Pose) <$> edges).
Proof.
  revert lo acc. induction len as [|len IH]; intros lo acc Hle.
  - intros [= <-]. exists []. split; [constructor|]. simpl. by rewrite app_nil_r.
  - intros (acc1 & Hedge & Hrest)%foldM_cons_Ok.
    apply join_edge_inv in Hedge as (path & Hpath & Hacc).
    rewrite decide_False in Hacc by lia. subst acc1.
    apply IH in Hrest as (edges & Hedges & ->); [|lia].
    exists (path :: edges). split; [by constructor|]. simpl. by rewrite <- app_assoc.
Qed.

Lemma assemble_inv viewpoints st sequence tour :
  1 <= length (distances st) ->
  assemble viewpoints st sequence = Ok tour ->
  ∃ edges j vj,
    Forall2 (tour_edge st sequence (length (distances st)))
      (seq 0 (length (distances st))) edges ∧
    sequence !! 0 = Some (Some j) ∧ viewpoints !! j = Some vj ∧
    tour = concat (removelast (A:=Pose) <$> edges) ++ [pose vj].
Proof.
  intros Hn Hasm. unfold assemble, for_range in Hasm.
  destruct (length (distances st)) as [|m]; [lia|].
  rewrite seq_S, foldM_app in Hasm.
  apply bind_Ok in Hasm as (acc & Hopen & Hlast).
  apply join_edges_open in Hopen as (edges & Hedges & ->); [|lia].
  apply foldM_cons_Ok in Hlast as (tour' & Hedge & [= <-]).
  apply join_edge_inv in Hedge as (path & Hpath & Hacc).
  rewrite decide_True in Hacc by lia.
  destruct Hacc as (j & vj & Hj & Hvj & ->).
  replace ((0 + m + 1) mod S m) with 0 in Hj.
  2:{ replace (0 + m + 1) with (S m) by lia. symmetry. apply Nat.Div0.mod_same. }
  exists (edges ++ [path]), j, vj. split; [|split; [done|split; [done|]]].
  - rewrite seq_S. apply Forall2_app; [done|]. by repeat constructor.
  - rewrite fmap_app, concat_app. simpl. by rewrite app_nil_r, <- app_assoc.
Qed.

Lemma tour_edge_leg R viewpoints st sequence n a path :
  paths_start R viewpoints st -> tour_edge st sequence n a path ->
  ∃ leg, removelast path = leg ∧ tour_leg R viewpoints st sequence n a leg.
Proof.
  intros Hst (i & j & Hi & Hj & Hp).
  destruct (Hst _ _ _ Hp) as (v & first & mid & last & Hv & -> & Hfirst).
  exists (first :: mid). split.
  - change (first :: mid ++ [last]) with ((first :: mid) ++ [last]).
    apply removelast_last.
  - exists i, v, first, last. do 4 (split; [done|]). by exists i, j.
Qed.

Lemma tour_edges_legs R viewpoints st sequence n l edges :
  paths_start R viewpoints st ->
  Forall2 (tour_edge st sequence n) l edges ->
  Forall2 (tour_leg R viewpoints st sequence n) l (removelast (A:=Pose) <$> edges).
Proof.
  intros Hst Hedges. induction Hedges as [|a path l edges Ha _ IH]; [constructor|].
  simpl. constructor; [|done].
  by destruct (tour_edge_leg _ _ _ _ _ _ _ Hst Ha) as (leg & -> & Hleg).
Qed.

Lemma tour_edges_join viewpoints st sequence n l edges :
  paths_join same_point viewpoints st ->
  Forall2 (tour_edge st sequence n) l edges ->
  Forall2 (leg_joins viewpoints st sequence n) l (removelast (A:=Pose) <$> edges).
Proof.
  intros Hst Hedges. induction Hedges as [|a path l edges Ha _ IH]; [constructor|].
  simpl. constructor; [|done].
  destruct Ha as (i & j & Hi & Hj & Hp).
  destruct (Hst _ _ _ Hp) as (va & vb & first & mid & last & Hva & Hvb & -> & _ & Hlast).
  change (first :: mid ++ [last]) with ((first :: mid) ++ [last]).
  rewrite removelast_last.
  exists j, vb, last. do 2 (split; [done|]). split; [by exists i, j|done].
Qed.


(** *** [compute_path], as its callers see it *)

(** X16. [compute_path] returns the straight segment with its Euclidean
    length, calling no planner, when no planner is configured or the method
    is ["euclidean"]. A path it returns is never empty (the [path[-1]] of
    [plan_tour] is always there), and at most the one call it has made is
    added to the log. With a configuration and another method: when the
    dictionary lacks a key the planner of the method is built from, it
    raises a [KeyError]; otherwise the planner is called once, for these two
    poses, and its path and length are returned when the path is not empty;
    when the planner finds nothing, or for a method name that is neither
    ["astar"] nor begins with ["rrt"], the process is shut down. *)
Theorem compute_path_outcome calls p q pp method :
  (pp = None ∨ method = "euclidean"%string ->
     compute_path calls p q pp method = Ok ([p; q], distEuclidean p q, calls)) ∧
  (∀ path d calls', compute_path calls p q pp method = Ok (path, d, calls') ->
     path ≠ [] ∧ (calls' = calls ∨ calls' = calls ++ [mkCall method p q])) ∧
  (∀ cfg, pp = Some cfg -> method ≠ "euclidean"%string ->
     compute_path calls p q pp method =
       if has_keys cfg (keys_read method) then
         if String.eqb method "astar" then
           match astar_generatePath (length calls) p q with
           | (Some (p0 :: path), d) => Ok (p0 :: path, d, calls ++ [mkCall method p q])
           | _ => Err NoPathFound
           end
         else if String.prefix "rrt" method then
           match rrt_generatePath (length calls) (String.eqb method "rrtstar") p q with
           | (Some (p0 :: path), d) => Ok (p0 :: path, d, calls ++ [mkCall method p q])
           | _ => Err NoPathFound
           end
         else Err NoPathFound
       else Err KeyError).
Proof.
  split; [|split].
  - intros [-> | ->]; [done|apply compute_path_euclidean].
  - intros path d calls'
      [(-> & _ & -> & _)|[(_ & _ & _ & Hne & ->)|(_ & _ & _ & _ & _ & Hne & ->)]]%compute_path_inv;
      auto.
  - intros cfg -> Heu. by apply compute_path_planner.
Qed.

(** *** The registry of deferred pairs *)

Lemma registry_store los viewpoints pp st a b g2 path d calls :
  is_square (length viewpoints) (distances st) ->
  a < length viewpoints -> b < length viewpoints ->
  unset_cell (distances st) a b ->
  registry_inv los viewpoints pp st ->
  registry_inv los viewpoints pp (store_pair a b g2 path d (with_calls calls st)).
Proof.
  intros Hsq Ha Hb Hu [Hkeys Hentry]. split; simpl; [done|].
  intros a' b' d' Hd'.
  destruct (Hentry a' b' d' Hd') as (Hne & Hrev & Hfar & Hcell & Hvs).
  do 3 (split; [done|]). split; [|done].
  rewrite (cell_store _ _ _ _ _ _ _ Hsq Ha Hb).
  rewrite bool_decide_eq_false_2; [done|].
  pose proof (penalty_not_UNSET _ Hfar) as Hset.
  intros [[= -> ->]|[= -> ->]].
  - by destruct (unset_not_set _ _ _ _ Hu Hcell Hset).
  - destruct (Hentry _ _ _ Hrev) as (_ & _ & _ & Hcell' & _).
    by destruct (unset_not_set _ _ _ _ Hu Hcell' Hset).
Qed.

Lemma pair_outcome_registry viewpoints pp a b st st' :
  pair_outcome viewpoints pp a b st st' ->
  is_square (length viewpoints) (distances st) ->
  registry_inv check_line_of_sight viewpoints pp st ->
  registry_inv check_line_of_sight viewpoints pp st'.
Proof.
  intros Hout Hsq Hreg.
  destruct Hout as [_|va vb Hne Hva Hvb Hu Hlos|va vb Hne Hva Hvb Hu Hlos Hfar
                    |va vb cfg path d calls Hne Hva Hvb Hu Hlos Hfar Hcfg Hplan]; [done|..].
  - rewrite <- (with_calls_same st).
    apply registry_store; try done; by eapply lookup_lt_Some.
  - pose proof (lookup_lt_Some _ _ _ Hva) as Ha.
    pose proof (lookup_lt_Some _ _ _ Hvb) as Hb.
    pose proof (penalty_not_UNSET _ Hfar) as Hset.
    destruct Hreg as [Hkeys Hentry].
    assert (tooFarAwayDistances st !! (a, b) = None) as Hab.
    { destruct (tooFarAwayDistances st !! (a, b)) as [d|] eqn:Hd; [|done].
      destruct (Hentry _ _ _ Hd) as (_ & _ & Hfar' & Hcell & _).
      by destruct (unset_not_set _ _ _ _ Hu Hcell (penalty_not_UNSET _ Hfar')). }
    assert (tooFarAwayDistances st !! (b, a) = None) as Hba.
    { destruct (tooFarAwayDistances st !! (b, a)) as [d|] eqn:Hd; [|done].
      destruct (Hentry _ _ _ Hd) as (_ & Hrev & _). congruence. }
    split; simpl.
    + intros a' b'. rewrite elem_of_app, !elem_of_cons, elem_of_nil, Hkeys.
      rewrite !lookup_insert_is_Some. split.
      * intros [H|[[= -> ->]|[[= -> ->]|[]]]].
        -- destruct (decide ((b, a) = (a', b'))); [by left|right]. split; [done|].
           destruct (decide ((a, b) = (a', b'))); [by left|right]. done.
        -- right. split; [congruence|]. by left.
        -- by left.
      * intros [[= <- <-]|[_ [[= <- <-]|[_ H]]]]; auto.
    + intros a' b' d' Hd'.
      rewrite (cell_store _ _ _ _ _ _ _ Hsq Ha Hb).
      destruct (decide ((a', b') = (a, b))) as [[= -> ->]|Hnab].
      { rewrite lookup_insert_ne in Hd' by congruence.
        rewrite lookup_insert_eq in Hd'. injection Hd' as <-.
        rewrite lookup_insert_eq.
        rewrite bool_decide_eq_true_2 by (by left).
        do 4 (split; [done|]). exists va, vb. auto. }
      destruct (decide ((a', b') = (b, a))) as [[= -> ->]|Hnba].
      { rewrite lookup_insert_eq in Hd'. injection Hd' as <-.
        rewrite lookup_insert_ne by congruence. rewrite lookup_insert_eq.
        rewrite bool_decide_eq_true_2 by (by right).
        split; [done|]. do 3 (split; [done|]). exists vb, va. auto. }
      rewrite !lookup_insert_ne in Hd' by congruence.
      destruct (Hentry _ _ _ Hd') as (Hne' & Hrev & Hfar' & Hcell & Hvs).
      rewrite !lookup_insert_ne by congruence.
      rewrite bool_decide_eq_false_2 by (intros [?|?]; congruence).
      done.
  - apply registry_store; try done; by eapply lookup_lt_Some.
Qed.

Lemma session_step_registry viewpoints pp st st' :
  session_step viewpoints pp st st' ->
  is_square (length viewpoints) (distances st) ->
  registry_inv check_line_of_sight viewpoints pp st ->
  registry_inv check_line_of_sight viewpoints pp st'.
Proof.
  intros [a b st1 st2 _ _ Hplan|sequence i st1 st2 Hres] Hsq Hreg.
  - eapply pair_outcome_registry; [|done..]. by apply plan_pair_outcome.
  - apply resolve_pair_inv in Hres
      as [->|(a & b & va & vb & cfg & path & d & calls & _ & _ & _ & _ & _ & _ & _ & ->)];
      [done|].
    destruct Hreg as [Hkeys Hentry]. by split.
Qed.

Lemma reachable_registry viewpoints pp st :
  reachable viewpoints pp st -> registry_inv check_line_of_sight viewpoints pp st.
Proof.
  intros Hreach. revert st Hreach. apply rtc_ind_r.
  - split; simpl.
    + intros a b. rewrite lookup_empty. split; [by intros ?%elem_of_nil|by intros [? ?]].
    + intros a b d. by rewrite lookup_empty.
  - intros st1 st2 Hreach Hstep IH.
    eapply session_step_registry; [done| |done].
    by destruct (reachable_matrix_ok _ _ _ Hreach) as [? _].
Qed.

(** X2. In every session reachable from the initialisation of [plan_tour],
    [tooFarAwayPairs] lists exactly the keys of [tooFarAwayDistances]; the
    entry of a pair is the straight distance between its two viewpoints,
    which have no line of sight, it is above the threshold 5.0 and the same
    under both orders of the pair, and the matrix holds 3 times that
    distance for the pair, to the end of the session. *)
Theorem deferred_registry viewpoints pp st :
  reachable viewpoints pp st ->
  (∀ a b, (a, b) ∈ tooFarAwayPairs st <-> is_Some (tooFarAwayDistances st !! (a, b))) ∧
  ∀ a b d, tooFarAwayDistances st !! (a, b) = Some d ->
    a ≠ b ∧ tooFarAwayDistances st !! (b, a) = Some d ∧
    (DIST_THRESHOLD <? d)%float = true ∧
    cell (distances st) a b = Some (d * 3)%float ∧
    ∃ va vb, viewpoints !! a = Some va ∧ viewpoints !! b = Some vb ∧
      ((d = distEuclidean (pose va) (pose vb) ∧
        check_line_of_sight pp (pose va) (pose vb) = false) ∨
       (d = distEuclidean (pose vb) (pose va) ∧
        check_line_of_sight pp (pose vb) (pose va) = false)).
Proof. intros [Hkeys Hentry]%reachable_registry. by split. Qed.

(** *** The planner calls of the double loop *)

(** One iteration makes no call, or one call for its own pair, whose cell
    read as unset, which has no line of sight and is not far. *)
Lemma pair_outcome_calls viewpoints pp a b st st' :
  pair_outcome viewpoints pp a b st st' ->
  planner_calls st' = planner_calls st ∨
  ∃ c, planner_calls st' = planner_calls st ++ [c] ∧
    call_between viewpoints pp (a, b) c ∧
    near_blocked check_line_of_sight viewpoints pp (a, b) ∧
    unset_cell (distances st) a b.
Proof.
  intros Hout.
  destruct Hout as [_|va vb Hne Hva Hvb Hu Hlos|va vb Hne Hva Hvb Hu Hlos Hfar
                    |va vb cfg path d calls Hne Hva Hvb Hu Hlos Hfar Hcfg Hplan];
    [by left..|].
  simpl.
  apply compute_path_inv in Hplan
    as [(_ & _ & -> & _)|[(_ & Hm & _ & _ & ->)|(_ & Hm & _ & _ & _ & _ & ->)]];
    [by left|right..].
  - eexists. split; [done|]. split; [|split; [|done]].
    + exists va, vb, cfg. rewrite Hm. by repeat split.
    + by exists va, vb.
  - eexists. split; [done|]. split; [|split; [|done]].
    + by exists va, vb, cfg.
    + by exists va, vb.
Qed.

(** X3. When the double loop of [plan_tour] completes, every planner call
    it has made is a call of the configured [path_planning_method] (which is
    not ["euclidean"]) from one viewpoint to another one that it has no
    line of sight to and whose straight distance is not above 5.0: a pair
    in line of sight, and a pair that is deferred, costs no planner call,
    and nothing is planned when no planner is configured. *)
Theorem build_calls_near_blocked viewpoints pp st :
  build_matrix viewpoints pp (init_session (length viewpoints)) = Ok st ->
  ∃ pairs, Forall2 (call_between viewpoints pp) pairs (planner_calls st) ∧
    Forall (near_blocked check_line_of_sight viewpoints pp) pairs.
Proof.
  set (Inv := fun s : session =>
         ∃ pairs, Forall2 (call_between viewpoints pp) pairs (planner_calls s) ∧
           Forall (near_blocked check_line_of_sight viewpoints pp) pairs).
  unfold build_matrix, for_range. apply (foldM_invariant Inv).
  - intros a s1 s2 _. apply (foldM_invariant Inv).
    intros b s3 s4 _ (pairs & Hcalls & Hnear) Hplan%plan_pair_outcome. unfold Inv.
    apply pair_outcome_calls in Hplan as [->|(c & -> & Hc & Hab & _)]; [by exists pairs|].
    exists (pairs ++ [(a, b)]). split.
    + apply Forall2_app; [done|]. by repeat constructor.
    + apply Forall_app. split; [done|]. by repeat constructor.
  - exists []. split; constructor.
Qed.

Lemma elem_of_upper_pairs n a b : (a, b) ∈ upper_pairs n <-> a < b < n.
Proof.
  induction n as [|m IH]; simpl.
  - rewrite elem_of_nil. lia.
  - rewrite elem_of_app, IH, list_elem_of_fmap. split.
    + intros [?|(a' & [= -> ->] & Ha%elem_of_seq)]; lia.
    + intros [Hab Hb]. destruct (decide (b = m)) as [->|Hne]; [right|left; lia].
      exists a. split; [done|]. apply elem_of_seq. lia.
Qed.

Lemma length_upper_pairs n : 2 * length (upper_pairs n) = n * (n - 1).
Proof.
  induction n as [|m IH]; [done|]. cbn [upper_pairs].
  rewrite length_app, length_fmap, length_seq.
  replace (S m - 1) with m by lia.
  destruct m as [|m]; [simpl in *; lia|].
  replace (S m - 1) with m in IH by lia. nia.
Qed.

(** X4. With planners that never return the sentinel as a length, the
    double loop of [plan_tour] plans each unordered pair of viewpoints at
    most once: its planner calls are calls for pairwise different pairs
    [(a, b)] with [a < b], so that there are at most [n (n - 1) / 2] of
    them for [n] viewpoints. *)
Theorem pairs_planned_once viewpoints pp st :
  planner_lengths_set astar_generatePath rrt_generatePath ->
  build_matrix viewpoints pp (init_session (length viewpoints)) = Ok st ->
  (∃ pairs, Forall2 (call_between viewpoints pp) pairs (planner_calls st) ∧
     NoDup pairs ∧ Forall (fun ab => ab.1 < ab.2 < length viewpoints) pairs) ∧
  2 * length (planner_calls st) <= length viewpoints * (length viewpoints - 1).
Proof.
  intros Hlengths Hbuild.
  set (n := length viewpoints).
  set (planned := fun s : session =>
         ∃ pairs, Forall2 (call_between viewpoints pp) pairs (planner_calls s) ∧
           NoDup pairs ∧
           Forall (fun ab => ab.1 < ab.2 < n ∧ is_Some (paths s !! ab)) pairs).
  set (rows := fun (a : nat) (s : session) =>
         ∀ a' b, a' < a -> b < n -> a' ≠ b -> is_Some (paths s !! (a', b))).
  set (Inv := fun (a : nat) (s : session) =>
         build_inv check_line_of_sight viewpoints pp s ∧ planned s ∧ rows a s).
  assert (Inv (0 + n) st) as (_ & (pairs & Hcalls & Hnd & Hpairs) & _).
  { unfold build_matrix, for_range in Hbuild.
    eapply (foldM_seq_inv Inv); [| |exact Hbuild].
    - intros a s1 s2 Ha (Hinv1 & Hplanned1 & Hrows1) Hrow.
      assert ((build_inv check_line_of_sight viewpoints pp s2 ∧ planned s2 ∧ rows a s2) ∧
              ∀ b, b ∈ seq 0 n -> a ≠ b -> is_Some (paths s2 !! (a, b)))
        as [(Hinv2 & Hplanned2 & Hrows2) Hdone].
      { eapply (foldM_establish
                  (fun s => build_inv check_line_of_sight viewpoints pp s ∧ planned s ∧ rows a s)
                  (fun b s => a ≠ b -> is_Some (paths s !! (a, b))));
          [| |split; [exact Hinv1|split; [exact Hplanned1|exact Hrows1]]|exact Hrow].
        - intros b s3 s4 Hb%elem_of_seq (Hinv3 & (pairs & Hcalls & Hnd & Hpairs) & Hrows3) Hplan.
          pose proof (plan_pair_outcome _ _ _ _ _ _ Hplan) as Hout.
          assert (∀ k, is_Some (paths s3 !! k) -> is_Some (paths s4 !! k)) as Hmono.
          { intros k. by apply (pair_outcome_paths_mono _ _ _ _ _ _ _ Hout). }
          split; [split; [|split]|].
          + by eapply (plan_pair_build_inv Hlengths).
          + assert (Forall (fun ab => ab.1 < ab.2 < n ∧ is_Some (paths s4 !! ab)) pairs)
              as Hpairs'.
            { eapply Forall_impl; [exact Hpairs|]. intros ab [? ?]. auto. }
            unfold planned.
            destruct (pair_outcome_calls _ _ _ _ _ _ Hout)
              as [->|(c & -> & Hc & (va & vb & Hne & _) & Hu)]; [by exists pairs|].
            simpl in Hne.
            assert (paths s3 !! (a, b) = None) as Hnone.
            { destruct (paths s3 !! (a, b)) as [p|] eqn:Hp; [|done].
              destruct (inv_set _ _ _ _ Hinv3 a b) as (_ & d & Hd & Hs); [by rewrite Hp|].
              by destruct (unset_not_set _ _ _ _ Hu Hd Hs). }
            exists (pairs ++ [(a, b)]). split; [|split].
            * apply Forall2_app; [done|]. by repeat constructor.
            * apply NoDup_app. split; [done|]. split; [|apply NoDup_singleton].
              intros ab Hab ->%list_elem_of_singleton.
              rewrite Forall_forall in Hpairs. destruct (Hpairs _ Hab) as [_ [p Hp]].
              congruence.
            * apply Forall_app. split; [done|]. repeat constructor; simpl.
              -- destruct (decide (b < a)) as [Hlt|]; [|lia].
                 destruct (Hrows3 b a) as [p Hp]; [lia..|].
                 apply (inv_reverse _ _ _ _ Hinv3) in Hp. congruence.
              -- lia.
              -- by eapply plan_pair_stores.
          + intros a' b' Ha' Hb' Hne'. by apply Hmono, Hrows3.
          + by eapply plan_pair_stores.
        - intros b b' s3 s4 _ _ Hdone Hplan Hne.
          eapply pair_outcome_paths_mono; [by eapply plan_pair_outcome|by apply Hdone]. }
      split; [done|]. split; [done|].
      intros a' b Ha' Hb Hne.
      destruct (decide (a' = a)) as [->|]; [|apply Hrows2; [lia|done..]].
      apply Hdone; [apply elem_of_seq; lia|done].
    - split; [apply init_build_inv|]. split.
      + exists []. split; [constructor|]. split; constructor.
      + intros a' b Ha'. lia. }
  split.
  - exists pairs. split; [done|]. split; [done|].
    eapply Forall_impl; [exact Hpairs|]. by intros ab [? _].
  - rewrite <- (Forall2_length _ _ _ Hcalls), <- length_upper_pairs.
    apply Nat.mul_le_mono_l, submseteq_length, NoDup_submseteq; [done|].
    intros [a b] Hab. rewrite Forall_forall in Hpairs.
    destruct (Hpairs _ Hab) as [Hlt _]. by apply elem_of_upper_pairs.
Qed.

(** *** The resolving loop, pair by pair *)

(** One iteration of the resolving loop: the edge is not deferred and
    nothing happens, or it is and the planner's path replaces the stored
    one. *)
Lemma resolve_pair_cases viewpoints pp sequence i st st' :
  resolve_pair viewpoints pp sequence i st = Ok st' ->
  (deferred_edge st sequence i = None ∧ st' = st) ∨
  ∃ a b va vb cfg path distance calls,
    deferred_edge st sequence i = Some (a, b) ∧
    viewpoints !! a = Some va ∧ viewpoints !! b = Some vb ∧ pp = Some cfg ∧
    compute_path (planner_calls st) (pose va) (pose vb) pp (path_planning_method cfg)
      = Ok (path, distance, calls) ∧
    st' = mkSession (tooFarAwayPairs st) (tooFarAwayDistances st) (distances st)
            (<[(a, b) := path]> (paths st)) calls.
Proof.
  unfold resolve_pair, deferred_edge.
  destruct (sequence !! (i - 1)) as [oa|] eqn:Hoa; simpl; [|done].
  destruct (sequence !! i) as [ob|] eqn:Hob; simpl; [|done].
  destruct (deferred st oa ob) as [[a b]|] eqn:Hdef; [|intros [= <-]; by left].
  unfold pose_at.
  destruct (viewpoints !! a) as [va|] eqn:Hva; simpl; [|done].
  destruct (viewpoints !! b) as [vb|] eqn:Hvb; simpl; [|done].
  destruct pp as [cfg|]; simpl; [|done].
  destruct (compute_path _ _ _ _ _) as [[[path distance] calls]|] eqn:Hplan; simpl; [|done].
  intros [= <-]. right. by exists a, b, va, vb, cfg, path, distance, calls.
Qed.

Lemma deferred_elem st a b ab : deferred st a b = Some ab -> ab ∈ tooFarAwayPairs st.
Proof.
  unfold deferred. destruct a as [a|], b as [b|]; try done.
  case_bool_decide; [|done]. by intros [= <-].
Qed.

Lemma deferred_edge_elem st sequence i ab :
  deferred_edge st sequence i = Some ab -> ab ∈ tooFarAwayPairs st.
Proof.
  unfold deferred_edge.
  destruct (sequence !! (i - 1)) as [oa|]; simpl; [|done].
  destruct (sequence !! i) as [ob|]; simpl; [|done]. apply deferred_elem.
Qed.

(** With nothing deferred the resolving loop leaves the session alone. *)
Lemma resolve_deferred_nothing viewpoints pp sequence st :
  tooFarAwayPairs st = [] -> resolve_deferred viewpoints pp sequence st = Ok st.
Proof.
  intros Hnone. unfold resolve_deferred, for_range.
  destruct (foldM_seq_Ok (fun _ s => s = st) (resolve_pair viewpoints pp sequence)
              (length sequence - 1) 1 st) as (s' & Hloop & ->); [|done|done].
  intros i s1 Hi ->. exists st. split; [|done].
  unfold resolve_pair.
  destruct (lookup_lt_is_Some_2 sequence (i - 1)) as [oa ->]; [lia|].
  destruct (lookup_lt_is_Some_2 sequence i) as [ob ->]; [lia|]. simpl.
  destruct (deferred st oa ob) as [ab|] eqn:Hdef; [|done].
  apply deferred_elem in Hdef. rewrite Hnone in Hdef. by apply elem_of_nil in Hdef.
Qed.

(** X5. Without viewpoints, once [setup] has returned, the double loop
    of [plan_tour] plans nothing and [compute_tsp_tour] returns the empty
    tour, which has no start to come back to, whatever the sequencing
    solver answers; the session is left as initialised. So a tour that
    [plan_tour] returns for no viewpoints is empty. *)
Theorem no_viewpoints_empty_tour pp :
  build_matrix [] pp (init_session 0) = Ok (init_session 0) ∧
  compute_tsp_tour [] pp (init_session 0) = Ok ([], init_session 0) ∧
  ∀ tour st, plan_tour [] pp = Ok (tour, st) -> tour = [] ∧ st = init_session 0.
Proof.
  assert (compute_tsp_tour [] pp (init_session 0) = Ok ([], init_session 0)) as Htour.
  { unfold compute_tsp_tour, tour_of_sequence. by rewrite resolve_deferred_nothing. }
  split; [done|]. split; [done|].
  intros tour st. unfold plan_tour.
  intros (_ & _ & (st1 & [= <-] & Hrun)%bind_Ok)%bind_Ok.
  rewrite Htour in Hrun. by injection Hrun as <- <-.
Qed.

(** X6. A single viewpoint never gets a tour: the assembling loop asks for
    the path from the viewpoint to itself, and the double loop stores no
    path for the diagonal. [plan_tour] fails with a [KeyError], or with an
    [IndexError] when the sequencing solver's answer is empty (or with the
    assertion of [setup]). *)
Theorem single_viewpoint_no_tour v pp :
  plan_tour [v] pp =
    match setup pp with
    | Ok _ =>
        match lkh [[0%float]] with
        | [] => Err IndexError
        | _ :: _ => Err KeyError
        end
    | Err e => Err e
    end.
Proof.
  unfold plan_tour. destruct (setup pp) as [[]|e]; simpl; [|done].
  unfold compute_tsp_tour, tour_of_sequence.
  rewrite resolve_deferred_nothing by done. simpl.
  unfold compute_tsp_sequence. simpl.
  change (fill_diagonal 0 (full 1 UNSET)) with [[0%float]].
  unfold assemble, for_range. simpl.
  unfold join_edge. simpl.
  destruct (lkh [[0%float]]) as [|o answer] eqn:Hanswer; [done|].
  assert (∃ o' rest, anchor_sequence (o :: answer) = o' :: rest) as (o' & rest & ->).
  { destruct (decide (None ∈ o :: answer)) as [Hin|Hno].
    - apply list_elem_of_split_l in Hin as (pre & post & -> & Hpre).
      rewrite anchor_sequence_rotates by done. eauto.
    - rewrite anchor_sequence_anchorless by done. eauto. }
  simpl. by destruct o'.
Qed.

(** *** The keys of [paths] *)

(** Paths are stored for pairs of different viewpoints only. *)
Lemma reachable_paths_keys viewpoints pp st :
  reachable viewpoints pp st ->
  ∀ a b, is_Some (paths st !! (a, b)) ->
    a ≠ b ∧ a < length viewpoints ∧ b < length viewpoints.
Proof.
  intros Hreach. revert st Hreach.
  apply (rtc_ind_r (fun st => ∀ a b, is_Some (paths st !! (a, b)) ->
                      a ≠ b ∧ a < length viewpoints ∧ b < length viewpoints)).
  - intros a b [p Hp]. simpl in Hp. by rewrite lookup_empty in Hp.
  - intros st1 st2 Hreach Hstep IH a' b'.
    destruct Hstep as [a b s1 s2 _ _ Hplan|sequence i s1 s2 Hres].
    + apply plan_pair_outcome in Hplan.
      destruct Hplan as [_|va vb Hne Hva Hvb _ _|va vb Hne Hva Hvb _ _ _
                         |va vb cfg path d calls Hne Hva Hvb _ _ _ _ _]; [apply IH|simpl..];
        apply lookup_lt_Some in Hva; apply lookup_lt_Some in Hvb;
        rewrite !lookup_insert_is_Some;
        (intros [[= <- <-]|[_ [[= <- <-]|[_ H]]]]; [auto..|by apply IH]).
    + apply resolve_pair_cases in Hres
        as [[_ ->]|(a & b & va & vb & cfg & path & d & calls & Hdef & Hva & Hvb & _ & _ & ->)];
        [apply IH|].
      simpl. rewrite lookup_insert_is_Some. intros [[= <- <-]|[_ H]]; [|by apply IH].
      apply deferred_edge_elem in Hdef.
      destruct (reachable_registry _ _ _ Hreach) as [Hkeys Hentry].
      apply Hkeys in Hdef as [d' Hd'].
      destruct (Hentry _ _ _ Hd') as (Hne & _).
      apply lookup_lt_Some in Hva. apply lookup_lt_Some in Hvb. done.
Qed.

Lemma anchor_sequence_head (sequence : list (option nat)) :
  None ∈ sequence -> anchor_sequence sequence !! 0 = Some None.
Proof.
  intros (pre & post & -> & Hpre)%list_elem_of_split_l.
  by rewrite anchor_sequence_rotates.
Qed.

(** X7. [plan_tour] returns a tour only from a visiting order whose first
    [n] entries are indices of viewpoints, each different from the next one
    (the first one coming after the last): an entry [None], a viewpoint
    twice in a row or an index out of range makes the assembling loop fail.
    As [compute_tsp_sequence] moves an anchor entry to the front, no tour
    is ever returned from an answer of the sequencing solver that has an
    anchor entry in it. *)
Theorem tour_needs_indices viewpoints pp tour st :
  plan_tour viewpoints pp = Ok (tour, st) ->
  let sequence := compute_tsp_sequence lkh st in
  let n := length viewpoints in
  (∀ a, a < n ->
     ∃ i j, sequence !! a = Some (Some i) ∧ sequence !! ((a + 1) mod n) = Some (Some j) ∧
       i ≠ j ∧ i < n ∧ j < n) ∧
  (1 <= n -> None ∉ lkh (distances st)).
Proof.
  intros Hplan sequence n.
  pose proof (plan_tour_reachable _ _ _ _ Hplan) as Hreach.
  pose proof (reachable_matrix_ok _ _ _ Hreach) as ([Hlen _] & _).
  unfold plan_tour in Hplan.
  apply bind_Ok in Hplan as (_ & _ & (st1 & Hbuild & Htour)%bind_Ok).
  unfold compute_tsp_tour, tour_of_sequence in Htour.
  apply bind_Ok in Htour as (st2 & Hres & (path & Hasm & [= -> ->])%bind_Ok).
  assert (compute_tsp_sequence lkh st1 = sequence) as Hseq.
  { unfold sequence, compute_tsp_sequence.
    by rewrite (resolve_deferred_distances _ _ _ _ _ Hres). }
  rewrite Hseq in Hasm.
  assert (∀ a, a < n ->
            ∃ i j, sequence !! a = Some (Some i) ∧
              sequence !! ((a + 1) mod n) = Some (Some j) ∧ i ≠ j ∧ i < n ∧ j < n) as Hall.
  { intros a Ha.
    apply assemble_inv in Hasm as (edges & _ & _ & Hedges & _); [|lia].
    rewrite Hlen in Hedges. fold n in Hedges.
    destruct (Forall2_lookup_l _ _ _ a a Hedges) as (edge & _ & i & j & Hi & Hj & Hp).
    { apply lookup_seq. lia. }
    exists i, j. do 2 (split; [done|]).
    apply (reachable_paths_keys _ _ _ Hreach). by rewrite Hp. }
  split; [done|].
  intros Hn Hin. destruct (Hall 0) as (i & _ & Hi & _); [lia|].
  apply anchor_sequence_head in Hin.
  unfold sequence, compute_tsp_sequence in Hi. congruence.
Qed.

(** *** What the resolving loop leaves alone *)

(** X8. [compute_tsp_tour] leaves the registry of deferred pairs as it is
    and only ever writes paths of deferred pairs: every other stored path
    is untouched, no path is lost, the earlier planner calls stay in the
    log, at most one call per edge of the sequence is added, and when no
    pair is deferred the session is not changed at all. *)
Theorem resolution_frame viewpoints pp st tour st' :
  compute_tsp_tour viewpoints pp st = Ok (tour, st') ->
  tooFarAwayPairs st' = tooFarAwayPairs st ∧
  tooFarAwayDistances st' = tooFarAwayDistances st ∧
  (∀ k, k ∉ tooFarAwayPairs st -> paths st' !! k = paths st !! k) ∧
  (∀ k, is_Some (paths st !! k) -> is_Some (paths st' !! k)) ∧
  (∃ new, planner_calls st' = planner_calls st ++ new ∧
     length new <= length (compute_tsp_sequence lkh st) - 1) ∧
  (tooFarAwayPairs st = [] -> st' = st).
Proof.
  unfold compute_tsp_tour, tour_of_sequence.
  intros (st1 & Hres & (path & _ & [= _ <-])%bind_Ok)%bind_Ok.
  set (sequence := compute_tsp_sequence lkh st) in *.
  split; [|split; [|split; [|split; [|split]]]].
  6:{ intros Hnone. rewrite resolve_deferred_nothing in Hres by done. congruence. }
  all: unfold resolve_deferred, for_range in Hres.
  - revert Hres. apply (foldM_invariant (fun s => tooFarAwayPairs s = tooFarAwayPairs st)); [|done].
    intros i s1 s2 _ <-.
    by intros [[_ ->]|(a & b & va & vb & cfg & p & d & calls & _ & _ & _ & _ & _ & ->)]%resolve_pair_cases.
  - revert Hres.
    apply (foldM_invariant (fun s => tooFarAwayDistances s = tooFarAwayDistances st)); [|done].
    intros i s1 s2 _ <-.
    by intros [[_ ->]|(a & b & va & vb & cfg & p & d & calls & _ & _ & _ & _ & _ & ->)]%resolve_pair_cases.
  - intros k Hk. revert Hres.
    apply (foldM_invariant
             (fun s => tooFarAwayPairs s = tooFarAwayPairs st ∧ paths s !! k = paths st !! k));
      [|done].
    intros i s1 s2 _ [Hpairs <-].
    intros [[_ ->]|(a & b & va & vb & cfg & p & d & calls & Hdef & _ & _ & _ & _ & ->)]%resolve_pair_cases;
      [done|].
    simpl. split; [done|]. apply lookup_insert_ne.
    apply deferred_edge_elem in Hdef. rewrite Hpairs in Hdef. by intros <-.
  - intros k Hk. revert Hres.
    apply (foldM_invariant (fun s => is_Some (paths s !! k))); [|done].
    intros i s1 s2 _ Hs.
    intros [[_ ->]|(a & b & va & vb & cfg & p & d & calls & _ & _ & _ & _ & _ & ->)]%resolve_pair_cases;
      [done|].
    simpl. rewrite lookup_insert_is_Some. destruct (decide ((a, b) = k)); auto.
  - assert (∃ new, planner_calls st1 = planner_calls st ++ new ∧
              length new <= 1 + (length sequence - 1) - 1) as (new & Hnew & Hlen).
    { revert Hres.
      apply (foldM_seq_inv
               (fun i s => ∃ new, planner_calls s = planner_calls st ++ new ∧ length new <= i - 1)).
      - intros i s1 s2 Hi (new & Hnew & Hlen).
        intros [[_ ->]|(a & b & va & vb & cfg & p & d & calls & _ & _ & _ & _ & Hplan & ->)]%resolve_pair_cases.
        + exists new. split; [done|lia].
        + simpl. apply compute_path_inv in Hplan
            as [(_ & _ & -> & _)|[(_ & _ & _ & _ & ->)|(_ & _ & _ & _ & _ & _ & ->)]].
          * exists new. split; [done|lia].
          * exists (new ++ [mkCall (path_planning_method cfg) (pose va) (pose vb)]).
            rewrite Hnew, <- app_assoc, length_app. split; [done|]. simpl. lia.
          * exists (new ++ [mkCall (path_planning_method cfg) (pose va) (pose vb)]).
            rewrite Hnew, <- app_assoc, length_app. split; [done|]. simpl. lia.
      - exists []. split; [by rewrite app_nil_r|simpl; lia]. }
    exists new. split; [done|lia].
Qed.

(** *** What the resolving loop plans *)

Lemma resolve_loop viewpoints pp sequence len lo st st' :
  (∀ cfg, pp = Some cfg -> path_planning_method cfg ≠ "euclidean"%string) ->
  foldM (resolve_pair viewpoints pp sequence) (seq lo len) st = Ok st' ->
  tooFarAwayPairs st' = tooFarAwayPairs st ∧
  ∃ new, planner_calls st' = planner_calls st ++ new ∧
    Forall2 (call_between viewpoints pp) (omap (deferred_edge st sequence) (seq lo len)) new ∧
    ∀ ab, ab ∈ omap (deferred_edge st sequence) (seq lo len) ∨
          holds_planner_path astar_generatePath rrt_generatePath viewpoints st ab ->
      holds_planner_path astar_generatePath rrt_generatePath viewpoints st' ab.
Proof.
  intros Hmethod. revert lo st. induction len as [|len IH]; intros lo st.
  - intros [= <-]. split; [done|]. exists []. rewrite app_nil_r. split; [done|].
    split; [constructor|]. intros ab [Hin|Hold]; [|done]. by apply elem_of_nil in Hin.
  - intros (st1 & Hpair & Hrest)%foldM_cons_Ok.
    apply IH in Hrest as (Hpairs & new & Hnew & Hcalls & Hplanned).
    apply resolve_pair_cases in Hpair
      as [[Hdef ->]|(a & b & va & vb & cfg & path & d & calls & Hdef & Hva & Hvb & -> & Hplan & ->)].
    + split; [done|]. exists new. split; [done|]. simpl. by rewrite Hdef.
    + simpl in Hpairs.
      change (deferred_edge (mkSession _ _ _ _ _) sequence)
        with (deferred_edge st sequence) in Hcalls, Hplanned.
      split; [done|].
      pose proof (Hmethod cfg eq_refl) as Hne.
      apply compute_path_inv in Hplan
        as [(_ & _ & _ & [?|?])|[(_ & Hm & Hast & Hpath & ->)|(_ & _ & _ & _ & Hrrt & Hpath & ->)]];
        [done..| |].
      * exists (mkCall (path_planning_method cfg) (pose va) (pose vb) :: new).
        simpl in Hnew. rewrite Hnew, <- app_assoc. split; [done|].
        simpl. rewrite Hdef. split.
        { constructor; [|done]. by exists va, vb, cfg. }
        intros ab Hab. apply Hplanned.
        destruct Hab as [[->|Hin]%elem_of_cons|Hold]; [right| by left|right].
        -- exists va, vb, path. simpl. rewrite lookup_insert_eq. do 4 (split; [done|]).
           eexists _, _. by left.
        -- destruct (decide (ab = (a, b))) as [->|Hab].
           ++ exists va, vb, path. simpl. rewrite lookup_insert_eq. do 4 (split; [done|]).
              eexists _, _. by left.
           ++ destruct Hold as (va' & vb' & path' & ? & ? & ? & ?).
              exists va', vb', path'. simpl. by rewrite lookup_insert_ne.
      * exists (mkCall (path_planning_method cfg) (pose va) (pose vb) :: new).
        simpl in Hnew. rewrite Hnew, <- app_assoc. split; [done|].
        simpl. rewrite Hdef. split.
        { constructor; [|done]. by exists va, vb, cfg. }
        intros ab Hab. apply Hplanned.
        destruct Hab as [[->|Hin]%elem_of_cons|Hold]; [right| by left|right].
        -- exists va, vb, path. simpl. rewrite lookup_insert_eq. do 4 (split; [done|]).
           eexists _, _. right. by eexists.
        -- destruct (decide (ab = (a, b))) as [->|Hab].
           ++ exists va, vb, path. simpl. rewrite lookup_insert_eq. do 4 (split; [done|]).
              eexists _, _. right. by eexists.
           ++ destruct Hold as (va' & vb' & path' & ? & ? & ? & ?).
              exists va', vb', path'. simpl. by rewrite lookup_insert_ne.
Qed.

(** X9. With a planning method other than ["euclidean"], the resolving loop
    of [compute_tsp_tour] calls the planner exactly once for each edge
    [(sequence[i-1], sequence[i])] of the sequence that is registered as
    deferred, in the order of the sequence, and for nothing else; when
    [compute_tsp_tour] returns, each of these edges holds a non-empty path
    that a planner has returned for its two viewpoints, not the placeholder
    segment. (The wrap-around edge is not among them.) *)
Theorem resolution_plans_deferred_edges viewpoints pp st tour st' :
  (∀ cfg, pp = Some cfg -> path_planning_method cfg ≠ "euclidean"%string) ->
  compute_tsp_tour viewpoints pp st = Ok (tour, st') ->
  let edges := deferred_edges st (compute_tsp_sequence lkh st) in
  (∃ new, planner_calls st' = planner_calls st ++ new ∧
     Forall2 (call_between viewpoints pp) edges new) ∧
  ∀ a b, (a, b) ∈ edges ->
    ∃ va vb path, viewpoints !! a = Some va ∧ viewpoints !! b = Some vb ∧
      paths st' !! (a, b) = Some path ∧ path ≠ [] ∧
      planner_path astar_generatePath rrt_generatePath (pose va) (pose vb) path.
Proof.
  intros Hmethod Htour edges. unfold compute_tsp_tour, tour_of_sequence in Htour.
  apply bind_Ok in Htour as (st1 & Hres & (path & _ & [= _ <-])%bind_Ok).
  unfold resolve_deferred, for_range in Hres.
  apply resolve_loop in Hres as (_ & new & Hnew & Hcalls & Hplanned); [|done].
  split; [by exists new|].
  intros a b Hab. apply (Hplanned (a, b)). by left.
Qed.

(** X10. With planners whose paths begin with their start pose and end at
    the position of their goal, every path stored when the double loop of
    [plan_tour] completes runs from the pose of the viewpoint it leaves to
    the pose of the viewpoint it leads to, in both directions of a pair:
    setting the heading of the last pose to that of the target viewpoint
    makes the last pose of a planner's path the target's own pose, and so
    the first pose of the reverse path too. *)
Theorem build_paths_exact_ends viewpoints pp st :
  planners_join astar_generatePath rrt_generatePath eq ->
  build_matrix viewpoints pp (init_session (length viewpoints)) = Ok st ->
  ∀ a b path, paths st !! (a, b) = Some path ->
    ∃ va vb mid, viewpoints !! a = Some va ∧ viewpoints !! b = Some vb ∧
      path = pose va :: mid ++ [pose vb].
Proof.
  intros Hjoin Hbuild a b path Hp.
  destruct (build_matrix_paths_join eq Hjoin _ _ _ _ Hbuild) with (a := a) (b := b) (path := path)
    as (va & vb & first & mid & last & Hva & Hvb & -> & -> & ->); [|done|].
  { intros a' b' p. simpl. by rewrite lookup_empty. }
  by exists va, vb, mid.
Qed.

(** X11. With planners whose paths go from the position of their start to
    the position of their goal, every path stored in a session of
    [plan_tour], a resolved one too, has at least two poses, the first at
    the position of the viewpoint it leaves and the last at the position of
    the viewpoint it leads to: the pose that the assembling loop cuts off
    the end of a path is where the next path begins. *)
Theorem paths_join_viewpoints viewpoints pp st :
  planners_join astar_generatePath rrt_generatePath same_point ->
  reachable viewpoints pp st ->
  ∀ a b path, paths st !! (a, b) = Some path ->
    ∃ va vb first mid last, viewpoints !! a = Some va ∧ viewpoints !! b = Some vb ∧
      path = first :: mid ++ [last] ∧
      point first = point (pose va) ∧ point last = point (pose vb).
Proof.
  intros Hjoin Hreach. revert st Hreach.
  apply (rtc_ind_r (paths_join same_point viewpoints)).
  - intros a b path. simpl. by rewrite lookup_empty.
  - intros st1 st2 _ Hstep IH.
    destruct Hstep as [a b s1 s2 _ _ Hplan|sequence i s1 s2 Hres].
    + eapply (pair_outcome_paths_join same_point Hjoin); [|done]. by apply plan_pair_outcome.
    + apply resolve_pair_cases in Hres
        as [[_ ->]|(a & b & va & vb & cfg & path & d & calls & _ & Hva & Hvb & _ & Hplan & ->)];
        [done|].
      intros a' b' path'. simpl. rewrite lookup_insert. case_decide; simplify_eq; [|apply IH].
      intros [= <-].
      apply (compute_path_joins same_point Hjoin) in Hplan
        as (first & mid & last & -> & Hfirst & Hlast).
      by exists va, vb, first, mid, last.
Qed.

(** *** [plan_tour] runs to its end *)

Lemma compute_path_finds calls p q pp cfg method :
  planners_find astar_generatePath rrt_generatePath ->
  method ∈ ALLOWED_PATH_PLANNERS ->
  pp = Some cfg -> has_keys cfg (keys_read method) = true ->
  ∃ path d calls', compute_path calls p q pp method = Ok (path, d, calls').
Proof.
  intros [Hastar Hrrt] Hm -> Hkeys. unfold compute_path, subscript.
  unfold ALLOWED_PATH_PLANNERS in Hm.
  repeat (apply elem_of_cons in Hm as [->|Hm]); [..|by apply elem_of_nil in Hm];
    unfold keys_read in Hkeys; simpl in Hkeys; simpl; rewrite ?Hkeys; simpl.
  - by eexists _, _, _.
  - destruct (Hastar (length calls) p q) as ([|p0 path] & d & -> & Hne); [done|].
    by eexists _, _, _.
  - destruct (Hrrt (length calls) false p q) as ([|p0 path] & d & -> & Hne); [done|].
    by eexists _, _, _.
  - destruct (Hrrt (length calls) true p q) as ([|p0 path] & d & -> & Hne); [done|].
    by eexists _, _, _.
Qed.

Lemma plan_pair_returns viewpoints cfg a b st :
  planners_find astar_generatePath rrt_generatePath ->
  path_planning_method cfg ∈ ALLOWED_PATH_PLANNERS ->
  has_keys cfg (keys_read (path_planning_method cfg)) = true ->
  is_square (length viewpoints) (distances st) ->
  a < length viewpoints -> b < length viewpoints ->
  ∃ st', plan_pair viewpoints (Some cfg) a b st = Ok st'.
Proof.
  intros Hfind Hsetup Hkeys Hsq Ha Hb.
  remember (Some cfg) as pp eqn:Hpp. unfold plan_pair.
  destruct (a =? b); [by eexists|].
  destruct (cell_lt_Some _ _ _ _ Hsq Ha Hb) as [d ->]. simpl.
  destruct (negb _); [by eexists|].
  unfold pose_at.
  destruct (viewpoints !! a) as [va|] eqn:Hva; simpl;
    [|apply lookup_ge_None in Hva; lia].
  destruct (viewpoints !! b) as [vb|] eqn:Hvb; simpl;
    [|apply lookup_ge_None in Hvb; lia].
  rewrite compute_path_euclidean. simpl.
  destruct (check_line_of_sight _ _ _); [by eexists|].
  destruct (_ <? _)%float; [by eexists|].
  assert (configured_method pp = Ok (path_planning_method cfg)) as -> by (by subst pp).
  simpl.
  destruct (compute_path_finds (planner_calls st) (pose va) (pose vb) pp cfg
              (path_planning_method cfg) Hfind Hsetup Hpp Hkeys) as (path & d' & calls' & ->).
  simpl. by eexists.
Qed.

Lemma pair_outcome_stored_inv viewpoints pp a b st st' :
  pair_outcome viewpoints pp a b st st' ->
  stored_inv (length viewpoints) st ->
  stored_inv (length viewpoints) st' ∧ (a ≠ b -> is_Some (paths st' !! (a, b))).
Proof.
  intros Hout [Hsq Hstored].
  assert (∀ g2 path d s, a < length viewpoints -> b < length viewpoints -> a ≠ b ->
            distances s = distances st -> paths s = paths st ->
            stored_inv (length viewpoints) (store_pair a b g2 path d s) ∧
            (a ≠ b -> is_Some (paths (store_pair a b g2 path d s) !! (a, b)))) as Hstore.
  { intros g2 path d s Ha Hb Hne Hd Hp. split; [split|]; simpl; rewrite ?Hd, ?Hp.
    - by apply store_square.
    - intros a' b' d' Hne' Hcell Hset.
      rewrite (cell_store _ _ _ _ _ _ _ Hsq Ha Hb) in Hcell.
      rewrite !lookup_insert_is_Some.
      destruct (decide ((b, a) = (a', b'))); [by left|right]. split; [done|].
      destruct (decide ((a, b) = (a', b'))); [by left|right]. split; [done|].
      rewrite bool_decide_eq_false_2 in Hcell by (intros [?|?]; congruence).
      by eapply Hstored.
    - intros _. rewrite !lookup_insert_is_Some.
      destruct (decide ((b, a) = (a, b))); [by left|right]. split; [done|]. by left. }
  destruct Hout as [[->|(d & Hd & Hs)]|va vb Hne Hva Hvb _ _|va vb Hne Hva Hvb _ _ _
                    |va vb cfg path d calls Hne Hva Hvb _ _ _ _ _].
  - done.
  - split; [done|]. intros Hne. by eapply Hstored.
  - apply Hstore; try done; by eapply lookup_lt_Some.
  - apply Hstore; try done; by eapply lookup_lt_Some.
  - apply Hstore; try done; by eapply lookup_lt_Some.
Qed.

(** The double loop runs to its end and leaves a path for every pair. *)
Lemma build_matrix_returns viewpoints cfg :
  planners_find astar_generatePath rrt_generatePath ->
  path_planning_method cfg ∈ ALLOWED_PATH_PLANNERS ->
  has_keys cfg (keys_read (path_planning_method cfg)) = true ->
  ∃ st, build_matrix viewpoints (Some cfg) (init_session (length viewpoints)) = Ok st ∧
    ∀ a b, a < length viewpoints -> b < length viewpoints -> a ≠ b ->
      is_Some (paths st !! (a, b)).
Proof.
  intros Hfind Hsetup Hkeys. set (n := length viewpoints).
  set (rows := fun (a : nat) (s : session) =>
         ∀ a' b, a' < a -> b < n -> a' ≠ b -> is_Some (paths s !! (a', b))).
  assert (∀ a b s s', plan_pair viewpoints (Some cfg) a b s = Ok s' ->
            ∀ k, is_Some (paths s !! k) -> is_Some (paths s' !! k)) as Hmono.
  { intros a b s s' Hplan%plan_pair_outcome k.
    by apply (pair_outcome_paths_mono _ _ _ _ _ _ _ Hplan). }
  unfold build_matrix, for_range. fold n.
  destruct (foldM_seq_Ok (fun a s => stored_inv n s ∧ rows a s)
              (fun a => foldM (fun b => plan_pair viewpoints (Some cfg) a b) (seq 0 n))
              n 0 (init_session n)) as (st & Hbuild & _ & Hrows).
  - intros a s1 Ha [Hinv1 Hrows1].
    destruct (foldM_seq_Ok
                (fun b s => stored_inv n s ∧ rows a s ∧
                   ∀ b', b' < b -> a ≠ b' -> is_Some (paths s !! (a, b')))
                (fun b => plan_pair viewpoints (Some cfg) a b) n 0 s1)
      as (s2 & Hrow & Hinv2 & Hrows2 & Hdone).
    + intros b s3 Hb (Hinv3 & Hrows3 & Hdone3).
      destruct (plan_pair_returns viewpoints cfg a b s3) as [s4 Hplan];
        [done|done|done|by destruct Hinv3|lia|lia|].
      exists s4. split; [done|].
      destruct (pair_outcome_stored_inv _ _ _ _ _ _ (plan_pair_outcome _ _ _ _ _ _ Hplan) Hinv3)
        as [Hinv4 Hab].
      split; [done|]. split.
      * intros a' b' Ha' Hb' Hne. eapply Hmono; [done|]. by apply Hrows3.
      * intros b' Hb' Hne. destruct (decide (b' = b)) as [->|]; [by apply Hab|].
        eapply Hmono; [done|]. apply Hdone3; [lia|done].
    + split; [done|]. split; [done|]. intros b' Hb'. lia.
    + exists s2. split; [done|]. split; [done|].
      intros a' b Ha' Hb Hne. destruct (decide (a' = a)) as [->|].
      * apply Hdone; [lia|done].
      * apply Hrows2; [lia|done..].
  - split; [|intros a' b Ha'; lia].
    split; [apply init_distances_square|].
    intros a b d Hne Hcell Hset.
    pose proof (cell_Some_lt _ _ _ _ _ (init_distances_square _) Hcell) as [Ha Hb].
    simpl in Hcell. rewrite cell_init_distances in Hcell by done.
    rewrite decide_False in Hcell by done. by injection Hcell as <-.
  - exists st. split; [done|]. intros a b Ha Hb Hne. apply Hrows; [lia|done..].
Qed.

(** The resolving loop runs to its end, and loses no path. *)
Lemma resolve_deferred_returns viewpoints cfg sequence st :
  planners_find astar_generatePath rrt_generatePath ->
  path_planning_method cfg ∈ ALLOWED_PATH_PLANNERS ->
  has_keys cfg (keys_read (path_planning_method cfg)) = true ->
  reachable viewpoints (Some cfg) st ->
  ∃ st', resolve_deferred viewpoints (Some cfg) sequence st = Ok st' ∧
    reachable viewpoints (Some cfg) st' ∧
    ∀ k, is_Some (paths st !! k) -> is_Some (paths st' !! k).
Proof.
  intros Hfind Hsetup Hread Hreach.
  remember (Some cfg) as pp eqn:Hpp.
  unfold resolve_deferred, for_range.
  destruct (foldM_seq_Ok
              (fun _ s => reachable viewpoints pp s ∧
                 ∀ k, is_Some (paths st !! k) -> is_Some (paths s !! k))
              (resolve_pair viewpoints pp sequence) (length sequence - 1) 1 st)
    as (st' & Hloop & Hreach' & Hmono); [|done|by exists st'].
  intros i s1 Hi [Hreach1 Hmono1].
  assert (∃ s2, resolve_pair viewpoints pp sequence i s1 = Ok s2) as [s2 Hres].
  { unfold resolve_pair.
    destruct (lookup_lt_is_Some_2 sequence (i - 1)) as [oa ->]; [lia|].
    destruct (lookup_lt_is_Some_2 sequence i) as [ob ->]; [lia|]. simpl.
    destruct (deferred s1 oa ob) as [[a b]|] eqn:Hdef; [|by eexists].
    apply deferred_elem in Hdef.
    destruct (reachable_registry _ _ _ Hreach1) as [Hkeys Hentry].
    apply Hkeys in Hdef as [d Hd].
    destruct (Hentry _ _ _ Hd) as (_ & _ & _ & _ & va & vb & Hva & Hvb & _).
    unfold pose_at. rewrite Hva, Hvb. simpl.
    assert (configured_method pp = Ok (path_planning_method cfg)) as -> by (by subst pp).
    simpl.
    destruct (compute_path_finds (planner_calls s1) (pose va) (pose vb) pp cfg
                (path_planning_method cfg) Hfind Hsetup Hpp Hread) as (path & d' & calls' & ->).
    simpl. by eexists. }
  exists s2. split; [done|]. split.
  - eapply rtc_r; [exact Hreach1|]. by eapply step_resolve_pair.
  - intros k Hk. apply Hmono1 in Hk.
    apply resolve_pair_cases in Hres
      as [[_ ->]|(a & b & va & vb & cfg' & p & d & calls & _ & _ & _ & _ & _ & ->)]; [done|].
    simpl. rewrite lookup_insert_is_Some. destruct (decide ((a, b) = k)); auto.
Qed.

(** The assembling loop runs to its end on a visiting order of all
    viewpoints when every pair has its path. *)
Lemma assemble_returns viewpoints st sequence :
  length (distances st) = length viewpoints ->
  length viewpoints ≠ 1 ->
  sequence ≡ₚ Some <$> seq 0 (length viewpoints) ->
  (∀ a b, a < length viewpoints -> b < length viewpoints -> a ≠ b ->
     is_Some (paths st !! (a, b))) ->
  ∃ tour, assemble viewpoints st sequence = Ok tour.
Proof.
  intros Hlen Hn Hperm Hpaths. unfold assemble, for_range. rewrite Hlen.
  set (n := length viewpoints) in *.
  assert (NoDup sequence) as Hnd.
  { rewrite Hperm. apply NoDup_fmap_2; [apply _|apply NoDup_seq]. }
  assert (∀ a, a < n -> ∃ i, sequence !! a = Some (Some i) ∧ i < n) as Hentry.
  { intros a Ha.
    destruct (lookup_lt_is_Some_2 sequence a) as [o Ho].
    { rewrite Hperm, length_fmap, length_seq. done. }
    assert (o ∈ Some <$> seq 0 n) as Hin.
    { rewrite <- Hperm. by eapply list_elem_of_lookup_2. }
    apply list_elem_of_fmap in Hin as (i & -> & Hi%elem_of_seq).
    exists i. split; [done|lia]. }
  destruct (foldM_seq_Ok (fun _ _ => True) (join_edge viewpoints st sequence n) n 0 [])
    as (tour & Hloop & _); [|done|by exists tour].
  intros a acc Ha _.
  assert ((a + 1) mod n < n) as Hb by (apply Nat.mod_upper_bound; lia).
  destruct (Hentry a) as (i & Hi & Hin); [lia|].
  destruct (Hentry ((a + 1) mod n) Hb) as (j & Hj & Hjn).
  assert (i ≠ j) as Hne.
  { intros <-. pose proof (NoDup_lookup _ _ _ _ Hnd Hi Hj) as Heq.
    destruct (decide (a + 1 = n)) as [Hlast|Hmid].
    - rewrite Hlast, Nat.Div0.mod_same in Heq. lia.
    - rewrite Nat.mod_small in Heq by lia. lia. }
  destruct (Hpaths i j Hin Hjn Hne) as [path Hpath].
  destruct (lookup_lt_is_Some_2 viewpoints j Hjn) as [vj Hvj].
  unfold join_edge. rewrite Hi, Hj. simpl. rewrite Hpath. simpl.
  destruct (a =? n - 1); [|by eexists].
  unfold pose_at. rewrite Hvj. simpl. by eexists.
Qed.

(** X12. Once [setup] has returned, the rest of [plan_tour] runs to its
    end: the double loop completes and [compute_tsp_tour] returns a tour,
    whenever the configured path planning method is an allowed one, the
    dictionary holds the keys the planner of that method is built from, the
    planners always find a path, the sequencing solver answers with a
    visiting order of all the viewpoints, and there is not exactly one
    viewpoint. *)
Theorem planning_returns viewpoints cfg :
  path_planning_method cfg ∈ ALLOWED_PATH_PLANNERS ->
  has_keys cfg (keys_read (path_planning_method cfg)) = true ->
  planners_find astar_generatePath rrt_generatePath ->
  (∀ m, lkh m ≡ₚ Some <$> seq 0 (length m)) ->
  length viewpoints ≠ 1 ->
  ∃ built tour st,
    build_matrix viewpoints (Some cfg) (init_session (length viewpoints)) = Ok built ∧
    compute_tsp_tour viewpoints (Some cfg) built = Ok (tour, st).
Proof.
  intros Hallowed Hkeys Hfind Hlkh Hn.
  destruct (build_matrix_returns viewpoints cfg Hfind Hallowed Hkeys)
    as (st1 & Hbuild & Hpaths).
  pose proof (build_matrix_reachable _ _ _ Hbuild) as Hreach1.
  set (sequence := compute_tsp_sequence lkh st1).
  destruct (resolve_deferred_returns viewpoints cfg sequence st1 Hfind Hallowed Hkeys Hreach1)
    as (st2 & Hres & Hreach2 & Hmono).
  pose proof (reachable_matrix_ok _ _ _ Hreach1) as ([Hlen1 _] & _).
  pose proof (reachable_matrix_ok _ _ _ Hreach2) as ([Hlen2 _] & _).
  assert (sequence ≡ₚ Some <$> seq 0 (length viewpoints)) as Hperm.
  { unfold sequence, compute_tsp_sequence.
    rewrite anchor_sequence_anchorless; [by rewrite Hlkh, Hlen1|].
    rewrite Hlkh. by intros (i & ? & _)%list_elem_of_fmap. }
  destruct (assemble_returns viewpoints st2 sequence Hlen2 Hn Hperm) as [tour Hasm].
  { intros a b Ha Hb Hne. by apply Hmono, Hpaths. }
  exists st1, tour, st2. split; [done|].
  unfold compute_tsp_tour, tour_of_sequence. fold sequence.
  rewrite Hres. simpl. by rewrite Hasm.
Qed.

(** *** The tour goes through the viewpoints *)

Lemma elem_of_concat {A} (x : A) (l : list A) (ls : list (list A)) :
  x ∈ l -> l ∈ ls -> x ∈ concat ls.
Proof.
  intros Hx Hl. induction ls as [|l' ls IH]; [by apply elem_of_nil in Hl|].
  simpl. apply elem_of_app.
  apply elem_of_cons in Hl as [->|Hl]; [by left|right; by apply IH].
Qed.

Lemma tour_visits (R : relation Pose) `{!Reflexive R} viewpoints pp tour st a :
  planners_join astar_generatePath rrt_generatePath R ->
  plan_tour viewpoints pp = Ok (tour, st) ->
  a < length viewpoints ->
  ∃ i v p, compute_tsp_sequence lkh st !! a = Some (Some i) ∧ viewpoints !! i = Some v ∧
    p ∈ tour ∧ R p (pose v).
Proof.
  intros Hjoin Hplan Ha.
  pose proof (plan_tour_reachable _ _ _ _ Hplan) as Hreach.
  pose proof (reachable_paths_start R Hjoin _ _ _ Hreach) as Hst.
  pose proof (reachable_matrix_ok _ _ _ Hreach) as ([Hlen _] & _).
  unfold plan_tour in Hplan.
  apply bind_Ok in Hplan as (_ & _ & (st1 & Hbuild & Htour)%bind_Ok).
  unfold compute_tsp_tour, tour_of_sequence in Htour.
  apply bind_Ok in Htour as (st2 & Hres & (path & Hasm & [= -> ->])%bind_Ok).
  assert (compute_tsp_sequence lkh st1 = compute_tsp_sequence lkh st) as Hseq.
  { unfold compute_tsp_sequence.
    by rewrite (resolve_deferred_distances _ _ _ _ _ Hres). }
  rewrite Hseq in Hasm.
  apply assemble_inv in Hasm as (edges & j & vj & Hedges & _ & _ & ->); [|lia].
  rewrite Hlen in Hedges.
  pose proof (tour_edges_legs _ _ _ _ _ _ _ Hst Hedges) as Hlegs.
  destruct (Forall2_lookup_l _ _ _ a a Hlegs)
    as (leg & Hleg & i & v & first & last & Hi & Hv & Hhead & Hfirst & _).
  { apply lookup_seq. lia. }
  exists i, v, first. do 2 (split; [done|]). split; [|done].
  apply elem_of_app. left. apply (elem_of_concat _ leg).
  - destruct leg as [|p leg]; [done|]. injection Hhead as ->. by left.
  - by eapply list_elem_of_lookup_2.
Qed.

(** X18. With planners whose paths go from the position of their start to
    the position of their goal, the tour [plan_tour] returns has a pose at
    the position of each viewpoint that stands among the first [n] entries
    of the visiting order; when the planners' paths begin with their start
    pose itself, the pose of that viewpoint, heading included, is on the
    tour. *)
Theorem tour_visits_viewpoints viewpoints pp tour st :
  planners_join astar_generatePath rrt_generatePath same_point ->
  plan_tour viewpoints pp = Ok (tour, st) ->
  ∀ a, a < length viewpoints ->
    ∃ i v p, compute_tsp_sequence lkh st !! a = Some (Some i) ∧ viewpoints !! i = Some v ∧
      p ∈ tour ∧ point p = point (pose v) ∧
      (planners_join astar_generatePath rrt_generatePath eq -> pose v ∈ tour).
Proof.
  intros Hjoin Hplan a Ha.
  destruct (tour_visits same_point viewpoints pp tour st a Hjoin Hplan Ha)
    as (i & v & p & Hi & Hv & Hp & Hpv).
  exists i, v, p. do 4 (split; [done|]).
  intros Hexact.
  destruct (tour_visits eq viewpoints pp tour st a Hexact Hplan Ha)
    as (i' & v' & p' & Hi' & Hv' & Hp' & ->).
  assert (i' = i) as -> by congruence. assert (v' = v) as -> by congruence. done.
Qed.

End Solver.

(** C8, as amended. [compute_tsp_sequence] rotates the solver's answer,
    keeping its cyclic order, so that it begins at the first anchor entry
    [None] when there is one; an answer without anchor is returned as it is,
    the empty one too, and the session goes on with it; an empty answer then
    makes [compute_tsp_tour] fail with an [IndexError] as soon as there is a
    viewpoint. *)
Theorem sequence_rotated_to_anchor (lkh : list (list float) -> list (option nat))
    (st : session) :
  let answer := lkh (distances st) in
  (∀ pre post, answer = pre ++ None :: post -> None ∉ pre ->
     compute_tsp_sequence lkh st = None :: post ++ pre) ∧
  (None ∉ answer -> compute_tsp_sequence lkh st = answer) ∧
  (answer = [] -> 1 <= length (distances st) ->
     ∀ astar_generatePath rrt_generatePath viewpoints pp,
       compute_tsp_tour astar_generatePath rrt_generatePath lkh viewpoints pp st
         = Err IndexError).
Proof.
  intros answer. unfold compute_tsp_tour, compute_tsp_sequence. fold answer.
  split; [|split].
  - intros pre post -> Hno. by apply anchor_sequence_rotates.
  - apply anchor_sequence_anchorless.
  - intros -> Hn astar rrt viewpoints pp. simpl. by apply empty_sequence_fails.
Qed.

(** C2, as amended. Resolving a deferred pair of the sequence stores the
    path of [compute_path] under [paths[(a, b)]] and drops its length: one
    iteration of the resolving loop, and [compute_tsp_tour] as a whole,
    leave the distance matrix as it was. In scenario B the pair with
    estimate 8 is resolved by one call of the planner and its cell still
    holds the placeholder 24 at the end. *)
Theorem resolution_keeps_distances
    (astar_generatePath : nat -> Pose -> Pose -> option (list Pose) * float)
    (rrt_generatePath : nat -> bool -> Pose -> Pose -> option (list Pose) * float)
    (lkh : list (list float) -> list (option nat))
    (viewpoints : list Viewpoint) (pp : option PathPlanner) :
  (∀ sequence i st st',
     resolve_pair astar_generatePath rrt_generatePath viewpoints pp sequence i st = Ok st' ->
     distances st' = distances st ∧
     (st' = st ∨
      ∃ a b va vb cfg path distance calls,
        sequence !! (i - 1) = Some (Some a) ∧ sequence !! i = Some (Some b) ∧
        (a, b) ∈ tooFarAwayPairs st ∧
        viewpoints !! a = Some va ∧ viewpoints !! b = Some vb ∧ pp = Some cfg ∧
        compute_path astar_generatePath rrt_generatePath (planner_calls st) (pose va) (pose vb)
          pp (path_planning_method cfg) = Ok (path, distance, calls) ∧
        paths st' = <[(a, b) := path]> (paths st) ∧
        planner_calls st' = calls)) ∧
  (∀ st tour st',
     compute_tsp_tour astar_generatePath rrt_generatePath lkh viewpoints pp st
       = Ok (tour, st') ->
     distances st' = distances st) ∧
  (∃ tour st, detour_run = Ok (tour, st) ∧
     tooFarAwayDistances st !! (0, 1) = Some 8%float ∧
     planner_calls st = [mkCall "rrtstar" (Pose4 0 0 0 0) (Pose4 8 0 0 0)] ∧
     cell (distances st) 0 1 = Some 24%float).
Proof.
  split; [|split].
  - intros sequence i st st' Hres.
    split; [by eapply resolve_pair_distances|].
    apply resolve_pair_inv in Hres
      as [->|(a & b & va & vb & cfg & path & d & calls & H1 & H2 & H3 & H4 & H5 & H6 & H7 & ->)];
      [by left|right].
    exists a, b, va, vb, cfg, path, d, calls. by repeat split.
  - intros st tour st'. unfold compute_tsp_tour. apply tour_of_sequence_distances.
  - eexists _, _. split; [vm_compute; reflexivity|].
    split; [vm_compute; reflexivity|]. split; [reflexivity|vm_compute; reflexivity].
Qed.

(** ** Scenario A *)

Lemma square_matrix_built astar rrt :
  ∃ st, build_matrix clear_sight astar rrt square_corners None (init_session 4) = Ok st ∧
    distances st = square_matrix ∧ tooFarAwayPairs st = [] ∧ planner_calls st = [].
Proof. eexists. split; [vm_compute; reflexivity|]. by vm_compute. Qed.


Lemma square_tour astar rrt lkh st :
  build_matrix clear_sight astar rrt square_corners None (init_session 4) = Ok st ->
  distances st = square_matrix ->
  optimal_order square_matrix (lkh square_matrix) ->
  ∃ tour st', tour_of_sequence astar rrt square_corners None
                (anchor_sequence (lkh square_matrix)) st = Ok (tour, st') ∧
    distances st' = square_matrix ∧ planner_calls st' = [] ∧
    length tour = 5 ∧ head tour = last tour ∧
    steps_of_length 10 tour = true ∧ path_length tour = 40%float.
Proof.
  intros Hbuild Hdist [Hperm Hopt].
  vm_compute in Hbuild. injection Hbuild as <-. clear Hdist.
  symmetry in Hperm. apply permutations_Permutation in Hperm.
  change (length square_matrix) with 4 in *.
  remember (lkh square_matrix) as answer eqn:Hanswer. clear Hanswer.
  vm_compute in Hperm.
  repeat (apply elem_of_cons in Hperm as [Heq|Hperm]; [square_order Hopt Heq|]).
  by apply elem_of_nil in Hperm.
Qed.


(** ** Scenario B and the wall *)

(** C1, at a failing input. Three viewpoints with a wall between the first
    and the last, the solver answering [[0, 1, 2]]: the pair [(2, 0)] is
    deferred and is the wrap-around edge of the tour, yet no planner is ever
    called and the tour ends with the straight placeholder segment from
    viewpoint 2 back to viewpoint 0. *)
Theorem wrap_around_edge_left_unresolved :
  ∃ tour st,
    plan_tour wall_on_axis no_astar detour lkh_in_order triangle rrtstar_config
      = Ok (tour, st) ∧
    compute_tsp_sequence lkh_in_order st = [Some 0; Some 1; Some 2] ∧
    (2, 0) ∈ tooFarAwayPairs st ∧
    planner_calls st = [] ∧
    paths st !! (2, 0) = Some [Pose4 8 0 0 0; Pose4 0 0 0 0] ∧
    tour = [Pose4 0 0 0 0; Pose4 4 3 0 0; Pose4 8 0 0 0; Pose4 0 0 0 0].
Proof.
  eexists _, _. split; [vm_compute; reflexivity|].
  split; [vm_compute; reflexivity|].
  split; [apply elem_of_cons; right; apply elem_of_cons; by left|].
  split; [reflexivity|]. split; [vm_compute; reflexivity|reflexivity].
Qed.

(** C3, at a failing input. Scenario B with the solver answering [[0, 1]]:
    the deferred pair [(0, 1)] is resolved to the planner's three-pose path,
    but [paths[(1, 0)]] still holds the two-pose placeholder, which is not
    its reverse. *)
Theorem resolved_pair_not_reversed :
  ∃ tour st,
    plan_tour blocked no_astar detour lkh_in_order two_apart rrtstar_config = Ok (tour, st) ∧
    paths st !! (0, 1) = Some [Pose4 0 0 0 0; Pose4 4 3 0 0; Pose4 8 0 0 0] ∧
    paths st !! (1, 0) = Some [Pose4 8 0 0 0; Pose4 0 0 0 0] ∧
    paths st !! (1, 0) ≠ (@rev Pose) <$> paths st !! (0, 1).
Proof.
  eexists _, _. split; [vm_compute; reflexivity|].
  split; [vm_compute; reflexivity|]. split; [vm_compute; reflexivity|].
  vm_compute. discriminate.
Qed.

(** C2, counterexample. In scenario B the deferred pair [(0, 1)] (estimate
    8, placeholder 24) is on the tour and is resolved by one call of the
    planner, which returns a path of length 10; the matrix still holds 24
    afterwards, not 10. *)
Lemma resolved_distance_keeps_placeholder :
  ∃ tour st path,
    plan_tour blocked no_astar detour lkh_in_order two_apart rrtstar_config = Ok (tour, st) ∧
    (0, 1) ∈ tooFarAwayPairs st ∧
    planner_calls st = [mkCall "rrtstar" (Pose4 0 0 0 0) (Pose4 8 0 0 0)] ∧
    detour 0 true (Pose4 0 0 0 0) (Pose4 8 0 0 0) = (Some path, 10%float) ∧
    paths st !! (0, 1) = Some path ∧
    cell (distances st) 0 1 = Some 24%float ∧
    cell (distances st) 0 1 ≠ Some 10%float.
Proof.
  eexists _, _, _. split; [vm_compute; reflexivity|].
  split; [apply elem_of_cons; by left|].
  split; [reflexivity|]. split; [reflexivity|]. split; [vm_compute; reflexivity|].
  split; [vm_compute; reflexivity|].
  vm_compute. intros H. float_neq H.
Qed.

(** C8, counterexample. In scenario B the solver's answer [[0, 1]] has no
    anchor; [compute_tsp_sequence] returns it unchanged and [plan_tour]
    returns a tour. *)
Lemma anchorless_sequence_is_used :
  ∃ tour st,
    plan_tour blocked no_astar detour lkh_in_order two_apart rrtstar_config = Ok (tour, st) ∧
    lkh_in_order (distances st) = [Some 0; Some 1] ∧
    (None ∉ lkh_in_order (distances st)) ∧
    compute_tsp_sequence lkh_in_order st = [Some 0; Some 1].
Proof.
  eexists _, _. split; [vm_compute; reflexivity|].
  split; [vm_compute; reflexivity|]. split; [|vm_compute; reflexivity].
  vm_compute. intros H. apply elem_of_cons in H as [H|H]; [done|].
  apply elem_of_cons in H as [H|H]; [done|]. by apply elem_of_nil in H.
Qed.


(** The contract of the planners is needed for the closure: in scenario D
    with a planner whose path begins at [(1, 1)] instead of its start, the
    tour begins there and ends at viewpoint 0. *)
Lemma stray_planner_opens_tour :
  ∃ tour st first start,
    plan_tour blocked no_astar stray lkh_in_order two_near rrtstar_config = Ok (tour, st) ∧
    tour = [Pose4 1 1 0 0; Pose4 4 0 0 0; Pose4 0 0 0 0] ∧
    head tour = Some first ∧ last tour = Some start ∧
    (x (point first) =? x (point start))%float = false.
Proof.
  eexists _, _, _, _. split; [vm_compute; reflexivity|].
  split; [reflexivity|]. split; [reflexivity|]. split; reflexivity.
Qed.

(** ** The greedy assignment *)

Lemma remove_dups_length_le (l : list Z) : length (remove_dups l) <= length l.
Proof.
  induction l as [|v l IH]; simpl; [done|]. destruct (decide_rel _ _ _); simpl; lia.
Qed.

Lemma remove_dups_same_length (l : list Z) :
  length l = length (remove_dups l) <-> NoDup l.
Proof.
  induction l as [|v l IH]; simpl.
  - split; [constructor|done].
  - pose proof (remove_dups_length_le l) as Hle.
    destruct (decide_rel _ _ _) as [Hin|Hnin]; simpl.
    + split; [lia|]. intros Hnd. apply NoDup_cons in Hnd as [? _]. done.
    + split.
      * intros [= Hlen]. apply NoDup_cons. split; [done|]. by apply IH.
      * intros [_ Hnd]%NoDup_cons. f_equal. by apply IH.
Qed.

(** Fewer than [k] robots are taken: one below [k] is free. *)
Lemma free_robot (us : list nat) k :
  NoDup us -> length us < k -> ∃ u, u < k ∧ u ∉ us.
Proof.
  intros Hnd Hlen.
  destruct (decide (Exists (fun u => u ∉ us) (seq 0 k))) as [Hex|Hall].
  - apply Exists_exists in Hex as (u & Hu%elem_of_seq & Hfree). exists u. split; [lia|done].
  - exfalso. apply not_Exists_Forall in Hall; [|apply _].
    rewrite Forall_forall in Hall.
    assert (seq 0 k ⊆+ us) as Hsub.
    { apply NoDup_submseteq; [apply NoDup_seq|]. intros u Hu.
      specialize (Hall u Hu). simpl in Hall. by apply dec_stable in Hall. }
    apply submseteq_length in Hsub. rewrite length_seq in Hsub. lia.
Qed.

Section Centre.
Variable d_mat : list (list float).
Variable k : nat.
Variable c : nat.
(** The robots of the earlier centres, and the entries of the later ones. *)
Variable us : list nat.
Variable rest : list Z.
Hypothesis Hsq : is_square k d_mat.
Hypothesis Hc : c = length us.
Hypothesis Hck : c < k.
Hypothesis Hrest : Forall (fun v => v = (-1)%Z) rest.

Local Abbreviation entries := (entries us rest).
Local Abbreviation inner_inv := (inner_inv d_mat c us).

Lemma entries_insert v w : <[c := w]> (entries v) = entries w.
Proof.
  unfold entries. rewrite insert_app_r_alt by (rewrite length_fmap; lia).
  rewrite length_fmap, Hc, Nat.sub_diag. done.
Qed.

Lemma elem_of_entries u v :
  Z.of_nat u ∈ entries v <-> u ∈ us ∨ v = Z.of_nat u.
Proof.
  unfold entries. rewrite elem_of_app, elem_of_cons, list_elem_of_fmap.
  split.
  - intros [(u' & Hu & Hin)|[->|Hin]]; [left|by right|].
    + apply Nat2Z.inj in Hu. by subst.
    + rewrite Forall_forall in Hrest. apply Hrest in Hin. lia.
  - intros [Hin | ->]; [left; by exists u|right; by left].
Qed.

Lemma try_uav_inv j least v :
  j < k -> inner_inv j least v ->
  ∃ least' v', try_uav d_mat c j (least, entries v) = Ok (least', entries v') ∧
    inner_inv (S j) least' v'.
Proof.
  intros Hj [Hv Hnear]. unfold try_uav.
  destruct (cell_lt_Some _ _ _ _ Hsq Hck Hj) as [d Hd]. rewrite Hd. simpl.
  destruct (d <? least)%float eqn:Hlt.
  - case_bool_decide as Hfree.
    + rewrite entries_insert. exists d, (Z.of_nat j). split; [done|].
      rewrite elem_of_entries in Hfree.
      split; [right; exists j; repeat split; [lia|tauto|done]|].
      intros u' d' Hu' Hfree' Hd'.
      destruct (decide (u' = j)) as [->|Hne].
      * assert (d' = d) as -> by congruence. apply ltb_irrefl.
      * eapply not_below_new_least; [done|]. eapply Hnear; [|done..]. lia.
    + exists least, v. split; [done|]. split.
      * destruct Hv as [?|(u & ? & ? & ? & ?)]; [by left|right].
        exists u. repeat split; [done|lia|done..].
      * apply elem_of_entries in Hfree.
        intros u' d' Hu' Hfree' Hd'.
        destruct (decide (u' = j)) as [->|Hne]; [|eapply Hnear; [|done..]; lia].
        destruct Hfree as [?| ->]; [done|].
        destruct Hv as [[? _]|(u & Hu & ? & _)]; [lia|].
        apply Nat2Z.inj in Hu. lia.
  - exists least, v. split; [done|]. split.
    + destruct Hv as [?|(u & ? & ? & ? & ?)]; [by left|right].
      exists u. repeat split; [done|lia|done..].
    + intros u' d' Hu' Hfree' Hd'.
      destruct (decide (u' = j)) as [->|Hne]; [congruence|].
      eapply Hnear; [|done..]. lia.
Qed.

Lemma try_uavs_inv len lo least v :
  lo + len <= k -> inner_inv lo least v ->
  ∃ least' v', foldM (try_uav d_mat c) (seq lo len) (least, entries v)
                 = Ok (least', entries v') ∧
    inner_inv (lo + len) least' v'.
Proof.
  revert lo least v. induction len as [|len IH]; intros lo least v Hle Hinv.
  - exists least, v. split; [done|]. by rewrite Nat.add_0_r.
  - destruct (try_uav_inv lo least v) as (least1 & v1 & Hstep & Hinv1); [lia|done|].
    destruct (IH (S lo) least1 v1) as (least2 & v2 & Hloop & Hinv2); [lia|done|].
    exists least2, v2. simpl. rewrite Hstep. simpl.
    split; [done|]. by replace (lo + S len) with (S lo + len) by lia.
Qed.

(** One centre: it takes a free robot, none of the free ones being
    nearer. *)
Lemma assign_centre_takes :
  finite_matrix d_mat -> NoDup us ->
  ∃ u, assign_centre d_mat k c (entries (-1)) = Ok (entries (Z.of_nat u)) ∧
    u < k ∧ (u ∉ us) ∧
    ∀ u' d d', u' < k -> u' ∉ us -> cell d_mat c u = Some d ->
      cell d_mat c u' = Some d' -> (d' <? d)%float = false.
Proof.
  intros Hfin Hnd. unfold assign_centre, for_range.
  destruct (try_uavs_inv k 0 infinity (-1)) as (least & v & Hloop & [Hv Hnear]); [lia| |].
  { split; [by left|]. intros u' d' Hu'. lia. }
  rewrite Hloop. simpl.
  destruct Hv as [[-> ->]|(u & -> & Hu & Hfree & Hd)].
  - exfalso. destruct (free_robot us k Hnd) as (u & Hu & Hfree); [lia|].
    destruct (cell_lt_Some _ _ _ _ Hsq Hck Hu) as [d Hd].
    specialize (Hnear u d Hu Hfree Hd). by rewrite (Hfin _ _ _ Hd) in Hnear.
  - exists u. split; [done|]. split; [lia|]. split; [done|].
    intros u' d d' Hu' Hfree' Hdu Hd'. assert (d = least) as -> by congruence.
    by eapply Hnear.
Qed.
End Centre.

Section Assignment.
Variable d_mat : list (list float).
Variable k : nat.
Hypothesis Hsq : is_square k d_mat.
Hypothesis Hfin : finite_matrix d_mat.

Local Abbreviation outer_inv := (outer_inv d_mat k).

Lemma assign_centre_inv c assigned :
  c < k -> outer_inv c assigned ->
  ∃ assigned', assign_centre d_mat k c assigned = Ok assigned' ∧ outer_inv (S c) assigned'.
Proof.
  intros Hc (us & -> & Hlen & Hnd & Hlt & Hnear).
  replace (k - c) with (S (k - S c)) by lia. simpl.
  destruct (assign_centre_takes d_mat k c us (replicate (k - S c) (-1)%Z))
    as (u & Hrun & Hu & Hfree & Hbest); try done.
  { by apply Forall_replicate. }
  unfold entries in Hrun. rewrite Hrun. eexists. split; [done|].
  exists (us ++ [u]). split; [|split; [|split; [|split]]].
  - rewrite fmap_app. simpl. by rewrite <- app_assoc.
  - rewrite length_app. simpl. lia.
  - apply NoDup_app. split; [done|]. split; [|apply NoDup_singleton].
    intros w Hw ->%list_elem_of_singleton. done.
  - intros w [Hw| ->%list_elem_of_singleton]%elem_of_app; [by apply Hlt|done].
  - intros i w u' d d' Hi Hu' Hfree' Hd Hd'.
    destruct (decide (i < length us)) as [Hin|Hout].
    + rewrite lookup_app_l in Hi by done.
      rewrite take_app_le in Hfree' by lia. by eapply Hnear.
    + apply lookup_lt_Some in Hi as Hi'. rewrite length_app in Hi'. simpl in Hi'.
      assert (i = c) as -> by lia.
      rewrite lookup_app_r in Hi by lia.
      rewrite Hlen, Nat.sub_diag in Hi. injection Hi as <-.
      rewrite take_app_length' in Hfree' by done. by eapply Hbest.
Qed.

Lemma assign_centres_inv len lo assigned :
  lo + len <= k -> outer_inv lo assigned ->
  ∃ assigned', foldM (assign_centre d_mat k) (seq lo len) assigned = Ok assigned' ∧
    outer_inv (lo + len) assigned'.
Proof.
  revert lo assigned. induction len as [|len IH]; intros lo assigned Hle Hinv.
  - exists assigned. split; [done|]. by rewrite Nat.add_0_r.
  - destruct (assign_centre_inv lo assigned) as (a1 & Hstep & Hinv1); [lia|done|].
    destruct (IH (S lo) a1) as (a2 & Hloop & Hinv2); [lia|done|].
    exists a2. simpl. rewrite Hstep. simpl.
    split; [done|]. by replace (lo + S len) with (S lo + len) by lia.
Qed.

Lemma assign_clusters_greedy :
  ∃ assigned, assign_clusters d_mat k = Ok assigned ∧
    assigned ≡ₚ Z.of_nat <$> seq 0 k ∧
    ∀ c u, assigned !! c = Some (Z.of_nat u) ->
      unclaimed assigned c u ∧
      ∀ u' d d', u' < k -> unclaimed assigned c u' ->
        cell d_mat c u = Some d -> cell d_mat c u' = Some d' -> (d' <? d)%float = false.
Proof.
  unfold assign_clusters, for_range.
  destruct (assign_centres_inv k 0 (replicate k (-1)%Z))
    as (assigned & Hloop & us & -> & Hlen & Hnd & Hlt & Hnear); [lia| |].
  { exists []. rewrite Nat.sub_0_r. repeat split; try done; [constructor|].
    intros u Hu. by apply elem_of_nil in Hu. }
  rewrite Hloop. simpl. simpl in Hlen.
  rewrite Nat.sub_diag. simpl. rewrite app_nil_r.
  assert (NoDup (Z.of_nat <$> us)) as Hnd' by (apply NoDup_fmap_2; [apply _|done]).
  rewrite bool_decide_eq_true_2 by (by apply remove_dups_same_length).
  eexists. split; [done|]. split.
  - apply fmap_Permutation. apply submseteq_length_Permutation.
    + apply NoDup_submseteq; [done|]. intros u Hu. apply elem_of_seq.
      specialize (Hlt u Hu). lia.
    + rewrite length_seq. lia.
  - intros c u Hc. rewrite list_lookup_fmap in Hc.
    destruct (us !! c) as [w|] eqn:Hw; simpl in Hc; [|done].
    injection Hc as Hc. apply Nat2Z.inj in Hc. subst w.
    assert (∀ u', unclaimed (Z.of_nat <$> us) c u' -> u' ∉ take c us) as Hfree.
    { intros u' Hun Hin. apply list_elem_of_lookup in Hin as [c' Hc'].
      apply lookup_take_Some in Hc' as [Hc' Hlt'].
      apply (Hun c' Hlt'). by rewrite list_lookup_fmap, Hc'. }
    split.
    + intros c' Hlt' Hc'. rewrite list_lookup_fmap in Hc'.
      destruct (us !! c') as [w|] eqn:Hw'; simpl in Hc'; [|done].
      injection Hc' as Hc'. apply Nat2Z.inj in Hc'. subst w.
      pose proof (NoDup_lookup _ _ _ _ Hnd Hw Hw'). lia.
    + intros u' d d' Hu' Hun Hd Hd'. eapply Hnear; eauto.
Qed.
End Assignment.

(** The assertion: a returned assignment has no robot twice. *)
Lemma assign_clusters_asserted d_mat k assigned :
  assign_clusters d_mat k = Ok assigned -> NoDup assigned.
Proof.
  unfold assign_clusters.
  intros (a & _ & Hassert)%bind_Ok.
  case_bool_decide as Hlen; [|done]. injection Hassert as <-.
  by apply remove_dups_same_length.
Qed.

(** C9. For every k x k matrix of finite distances the greedy assignment
    returns (its assertion holds) an assignment that is a permutation of the
    robots [0 .. k-1]; the robot of each centre was held by no earlier
    centre, and none of the robots free at its turn is nearer. Whatever the
    matrix, a returned assignment holds no robot twice: the assertion. In
    scenario C the row-wise argmin gives robot 0 to every centre, and the
    greedy assignment is [[0, 1, 2]]. *)
Theorem greedy_assignment_bijective :
  (∀ d_mat k, is_square k d_mat -> finite_matrix d_mat ->
     ∃ assigned, assign_clusters d_mat k = Ok assigned ∧
       assigned ≡ₚ Z.of_nat <$> seq 0 k ∧
       ∀ c u, assigned !! c = Some (Z.of_nat u) ->
         unclaimed assigned c u ∧
         ∀ u' d d', u' < k -> unclaimed assigned c u' ->
           cell d_mat c u = Some d -> cell d_mat c u' = Some d' ->
           (d' <? d)%float = false) ∧
  (∀ d_mat k assigned, assign_clusters d_mat k = Ok assigned -> NoDup assigned) ∧
  (argmin <$> crowded_matrix = [0; 0; 0] ∧
   assign_clusters crowded_matrix 3 = Ok [0; 1; 2]%Z).
Proof.
  split; [|split].
  - intros d_mat k Hsq Hfin. by apply assign_clusters_greedy.
  - apply assign_clusters_asserted.
  - split; vm_compute; reflexivity.
Qed.

(** ** The statements at work on the scenarios

    The stand-in planners keep the contracts asked of planners. *)

Lemma detour_lengths_set : planner_lengths_set no_astar detour.
Proof.
  split.
  - intros i p q path d H. discriminate H.
  - intros i star p q path d H. apply (f_equal snd) in H. simpl in H. by subst d.
Qed.

Lemma detour_joins (R : relation Pose) `{!Reflexive R} : planners_join no_astar detour R.
Proof.
  split.
  - intros i p q path d H. discriminate H.
  - intros i star p q path d H _. apply (f_equal fst) in H. simpl in H.
    injection H as <-. by exists p, [Pose4 4 3 0 0], q.
Qed.

Lemma detour_run_reachable :
  reachable blocked no_astar detour two_apart rrtstar_config (session_of detour_run).
Proof.
  apply (plan_tour_reachable _ _ _ lkh_in_order _ _ (tour_of detour_run)).
  vm_compute. reflexivity.
Qed.

Lemma init_square n : is_square n (distances (init_session n)).
Proof. apply init_distances_square. Qed.

(** C4, witness: the first iteration of scenario B, where the pair is
    deferred, and the first iteration of scenario D, where the sampling
    planner is called and its detour is stored. *)
Lemma no_line_of_sight_pair_witness :
  (∃ st', plan_pair blocked no_astar detour two_apart rrtstar_config 0 1 (init_session 2)
            = Ok st' ∧
     planner_calls st' = [] ∧
     tooFarAwayPairs st' = [(0, 1); (1, 0)] ∧
     tooFarAwayDistances st' !! (0, 1) = Some 8%float ∧
     tooFarAwayDistances st' !! (1, 0) = Some 8%float ∧
     cell (distances st') 0 1 = Some 24%float ∧
     cell (distances st') 1 0 = Some 24%float) ∧
  (∃ st', plan_pair blocked no_astar detour two_near rrtstar_config 0 1 (init_session 2)
            = Ok st' ∧
     planner_calls st' = [mkCall "rrtstar" (Pose4 0 0 0 0) (Pose4 4 0 0 0)] ∧
     tooFarAwayPairs st' = [] ∧
     tooFarAwayDistances st' = ∅ ∧
     paths st' !! (0, 1) = Some [Pose4 0 0 0 0; Pose4 4 3 0 0; Pose4 4 0 0 0] ∧
     paths st' !! (1, 0) = Some [Pose4 4 0 0 0; Pose4 4 3 0 0; Pose4 0 0 0 0] ∧
     cell (distances st') 0 1 = Some 10%float ∧
     cell (distances st') 1 0 = Some 10%float).
Proof.
  split.
  - apply (no_line_of_sight_pair blocked no_astar detour two_apart rrtstar_config 2 0 1
             (init_session 2) (viewpoint_at 0 0 0) (viewpoint_at 1 8 0)).
    + apply init_square.
    + lia.
    + reflexivity.
    + reflexivity.
    + exists UNSET. split; reflexivity.
    + reflexivity.
  - apply (proj1 (proj2 (proj2
             (proj2 (no_line_of_sight_pair blocked no_astar detour two_near rrtstar_config
                       2 0 1 (init_session 2) (viewpoint_at 0 0 0) (viewpoint_at 1 4 0)
                       (init_square 2) ltac:(lia) eq_refl eq_refl
                       (ex_intro _ UNSET (conj eq_refl eq_refl)) eq_refl)
                _ eq_refl)))).
    + discriminate.
    + discriminate.
    + reflexivity.
Defined.



(** C7, witness: the session scenario B ends in. *)
Lemma distances_symmetric_zero_diagonal_witness :
  (∀ a b, a < length two_apart -> b < length two_apart ->
     ∃ d, cell (distances (session_of detour_run)) a b = Some d ∧
          cell (distances (session_of detour_run)) b a = Some d) ∧
  (∀ a, a < length two_apart -> cell (distances (session_of detour_run)) a a = Some 0%float).
Proof.
  apply (distances_symmetric_zero_diagonal blocked no_astar detour two_apart rrtstar_config).
  apply detour_run_reachable.
Defined.

(** C10, witness: scenario B when its double loop is over. *)
Lemma build_matrix_complete_witness :
  (∀ a b, a < length two_apart -> b < length two_apart -> a ≠ b ->
     ∃ d, cell (distances detour_built) a b = Some d ∧ (d =? UNSET)%float = false) ∧
  (∀ a b, a < length two_apart -> b < length two_apart -> a ≠ b ->
     is_Some (paths detour_built !! (a, b)) ∧ is_Some (paths detour_built !! (b, a))) ∧
  (∀ a b, (a, b) ∈ tooFarAwayPairs detour_built ->
     ∃ va vb, two_apart !! a = Some va ∧ two_apart !! b = Some vb ∧
       paths detour_built !! (a, b) = Some [pose va; pose vb] ∧
       paths detour_built !! (b, a) = Some [pose vb; pose va] ∧
       (blocked rrtstar_config (pose va) (pose vb) = false ∨
        blocked rrtstar_config (pose vb) (pose va) = false)).
Proof.
  apply (build_matrix_complete blocked no_astar detour two_apart rrtstar_config).
  - apply detour_lengths_set.
  - vm_compute. reflexivity.
Defined.

(** C8, witness: an answer with its anchor in the middle. *)
Lemma sequence_rotated_to_anchor_witness :
  compute_tsp_sequence (fun _ => [Some 1; None; Some 0]) (init_session 2)
    = [None; Some 0; Some 1].
Proof.
  apply (proj1 (sequence_rotated_to_anchor (fun _ => [Some 1; None; Some 0]) (init_session 2))
           [Some 1] [Some 0]).
  - reflexivity.
  - intros H. apply list_elem_of_singleton in H. discriminate H.
Defined.

(** C2, witness: scenario B, whose deferred pair is resolved; its cell
    holds 24 before and after. *)
Lemma resolution_keeps_distances_witness :
  distances (session_of detour_run) = distances detour_built ∧
  cell (distances detour_built) 0 1 = Some 24%float.
Proof.
  split; [|vm_compute; reflexivity].
  apply (proj1 (proj2 (resolution_keeps_distances no_astar detour lkh_in_order two_apart
                         rrtstar_config))
           detour_built (tour_of detour_run) (session_of detour_run)).
  vm_compute. reflexivity.
Defined.

Lemma crowded_matrix_finite : finite_matrix crowded_matrix.
Proof.
  intros a b d.
  destruct a as [|[|[|a]]]; [..|done];
    (destruct b as [|[|[|b]]]; [..|done]); intros H; apply (f_equal (default d)) in H;
    simpl in H; by subst d.
Qed.

(** C9, witness: scenario C. *)
Lemma greedy_assignment_bijective_witness :
  ∃ assigned, assign_clusters crowded_matrix 3 = Ok assigned ∧
    assigned ≡ₚ Z.of_nat <$> seq 0 3 ∧
    ∀ c u, assigned !! c = Some (Z.of_nat u) ->
      unclaimed assigned c u ∧
      ∀ u' d d', u' < 3 -> unclaimed assigned c u' ->
        cell crowded_matrix c u = Some d -> cell crowded_matrix c u' = Some d' ->
        (d' <? d)%float = false.
Proof.
  apply (proj1 greedy_assignment_bijective crowded_matrix 3).
  - split; [reflexivity|]. repeat constructor.
  - apply crowded_matrix_finite.
Defined.

(** X1, witness: the deferred pair of scenario B when its double loop is
    over. *)
Lemma build_paths_reversed_witness :
  paths near_built !! (1, 0)
    = Some (rev [Pose4 0 0 0 0; Pose4 4 3 0 0; Pose4 4 0 0 0]).
Proof.
  apply (build_paths_reversed blocked no_astar detour two_near rrtstar_config near_built).
  - vm_compute. reflexivity.
  - vm_compute. reflexivity.
Defined.

(** ** Floats: [<=] orders the numbers *)

Lemma SFleb_refl f : SFeqb f f = true -> SFleb f f = true.
Proof.
  unfold SFeqb, SFleb. destruct f as [[]|[]| |[] m e]; simpl; try done;
    compare_cases; try done; lia.
Qed.

Lemma SFleb_trans f g h : SFleb f g = true -> SFleb g h = true -> SFleb f h = true.
Proof.
  unfold SFleb.
  destruct f as [[]|[]| |[] mf ef], g as [[]|[]| |[] mg eg], h as [[]|[]| |[] mh eh];
    simpl; try done; intros H1 H2; compare_cases; try done; try lia.
Qed.

Lemma SFltb_leb f g : SFltb f g = true -> SFleb f g = true.
Proof. unfold SFltb, SFleb. by destruct (SFcompare f g) as [[]|]. Qed.

Lemma SFleb_total f g :
  SFeqb f f = true -> SFeqb g g = true -> SFltb f g = false -> SFleb g f = true.
Proof.
  unfold SFeqb, SFltb, SFleb.
  destruct f as [[]|[]| |[] mf ef], g as [[]|[]| |[] mg eg];
    simpl; try done; intros H1 H2 H3; compare_cases; try done; try lia.
Qed.

Lemma is_nan_SFeqb (v : float) : is_nan v = false -> SFeqb (Prim2SF v) (Prim2SF v) = true.
Proof.
  unfold is_nan. rewrite FloatAxioms.eqb_spec. by destruct (SFeqb _ _).
Qed.

Lemma leb_refl (v : float) : is_nan v = false -> (v <=? v)%float = true.
Proof. intros Hv. rewrite FloatAxioms.leb_spec. by apply SFleb_refl, is_nan_SFeqb. Qed.

Lemma leb_trans (u v w : float) :
  (u <=? v)%float = true -> (v <=? w)%float = true -> (u <=? w)%float = true.
Proof. rewrite !FloatAxioms.leb_spec. apply SFleb_trans. Qed.

Lemma ltb_leb (u v : float) : (u <? v)%float = true -> (u <=? v)%float = true.
Proof. rewrite FloatAxioms.ltb_spec, FloatAxioms.leb_spec. apply SFltb_leb. Qed.

Lemma not_ltb_leb (u v : float) :
  is_nan u = false -> is_nan v = false -> (u <? v)%float = false -> (v <=? u)%float = true.
Proof.
  intros Hu Hv. rewrite FloatAxioms.ltb_spec, FloatAxioms.leb_spec.
  by apply SFleb_total; apply is_nan_SFeqb.
Qed.

(** ** The bounds of [setup] *)

(** The running minimum is one of the items and is below them all. *)
Lemma fold_min_least (rest : list float) (v : float) :
  is_nan v = false -> Forall (fun w => is_nan w = false) rest ->
  let m := fold_left (fun m w => if (w <? m)%float then w else m) rest v in
  m ∈ v :: rest ∧ ∀ w, w ∈ v :: rest -> (m <=? w)%float = true.
Proof.
  intros Hv Hrest.
  assert (∀ seen m, is_nan m = false -> m ∈ seen ->
            (∀ w, w ∈ seen -> (m <=? w)%float = true) ->
            let m' := fold_left (fun m w => if (w <? m)%float then w else m) rest m in
            m' ∈ seen ++ rest ∧ ∀ w, w ∈ seen ++ rest -> (m' <=? w)%float = true) as Hgen.
  { induction Hrest as [|w rest Hw Hrest IH]; intros seen m Hm Hin Hleast.
    - simpl. by rewrite app_nil_r.
    - simpl. rewrite (cons_middle w seen rest), app_assoc.
      destruct (w <? m)%float eqn:Hlt.
      + apply IH; [done|apply elem_of_app; right; by apply list_elem_of_singleton|].
        intros u [Hu | ->%list_elem_of_singleton]%elem_of_app; [|by apply leb_refl].
        eapply leb_trans; [by apply ltb_leb|by apply Hleast].
      + apply IH; [done|apply elem_of_app; by left|].
        intros u [Hu | ->%list_elem_of_singleton]%elem_of_app; [by apply Hleast|].
        by apply not_ltb_leb. }
  apply (Hgen [v] v); [done|by apply list_elem_of_singleton|].
  intros w ->%list_elem_of_singleton. by apply leb_refl.
Qed.

(** The running maximum is one of the items and is above them all. *)
Lemma fold_max_greatest (rest : list float) (v : float) :
  is_nan v = false -> Forall (fun w => is_nan w = false) rest ->
  let m := fold_left (fun m w => if (m <? w)%float then w else m) rest v in
  m ∈ v :: rest ∧ ∀ w, w ∈ v :: rest -> (w <=? m)%float = true.
Proof.
  intros Hv Hrest.
  assert (∀ seen m, is_nan m = false -> m ∈ seen ->
            (∀ w, w ∈ seen -> (w <=? m)%float = true) ->
            let m' := fold_left (fun m w => if (m <? w)%float then w else m) rest m in
            m' ∈ seen ++ rest ∧ ∀ w, w ∈ seen ++ rest -> (w <=? m')%float = true) as Hgen.
  { induction Hrest as [|w rest Hw Hrest IH]; intros seen m Hm Hin Hmost.
    - simpl. by rewrite app_nil_r.
    - simpl. rewrite (cons_middle w seen rest), app_assoc.
      destruct (m <? w)%float eqn:Hlt.
      + apply IH; [done|apply elem_of_app; right; by apply list_elem_of_singleton|].
        intros u [Hu | ->%list_elem_of_singleton]%elem_of_app; [|by apply leb_refl].
        eapply leb_trans; [by apply Hmost|by apply ltb_leb].
      + apply IH; [done|apply elem_of_app; by left|].
        intros u [Hu | ->%list_elem_of_singleton]%elem_of_app; [by apply Hmost|].
        by apply not_ltb_leb. }
  apply (Hgen [v] v); [done|by apply list_elem_of_singleton|].
  intros w ->%list_elem_of_singleton. by apply leb_refl.
Qed.

Lemma py_min_least (xs : list float) :
  xs ≠ [] -> Forall (fun w => is_nan w = false) xs ->
  ∃ m, py_min xs = Some m ∧ m ∈ xs ∧ ∀ w, w ∈ xs -> (m <=? w)%float = true.
Proof.
  destruct xs as [|v rest]; [done|]. intros _ [Hv Hrest]%Forall_cons.
  eexists. split; [done|]. by apply fold_min_least.
Qed.

Lemma py_max_greatest (xs : list float) :
  xs ≠ [] -> Forall (fun w => is_nan w = false) xs ->
  ∃ m, py_max xs = Some m ∧ m ∈ xs ∧ ∀ w, w ∈ xs -> (w <=? m)%float = true.
Proof.
  destruct xs as [|v rest]; [done|]. intros _ [Hv Hrest]%Forall_cons.
  eexists. split; [done|]. by apply fold_max_greatest.
Qed.

(** X17. The bounds that [setup] computes for a safety area with at least
    one corner point and no [nan] coordinate enclose every corner point of
    the area in [x] and [y], each of the four limits being a coordinate of
    some corner point, and carry the height limits of the problem in [z];
    for an empty safety area [min] raises and there are no bounds. *)
Theorem setup_bounds_enclose (safety_area : list Point) (min_height max_height : float) :
  environment_bounds [] min_height max_height = None ∧
  (safety_area ≠ [] ->
   Forall (fun p => is_nan (x p) = false ∧ is_nan (y p) = false) safety_area ->
   ∃ b, environment_bounds safety_area min_height max_height = Some b ∧
     z (point_min b) = min_height ∧ z (point_max b) = max_height ∧
     (∀ p, p ∈ safety_area -> within_bounds b p) ∧
     x (point_min b) ∈ x <$> safety_area ∧ x (point_max b) ∈ x <$> safety_area ∧
     y (point_min b) ∈ y <$> safety_area ∧ y (point_max b) ∈ y <$> safety_area).
Proof.
  split; [done|]. intros Hne Hnan.
  assert (∀ f : Point -> float, f <$> safety_area ≠ []) as Hne'.
  { intros f. by destruct safety_area. }
  assert (Forall (fun w => is_nan w = false) (x <$> safety_area)) as Hx.
  { apply Forall_fmap. eapply Forall_impl; [exact Hnan|]. by intros p [? _]. }
  assert (Forall (fun w => is_nan w = false) (y <$> safety_area)) as Hy.
  { apply Forall_fmap. eapply Forall_impl; [exact Hnan|]. by intros p [_ ?]. }
  destruct (py_min_least _ (Hne' x) Hx) as (x_min & Hxmin & Hxmin_in & Hxmin_le).
  destruct (py_max_greatest _ (Hne' x) Hx) as (x_max & Hxmax & Hxmax_in & Hxmax_le).
  destruct (py_min_least _ (Hne' y) Hy) as (y_min & Hymin & Hymin_in & Hymin_le).
  destruct (py_max_greatest _ (Hne' y) Hy) as (y_max & Hymax & Hymax_in & Hymax_le).
  eexists. unfold environment_bounds. rewrite Hxmin, Hxmax, Hymin, Hymax. simpl.
  split; [done|]. do 2 (split; [done|]). split; [|done].
  intros p Hp. unfold within_bounds. simpl.
  split; [|split; [|split]]; [apply Hxmin_le|apply Hxmax_le|apply Hymin_le|apply Hymax_le];
    apply list_elem_of_fmap; by exists p.
Qed.

(** ** The clusters *)

Lemma members_labelled viewpoints labels r :
  length labels <= length viewpoints ->
  members viewpoints labels r = Ok (labelled viewpoints labels r).
Proof.
  intros Hlen. unfold members, labelled.
  set (body := fun (i : nat) (acc : list Viewpoint) =>
         l ← or_raise IndexError (labels !! i);
         if bool_decide (l = Z.of_nat r) then
           vp ← or_raise IndexError (viewpoints !! i); Ok (acc ++ [vp])
         else Ok acc).
  destruct (foldM_seq_Ok
              (fun i acc => acc = snd <$> filter (fun lv => lv.1 = Z.of_nat r)
                                        (take i (zip labels viewpoints)))
              body (length labels) 0 []) as (acc & Hloop & Hacc).
  - intros i acc Hi ->.
    destruct (lookup_lt_is_Some_2 labels i) as [l Hl]; [lia|].
    destruct (lookup_lt_is_Some_2 viewpoints i) as [v Hv]; [lia|].
    assert (zip labels viewpoints !! i = Some (l, v)) as Hlv.
    { apply lookup_zip_with_Some. by exists l, v. }
    rewrite (take_S_r _ _ _ Hlv), filter_app, fmap_app.
    unfold body. rewrite Hl. simpl.
    rewrite filter_cons, filter_nil. simpl.
    case_bool_decide as Hr.
    + rewrite Hv. simpl. rewrite decide_True by done. by eexists.
    + rewrite decide_False by done. simpl. rewrite app_nil_r. by eexists.
  - done.
  - rewrite Hloop. f_equal. rewrite Hacc. simpl.
    rewrite take_ge; [done|]. rewrite length_zip_with. lia.
Qed.

Lemma filter_none {A} (P : A -> Prop) `{∀ x, Decision (P x)} (l : list A) :
  (∀ x, x ∈ l -> ¬ P x) -> filter P l = [].
Proof.
  induction l as [|x l IH]; intros Hno; [done|].
  rewrite filter_cons, decide_False by (apply Hno; by left).
  apply IH. intros y Hy. apply Hno. by right.
Qed.

Lemma filter_all {A} (P : A -> Prop) `{∀ x, Decision (P x)} (l : list A) :
  (∀ x, x ∈ l -> P x) -> filter P l = l.
Proof.
  induction l as [|x l IH]; intros Hall; [done|].
  rewrite filter_cons, decide_True by (apply Hall; by left).
  f_equal. apply IH. intros y Hy. apply Hall. by right.
Qed.

(** Sorting a list by label, label after label, permutes the part of it
    whose labels are in range. *)
Lemma filter_labels_Permutation {A} (l : list (Z * A)) k :
  concat ((fun r => filter (fun lv => lv.1 = Z.of_nat r) l) <$> seq 0 k)
    ≡ₚ filter (fun lv => (0 <= lv.1 < Z.of_nat k)%Z) l.
Proof.
  induction k as [|k IH].
  - simpl. rewrite filter_none; [done|]. intros x _. lia.
  - rewrite seq_S, fmap_app, concat_app, IH. simpl. rewrite app_nil_r.
    clear IH. induction l as [|[v x] l IHl]; [done|].
    rewrite !filter_cons. simpl.
    destruct (decide (0 <= v < Z.of_nat k)%Z), (decide (v = Z.of_nat k)),
      (decide (0 <= v < Z.of_nat (S k))%Z); try lia; simpl.
    + by rewrite IHl.
    + rewrite <- IHl. by rewrite Permutation_middle.
    + done.
Qed.

Lemma mapM_Ok_fmap {A B} (f : A -> result B) (g : A -> B) (l : list A) :
  (∀ x, x ∈ l -> f x = Ok (g x)) -> mapM f l = Ok (g <$> l).
Proof.
  induction l as [|x l IH]; intros Hf; [done|].
  change (mapM f (x :: l)) with (y ← f x; k ← mapM f l; mret (y :: k)).
  rewrite Hf by (by left). rewrite IH; [done|]. intros y Hy. apply Hf. by right.
Qed.

Lemma concat_fmap_fmap {A B C} (f : B -> C) (F : A -> list B) (rs : list A) :
  concat ((fun r => f <$> F r) <$> rs) = f <$> concat (F <$> rs).
Proof.
  induction rs as [|r rs IH]; [done|].
  change (concat ((fun r => f <$> F r) <$> (r :: rs)))
    with ((f <$> F r) ++ concat ((fun r => f <$> F r) <$> rs)).
  change (concat (F <$> (r :: rs))) with (F r ++ concat (F <$> rs)).
  by rewrite IH, fmap_app.
Qed.

(** Given the labels, one in range for each viewpoint, the clusters are
    built: one per robot, each holding the viewpoints of its label, all of
    them together being the viewpoints. *)
Lemma clusters_of_labels viewpoints labels k :
  length labels = length viewpoints ->
  Forall (fun l => (0 <= l < Z.of_nat k)%Z) labels ->
  mapM (members viewpoints labels) (seq 0 k) = Ok (labelled viewpoints labels <$> seq 0 k) ∧
  concat (labelled viewpoints labels <$> seq 0 k) ≡ₚ viewpoints.
Proof.
  intros Hlen Hrange. split.
  - apply mapM_Ok_fmap. intros r _. apply members_labelled. lia.
  - unfold labelled.
    rewrite (concat_fmap_fmap snd
               (fun r => filter (fun lv : Z * Viewpoint => lv.1 = Z.of_nat r)
                           (zip labels viewpoints))).
    rewrite filter_labels_Permutation, filter_all.
    + rewrite snd_zip by lia. done.
    + intros [l v] Hin. simpl. apply elem_of_zip_l in Hin.
      rewrite Forall_forall in Hrange. by apply Hrange.
Qed.

(** X13. Random clustering, for at least one robot and draws that stay in
    [0 .. k-1] as those of [randint(0, k - 1)] do: [clusterViewpoints]
    returns [k] clusters, cluster [r] holding the viewpoints whose draw was
    [r], in the order of the list; every viewpoint is in exactly one
    cluster, so that the clusters together are a permutation of the
    viewpoints. *)
Theorem random_clusters_partition
    (KMeans_fit : nat -> list Point -> list Point * list nat)
    (pairwise_distances : list Point -> list Point -> list (list float))
    (randint : nat -> nat -> nat)
    (problem : InspectionProblem) (viewpoints : list Viewpoint) (method : string) :
  let k := number_of_robots problem in
  let labels := (fun i => Z.of_nat (randint i (k - 1))) <$> seq 0 (length viewpoints) in
  method ≠ "kmeans"%string -> 0 < k ->
  (∀ i, randint i (k - 1) <= k - 1) ->
  ∃ clusters,
    clusterViewpoints KMeans_fit pairwise_distances randint problem viewpoints method
      = Ok clusters ∧
    length clusters = k ∧
    (∀ r, r < k -> clusters !! r = Some (labelled viewpoints labels r)) ∧
    concat clusters ≡ₚ viewpoints.
Proof.
  intros k labels Hmethod Hk Hdraw.
  destruct (clusters_of_labels viewpoints labels k) as [Hrun Hperm].
  { unfold labels. by rewrite length_fmap, length_seq. }
  { unfold labels. apply Forall_fmap, Forall_forall. intros i _. simpl.
    specialize (Hdraw i). lia. }
  exists (labelled viewpoints labels <$> seq 0 k).
  split; [|split; [|split]].
  - unfold clusterViewpoints. fold k.
    destruct (String.eqb_spec method "kmeans") as [->|_]; [done|].
    rewrite (mapM_Ok_fmap _ (fun i => Z.of_nat (randint i (k - 1)))).
    + simpl. exact Hrun.
    + intros i _. by rewrite bool_decide_eq_false_2 by lia.
  - by rewrite length_fmap, length_seq.
  - intros r Hr. rewrite list_lookup_fmap, lookup_seq_lt by done. done.
  - done.
Qed.

Lemma lookups_take {A} (l : list A) k :
  k <= length l ->
  mapM (fun i => or_raise IndexError (l !! i)) (seq 0 k) = Ok (take k l).
Proof.
  intros Hk. destruct l as [|x0 l]; [by replace k with 0 by (simpl in Hk; lia)|].
  rewrite (mapM_Ok_fmap _ (fun i => default x0 ((x0 :: l) !! i))).
  - f_equal. apply list_eq. intros i. rewrite list_lookup_fmap.
    destruct (decide (i < k)) as [Hi|Hi].
    + rewrite lookup_seq_lt, lookup_take_lt by done. simpl.
      destruct (lookup_lt_is_Some_2 (x0 :: l) i) as [x ->]; [lia|]. done.
    + rewrite lookup_seq_ge, lookup_take_ge by lia. done.
  - intros i Hi%elem_of_seq.
    destruct (lookup_lt_is_Some_2 (x0 :: l) i) as [x ->]; [lia|]. done.
Qed.

(** X14. K-means clustering, when [KMeans.fit] labels every viewpoint
    with a centre of [0 .. k-1], there are at least [k] start poses and the
    [k x k] distances between centres and start poses are finite:
    [clusterViewpoints] returns [k] clusters; the viewpoints that K-means
    gave centre [c] are in the cluster of the robot the greedy assignment
    gave to [c]; every viewpoint is in exactly one cluster, so that the
    clusters together are a permutation of the viewpoints. *)
Theorem kmeans_clusters_partition
    (KMeans_fit : nat -> list Point -> list Point * list nat)
    (pairwise_distances : list Point -> list Point -> list (list float))
    (randint : nat -> nat -> nat)
    (problem : InspectionProblem) (viewpoints : list Viewpoint)
    (cluster_ctrs : list Point) (kmeans_labels : list nat) :
  let k := number_of_robots problem in
  let d_mat := pairwise_distances cluster_ctrs (take k (start_poses problem)) in
  KMeans_fit k ((fun vp => point (pose vp)) <$> viewpoints) = (cluster_ctrs, kmeans_labels) ->
  length kmeans_labels = length viewpoints ->
  Forall (fun c => c < k) kmeans_labels ->
  k <= length (start_poses problem) ->
  is_square k d_mat -> finite_matrix d_mat ->
  ∃ assigned labels clusters,
    assign_clusters d_mat k = Ok assigned ∧
    Forall2 (fun c l => assigned !! c = Some l) kmeans_labels labels ∧
    clusterViewpoints KMeans_fit pairwise_distances randint problem viewpoints "kmeans"
      = Ok clusters ∧
    length clusters = k ∧
    (∀ r, r < k -> clusters !! r = Some (labelled viewpoints labels r)) ∧
    concat clusters ≡ₚ viewpoints.
Proof.
  intros k d_mat Hfit Hlen Hlabels Hstarts Hsq Hfin.
  destruct (assign_clusters_greedy d_mat k Hsq Hfin) as (assigned & Hassign & Hperm & _).
  assert (length assigned = k) as Hlena.
  { by rewrite Hperm, length_fmap, length_seq. }
  set (labels := (fun c => default 0%Z (assigned !! c)) <$> kmeans_labels).
  assert (∀ c, c ∈ kmeans_labels -> assigned !! c = Some (default 0%Z (assigned !! c)))
    as Hlook.
  { intros c Hc. rewrite Forall_forall in Hlabels.
    destruct (lookup_lt_is_Some_2 assigned c) as [l ->]; [|done].
    rewrite Hlena. by apply Hlabels. }
  destruct (clusters_of_labels viewpoints labels k) as [Hrun Hpart].
  { unfold labels. by rewrite length_fmap. }
  { unfold labels. apply Forall_fmap, Forall_forall. intros c Hc. simpl.
    pose proof (Hlook c Hc) as Hl.
    remember (default 0%Z (assigned !! c)) as l eqn:Heql. clear Heql.
    apply list_elem_of_lookup_2 in Hl. rewrite Hperm in Hl.
    apply list_elem_of_fmap in Hl as (u & -> & Hu%elem_of_seq). lia. }
  exists assigned, labels, (labelled viewpoints labels <$> seq 0 k).
  split; [done|]. split; [|split; [|split; [|split]]].
  - unfold labels. apply Forall2_fmap_r, Forall_Forall2_diag, Forall_forall. exact Hlook.
  - unfold clusterViewpoints. fold k. simpl. rewrite Hfit.
    rewrite lookups_take by done. simpl. fold d_mat. rewrite Hassign. simpl.
    unfold relabel.
    rewrite (mapM_Ok_fmap _ (fun c => default 0%Z (assigned !! c))).
    + simpl. exact Hrun.
    + intros c Hc. by rewrite (Hlook c Hc).
  - by rewrite length_fmap, length_seq.
  - intros r Hr. rewrite list_lookup_fmap, lookup_seq_lt by done. done.
  - done.
Qed.

(** ** The greedy assignment on any matrix *)

Lemma try_uav_within_reach d_mat k c u acc acc' :
  u < k ->
  try_uav d_mat c u acc = Ok acc' ->
  (acc.1 = infinity ∨ (acc.1 <? infinity)%float = true) ∧ length acc.2 = k ∧
    (∀ c' v, acc.2 !! c' = Some v -> within_reach d_mat k c' v) ->
  (acc'.1 = infinity ∨ (acc'.1 <? infinity)%float = true) ∧ length acc'.2 = k ∧
    (∀ c' v, acc'.2 !! c' = Some v -> within_reach d_mat k c' v).
Proof.
  intros Hu. unfold try_uav.
  destruct (cell d_mat c u) as [d|] eqn:Hd; simpl; [|done].
  destruct (d <? acc.1)%float eqn:Hlt; [|by intros [= <-]].
  case_bool_decide; [|by intros [= <-]].
  intros [= <-] (Hleast & Hlen & Hall). simpl.
  assert ((d <? infinity)%float = true) as Hfin.
  { destruct Hleast as [Heq|Hlt']; [by rewrite <- Heq|by eapply ltb_trans]. }
  split; [by right|]. split; [by rewrite length_insert|].
  intros c' v Hv.
  destruct (decide (c' = c)) as [->|Hne].
  - apply list_lookup_insert_Some in Hv as [(_ & <- & _)|[? _]]; [|done].
    right. by exists u, d.
  - rewrite list_lookup_insert_ne in Hv by done. by apply Hall.
Qed.

(** X15. Whatever the distances, the assignment that [clusterViewpoints]
    computes and asserts has one entry per centre, and the entry of a
    centre is the initial [-1] or a robot of [0 .. k-1] at a distance below
    [np.inf] from it: a centre all of whose distances are [inf] or [nan]
    keeps [-1], and the assertion, which only counts distinct values, lets
    one such centre through. *)
Theorem assigned_robots_within_reach d_mat k assigned :
  assign_clusters d_mat k = Ok assigned ->
  length assigned = k ∧
  ∀ c v, assigned !! c = Some v ->
    v = (-1)%Z ∨
    ∃ u d, v = Z.of_nat u ∧ u < k ∧ cell d_mat c u = Some d ∧ (d <? infinity)%float = true.
Proof.
  unfold assign_clusters. intros (a & Hloop & Hassert)%bind_Ok.
  case_bool_decide; [|done]. injection Hassert as ->.
  revert Hloop. unfold for_range.
  apply (foldM_invariant
           (fun l => length l = k ∧ ∀ c v, l !! c = Some v -> within_reach d_mat k c v)).
  - intros c l1 l2 _ [Hlen Hall]. unfold assign_centre, for_range.
    intros ([least l] & Hrow & [= <-])%bind_Ok.
    assert ((least = infinity ∨ (least <? infinity)%float = true) ∧ length l = k ∧
            ∀ c' v, l !! c' = Some v -> within_reach d_mat k c' v) as (_ & ? & ?); [|done].
    revert Hrow.
    apply (foldM_invariant
             (fun acc : float * list Z =>
                (acc.1 = infinity ∨ (acc.1 <? infinity)%float = true) ∧ length acc.2 = k ∧
                ∀ c' v, acc.2 !! c' = Some v -> within_reach d_mat k c' v)).
    + intros u acc acc' Hu%elem_of_seq Hacc Htry.
      eapply try_uav_within_reach; [|exact Htry|exact Hacc]. lia.
    + simpl. auto.
  - split; [apply length_replicate|].
    intros c v [-> _]%lookup_replicate. by left.
Qed.

(** ** The further statements at work on the scenarios *)

Lemma near_built_run :
  build_matrix blocked no_astar detour two_near rrtstar_config (init_session (length two_near))
    = Ok near_built.
Proof. vm_compute. reflexivity. Qed.

Lemma detour_built_run :
  build_matrix blocked no_astar detour two_apart rrtstar_config (init_session (length two_apart))
    = Ok detour_built.
Proof. vm_compute. reflexivity. Qed.

Lemma detour_resolved_run :
  compute_tsp_tour no_astar detour lkh_in_order two_apart rrtstar_config detour_built
    = Ok (tour_of detour_run, session_of detour_run).
Proof. vm_compute. reflexivity. Qed.

(** X2, witness: the session scenario B ends in. *)
Lemma deferred_registry_witness :
  (∀ a b, (a, b) ∈ tooFarAwayPairs (session_of detour_run) <->
     is_Some (tooFarAwayDistances (session_of detour_run) !! (a, b))) ∧
  ∀ a b d, tooFarAwayDistances (session_of detour_run) !! (a, b) = Some d ->
    a ≠ b ∧ tooFarAwayDistances (session_of detour_run) !! (b, a) = Some d ∧
    (DIST_THRESHOLD <? d)%float = true ∧
    cell (distances (session_of detour_run)) a b = Some (d * 3)%float ∧
    ∃ va vb, two_apart !! a = Some va ∧ two_apart !! b = Some vb ∧
      ((d = distEuclidean (pose va) (pose vb) ∧
        blocked rrtstar_config (pose va) (pose vb) = false) ∨
       (d = distEuclidean (pose vb) (pose va) ∧
        blocked rrtstar_config (pose vb) (pose va) = false)).
Proof.
  apply (deferred_registry blocked no_astar detour two_apart rrtstar_config).
  apply detour_run_reachable.
Defined.

(** X3, witness: scenario D, whose pair is planned in the double loop. *)
Lemma build_calls_near_blocked_witness :
  ∃ pairs, Forall2 (call_between two_near rrtstar_config) pairs (planner_calls near_built) ∧
    Forall (near_blocked blocked two_near rrtstar_config) pairs.
Proof.
  apply (build_calls_near_blocked blocked no_astar detour two_near rrtstar_config).
  apply near_built_run.
Defined.

(** X4, witness: scenario D. *)
Lemma pairs_planned_once_witness :
  (∃ pairs, Forall2 (call_between two_near rrtstar_config) pairs (planner_calls near_built) ∧
     NoDup pairs ∧ Forall (fun ab => ab.1 < ab.2 < length two_near) pairs) ∧
  2 * length (planner_calls near_built) <= length two_near * (length two_near - 1).
Proof.
  apply (pairs_planned_once blocked no_astar detour two_near rrtstar_config).
  - apply detour_lengths_set.
  - apply near_built_run.
Defined.

(** X5, witness: a run without viewpoints and without configuration. *)
Lemma no_viewpoints_empty_tour_witness :
  tour_of (plan_tour clear_sight no_astar detour lkh_from_last [] None) = [] ∧
  session_of (plan_tour clear_sight no_astar detour lkh_from_last [] None) = init_session 0.
Proof.
  apply (proj2 (proj2 (no_viewpoints_empty_tour clear_sight no_astar detour lkh_from_last
                         None))).
  vm_compute. reflexivity.
Defined.

(** X7, witness: the tour of scenario B. *)
Lemma tour_needs_indices_witness :
  (∀ a, a < length two_apart ->
     ∃ i j, compute_tsp_sequence lkh_in_order (session_of detour_run) !! a = Some (Some i) ∧
       compute_tsp_sequence lkh_in_order (session_of detour_run)
         !! ((a + 1) mod length two_apart) = Some (Some j) ∧
       i ≠ j ∧ i < length two_apart ∧ j < length two_apart) ∧
  (1 <= length two_apart -> None ∉ lkh_in_order (distances (session_of detour_run))).
Proof.
  apply (tour_needs_indices blocked no_astar detour lkh_in_order two_apart rrtstar_config
           (tour_of detour_run)).
  vm_compute. reflexivity.
Defined.

(** X8, witness: [compute_tsp_tour] in scenario B. *)
Lemma resolution_frame_witness :
  tooFarAwayPairs (session_of detour_run) = tooFarAwayPairs detour_built ∧
  tooFarAwayDistances (session_of detour_run) = tooFarAwayDistances detour_built ∧
  (∀ k, k ∉ tooFarAwayPairs detour_built ->
     paths (session_of detour_run) !! k = paths detour_built !! k) ∧
  (∀ k, is_Some (paths detour_built !! k) -> is_Some (paths (session_of detour_run) !! k)) ∧
  (∃ new, planner_calls (session_of detour_run) = planner_calls detour_built ++ new ∧
     length new <= length (compute_tsp_sequence lkh_in_order detour_built) - 1) ∧
  (tooFarAwayPairs detour_built = [] -> session_of detour_run = detour_built).
Proof.
  apply (resolution_frame no_astar detour lkh_in_order two_apart rrtstar_config detour_built
           (tour_of detour_run)).
  apply detour_resolved_run.
Defined.

(** X9, witness: the deferred edge of scenario B. *)
Lemma resolution_plans_deferred_edges_witness :
  (∃ new, planner_calls (session_of detour_run) = planner_calls detour_built ++ new ∧
     Forall2 (call_between two_apart rrtstar_config)
       (deferred_edges detour_built (compute_tsp_sequence lkh_in_order detour_built)) new) ∧
  ∀ a b, (a, b) ∈ deferred_edges detour_built (compute_tsp_sequence lkh_in_order detour_built) ->
    ∃ va vb path, two_apart !! a = Some va ∧ two_apart !! b = Some vb ∧
      paths (session_of detour_run) !! (a, b) = Some path ∧ path ≠ [] ∧
      planner_path no_astar detour (pose va) (pose vb) path.
Proof.
  apply (resolution_plans_deferred_edges no_astar detour lkh_in_order two_apart rrtstar_config
           detour_built (tour_of detour_run)).
  - intros cfg [= <-]. simpl. discriminate.
  - apply detour_resolved_run.
Defined.

(** X10, witness: the planned pair of scenario D. *)
Lemma build_paths_exact_ends_witness :
  ∃ va vb mid, two_near !! 0 = Some va ∧ two_near !! 1 = Some vb ∧
    [Pose4 0 0 0 0; Pose4 4 3 0 0; Pose4 4 0 0 0] = pose va :: mid ++ [pose vb].
Proof.
  apply (build_paths_exact_ends blocked no_astar detour two_near rrtstar_config near_built).
  - apply detour_joins. by intros p.
  - apply near_built_run.
  - vm_compute. reflexivity.
Defined.

(** X11, witness: the resolved pair of scenario B. *)
Lemma paths_join_viewpoints_witness :
  ∃ va vb first mid last, two_apart !! 0 = Some va ∧ two_apart !! 1 = Some vb ∧
    [Pose4 0 0 0 0; Pose4 4 3 0 0; Pose4 8 0 0 0] = first :: mid ++ [last] ∧
    point first = point (pose va) ∧ point last = point (pose vb).
Proof.
  apply (paths_join_viewpoints blocked no_astar detour two_apart rrtstar_config
           (session_of detour_run)).
  - apply detour_joins. by intros p.
  - apply detour_run_reachable.
  - vm_compute. reflexivity.
Defined.

Lemma straight_detour_find : planners_find straight_astar detour.
Proof. split; intros; eexists _, _; (split; [reflexivity|done]). Qed.

(** X12, witness: scenario B with a grid planner at hand. *)
Lemma planning_returns_witness :
  ∃ built tour st,
    build_matrix blocked straight_astar detour two_apart rrtstar_config
      (init_session (length two_apart)) = Ok built ∧
    compute_tsp_tour straight_astar detour lkh_in_order two_apart rrtstar_config built
      = Ok (tour, st).
Proof.
  apply (planning_returns blocked straight_astar detour lkh_in_order two_apart
           (mkPathPlanner "rrtstar" "rrtstar"
              ["safety_distance"; "timeout"; "straighten"; "obstacles_kdtree"; "bounds"])).
  - unfold ALLOWED_PATH_PLANNERS. simpl. repeat constructor.
  - vm_compute. reflexivity.
  - apply straight_detour_find.
  - intros m. reflexivity.
  - simpl. lia.
Defined.

(** X13, witness: scenario E with random clustering. *)
Lemma random_clusters_partition_witness :
  ∃ clusters,
    clusterViewpoints lower_upper point_distances round_robin two_robots square_corners "random"
      = Ok clusters ∧
    length clusters = 2 ∧
    (∀ r, r < 2 ->
       clusters !! r =
         Some (labelled square_corners
                 ((fun i => Z.of_nat (round_robin i (2 - 1))) <$> seq 0 (length square_corners))
                 r)) ∧
    concat clusters ≡ₚ square_corners.
Proof.
  apply (random_clusters_partition lower_upper point_distances round_robin two_robots
           square_corners "random").
  - discriminate.
  - simpl. lia.
  - intros i. simpl. pose proof (Nat.mod_upper_bound i 2). unfold round_robin. lia.
Defined.

Lemma two_robots_distances_finite :
  finite_matrix
    (point_distances [mkPoint 5 0 0; mkPoint 5 10 0] (take 2 (start_poses two_robots))).
Proof.
  intros a b d.
  destruct a as [|[|a]]; [..|done];
    (destruct b as [|[|b]]; [..|done]); intros H; apply (f_equal (default d)) in H;
    simpl in H; subst d; vm_compute; reflexivity.
Qed.

(** X14, witness: scenario E with K-means clustering. *)
Lemma kmeans_clusters_partition_witness :
  ∃ assigned labels clusters,
    assign_clusters
      (point_distances [mkPoint 5 0 0; mkPoint 5 10 0] (take 2 (start_poses two_robots))) 2
      = Ok assigned ∧
    Forall2 (fun c l => assigned !! c = Some l) [0; 0; 1; 1] labels ∧
    clusterViewpoints lower_upper point_distances round_robin two_robots square_corners "kmeans"
      = Ok clusters ∧
    length clusters = 2 ∧
    (∀ r, r < 2 -> clusters !! r = Some (labelled square_corners labels r)) ∧
    concat clusters ≡ₚ square_corners.
Proof.
  apply (kmeans_clusters_partition lower_upper point_distances round_robin two_robots
           square_corners [mkPoint 5 0 0; mkPoint 5 10 0] [0; 0; 1; 1]).
  - reflexivity.
  - reflexivity.
  - repeat constructor.
  - simpl. lia.
  - split; [reflexivity|]. repeat constructor.
  - apply two_robots_distances_finite.
Defined.

(** X15, witness: scenario C. *)
Lemma assigned_robots_within_reach_witness :
  length [0; 1; 2]%Z = 3 ∧
  ∀ c v, [0; 1; 2]%Z !! c = Some v ->
    v = (-1)%Z ∨
    ∃ u d, v = Z.of_nat u ∧ u < 3 ∧ cell crowded_matrix c u = Some d ∧
      (d <? infinity)%float = true.
Proof.
  apply (assigned_robots_within_reach crowded_matrix 3 [0; 1; 2]%Z).
  vm_compute. reflexivity.
Defined.

(** X16, witness: the sampling planner called in scenario D; no planner
    configured; a dictionary without the key ['straighten']. *)
Lemma compute_path_outcome_witness :
  ([Pose4 0 0 0 0; Pose4 4 3 0 0; Pose4 4 0 0 0] ≠ [] ∧
   ([mkCall "rrtstar" (Pose4 0 0 0 0) (Pose4 4 0 0 0)] = [] ∨
    [mkCall "rrtstar" (Pose4 0 0 0 0) (Pose4 4 0 0 0)]
      = [] ++ [mkCall "rrtstar" (Pose4 0 0 0 0) (Pose4 4 0 0 0)])) ∧
  compute_path no_astar detour [] (Pose4 0 0 0 0) (Pose4 8 0 0 0) None "astar"
    = Ok ([Pose4 0 0 0 0; Pose4 8 0 0 0], distEuclidean (Pose4 0 0 0 0) (Pose4 8 0 0 0), []) ∧
  compute_path no_astar detour [] (Pose4 0 0 0 0) (Pose4 4 0 0 0)
    (Some (mkPathPlanner "rrtstar" "rrtstar" ["timeout"%string])) "rrtstar" = Err KeyError.
Proof.
  split; [|split].
  - apply (proj1 (proj2 (compute_path_outcome no_astar detour [] (Pose4 0 0 0 0)
                           (Pose4 4 0 0 0) rrtstar_config "rrtstar")) _ 10%float).
    vm_compute. reflexivity.
  - apply (proj1 (compute_path_outcome no_astar detour [] (Pose4 0 0 0 0) (Pose4 8 0 0 0)
                    None "astar")).
    left. reflexivity.
  - apply (proj2 (proj2 (compute_path_outcome no_astar detour [] (Pose4 0 0 0 0)
                           (Pose4 4 0 0 0)
                           (Some (mkPathPlanner "rrtstar" "rrtstar" ["timeout"%string]))
                           "rrtstar")) (mkPathPlanner "rrtstar" "rrtstar" ["timeout"%string])).
    + reflexivity.
    + discriminate.
Defined.

(** X17, witness: the square of scenario A as safety area, heights from 1
    to 5. *)
Lemma setup_bounds_enclose_witness :
  ∃ b, environment_bounds square_area 1 5 = Some b ∧
    z (point_min b) = 1%float ∧ z (point_max b) = 5%float ∧
    (∀ p, p ∈ square_area -> within_bounds b p) ∧
    x (point_min b) ∈ x <$> square_area ∧ x (point_max b) ∈ x <$> square_area ∧
    y (point_min b) ∈ y <$> square_area ∧ y (point_max b) ∈ y <$> square_area.
Proof.
  apply (proj2 (setup_bounds_enclose square_area 1 5)).
  - discriminate.
  - repeat constructor.
Defined.

(** X18, witness: the first viewpoint of the tour of scenario B. *)
Lemma tour_visits_viewpoints_witness :
  ∃ i v p,
    compute_tsp_sequence lkh_in_order (session_of detour_run) !! 0 = Some (Some i) ∧
    two_apart !! i = Some v ∧
    p ∈ tour_of detour_run ∧ point p = point (pose v) ∧
    (planners_join no_astar detour eq -> pose v ∈ tour_of detour_run).
Proof.
  apply (tour_visits_viewpoints blocked no_astar detour lkh_in_order two_apart rrtstar_config
           (tour_of detour_run) (session_of detour_run)).
  - apply detour_joins. by intros p.
  - vm_compute. reflexivity.
  - simpl. lia.
Defined.
